(** * A shallow embedding of the Lokku point-region quadtree

    The development follows [src/src/quadtree.c] and
    [src/src/quadtree_private.h]:

    - the mutable builder ([UFQuadTree], [TransNode], [_qt_insert],
      [_split_node], ...);
    - the finaliser, which lays the builder out in one buffer whose child
      links are byte offsets from the start of the inner nodes;
    - the stack based query iterator ([qt_query_itr], [qt_itr_next],
      [_itr_next_recursive]) and the two array wrappers.

    Conventions.
    - [FLOAT] (a [typedef double] in the source) is kept abstract: the code
      only adds, subtracts, halves and compares coordinates.  The
      operations are the fields of [FloatOps]; the theorems that need the
      comparisons to behave like a total order (no NaN) say so through
      [FloatOrder].  The rationals are the instance used for examples.
    - [unsigned int] fields of a bucket ([n], [size]) are 32-bit: their
      arithmetic is written with [wrap32].  The 64-bit counters count
      objects that each occupy distinct memory, and [depth] is the nesting
      depth of the C recursion itself; these are modelled as unbounded
      integers.
    - C functions that loop or recurse without a structural argument take
      a [fuel] argument; undefined behaviour (a write outside a bucket, a
      frame outside the iterator stack, a read of memory never written, a
      second [free]) is an explicit [Err].
    - The embedding is that of a build with [NDEBUG]: the [assert]s and
      the debug counters are absent.  Allocation does not fail ([malloc]
      of 0 bytes returns a block), with one exception: [realloc] of 0
      bytes frees the block and returns [NULL], as glibc's does, on which
      [_realloc] ends the program with [exit(1)]; this is the error
      [AllocExit]. *)

From Stdlib Require Import ZArith QArith List Bool Lia Permutation.
From stdpp Require Import gmap.
Import ListNotations.

Local Open Scope Z_scope.
Set Warnings "-register-all".

(** ** Results of partial operations *)

Inductive error : Type :=
| OutOfFuel          (* the model ran out of fuel: says nothing of the code *)
| AllocExit          (* exit(1) in _realloc: realloc of 0 bytes returned NULL *)
| BucketOverflow     (* items[n] written with n >= size, the capacity of the bucket *)
| StackOutOfBounds   (* iterator frame outside the allocated stack *)
| BadRead            (* read of a word or item that was never written *)
| ArrayOutOfBounds   (* result array written at or after its allocated size *)
| DoubleFree.        (* free() of an iterator that was already freed *)

Inductive result (A : Type) : Type :=
| Ok (a : A)
| Err (e : error).
Arguments Ok {A} a.
Arguments Err {A} e.

Definition bind {A B} (c : result A) (k : A -> result B) : result B :=
  match c with
  | Ok a => k a
  | Err e => Err e
  end.

Notation "'let*' x := c 'in' k" := (bind c (fun x => k))
  (at level 10, x name, c at level 100, k at level 200).
Notation "'let*' ' p := c 'in' k" := (bind c (fun x => let 'p := x in k))
  (at level 10, p pattern, c at level 100, k at level 200).

Definition wrap32 (x : Z) : Z := x mod 2 ^ 32.
Definition wrap64 (x : Z) : Z := x mod 2 ^ 64.

(** ** Coordinates *)

(** The operations the source applies to a [FLOAT].  [fle a b] is the C
    expression [a <= b] (also written [b >= a]); [flt a b] is [a < b]
    (also [b > a]). *)
Class FloatOps (FLOAT : Type) : Type := {
  fadd : FLOAT -> FLOAT -> FLOAT;
  fsub : FLOAT -> FLOAT -> FLOAT;
  fdiv : FLOAT -> FLOAT -> FLOAT;
  ftwo : FLOAT;
  fle : FLOAT -> FLOAT -> bool;
  flt : FLOAT -> FLOAT -> bool
}.

(** What the proofs use of the comparisons: a total preorder, with [<]
    the complement of [>=].  IEEE doubles satisfy this away from NaN. *)
Class FloatOrder (FLOAT : Type) `{FloatOps FLOAT} : Prop := {
  fle_total : forall a b, fle a b = true \/ fle b a = true;
  fle_trans : forall a b c, fle a b = true -> fle b c = true -> fle a c = true;
  flt_fle : forall a b, flt a b = negb (fle b a)
}.

(** [typedef enum { X, Y, COORD } coords;] *)
Inductive coord_index : Type := X | Y.

(** [typedef enum { NW, NE, SW, SE, QUAD } quadindex;] used as an integer
    (array index, operand of [&] and [|], incremented). *)
Definition quadindex := Z.
Definition NW : quadindex := 0.
Definition NE : quadindex := 1.
Definition SW : quadindex := 2.
Definition SE : quadindex := 3.
Definition QUAD : quadindex := 4.

(** [#define ROOT ((u_int64_t)0)] *)
Definition ROOT : Z := 0.

(** [sizeof(Inner)], [sizeof(Leaf)] (the header [n] alone; [items] is a
    flexible array member) and [sizeof(Item)], all packed. *)
Definition sizeof_Inner : Z := 32.
Definition sizeof_Leaf : Z := 8.
Definition sizeof_Item : Z := 24.

(** A four-element array indexed by a [quadindex]. *)
Record quad4 (A : Type) : Type := mkQuad4 { q_nw : A; q_ne : A; q_sw : A; q_se : A }.
Arguments mkQuad4 {A}.
Arguments q_nw {A}.
Arguments q_ne {A}.
Arguments q_sw {A}.
Arguments q_se {A}.

(** [a[i]]; [None] outside [0..3]. *)
Definition get4 {A} (a : quad4 A) (i : quadindex) : option A :=
  if i =? NW then Some (q_nw a)
  else if i =? NE then Some (q_ne a)
  else if i =? SW then Some (q_sw a)
  else if i =? SE then Some (q_se a)
  else None.

(** [a[i] = v] *)
Definition set4 {A} (a : quad4 A) (i : quadindex) (v : A) : quad4 A :=
  if i =? NW then mkQuad4 v (q_ne a) (q_sw a) (q_se a)
  else if i =? NE then mkQuad4 (q_nw a) v (q_sw a) (q_se a)
  else if i =? SW then mkQuad4 (q_nw a) (q_ne a) v (q_se a)
  else if i =? SE then mkQuad4 (q_nw a) (q_ne a) (q_sw a) v
  else a.

Section Quadtree.

Context {FLOAT : Type} `{FloatOps FLOAT}.

(** A two-element array [FLOAT v[2]], indexed by [X] and [Y]. *)
Definition vec2 : Type := (FLOAT * FLOAT)%type.

Definition at_ (v : vec2) (c : coord_index) : FLOAT :=
  match c with X => fst v | Y => snd v end.

Definition upd (v : vec2) (c : coord_index) (a : FLOAT) : vec2 :=
  match c with X => (a, snd v) | Y => (fst v, a) end.

Record Quadrant : Type := mkQuadrant { ne : vec2; sw : vec2 }.

Record Item : Type := mkItem { value : Z; coords : vec2 }.

(** [in_quadrant]: the four inclusive comparisons. *)
Definition in_quadrant (i : Item) (q : Quadrant) : bool :=
  fle (at_ (sw q) X) (at_ (coords i) X) && fle (at_ (coords i) X) (at_ (ne q) X) &&
  fle (at_ (sw q) Y) (at_ (coords i) Y) && fle (at_ (coords i) Y) (at_ (ne q) Y).

(** [CALCDIVS(div_x, div_y, region)] *)
Definition CALCDIVS (region : Quadrant) : FLOAT * FLOAT :=
  (fadd (at_ (sw region) X) (fdiv (fsub (at_ (ne region) X) (at_ (sw region) X)) ftwo),
   fadd (at_ (sw region) Y) (fdiv (fsub (at_ (ne region) Y) (at_ (sw region) Y)) ftwo)).

(** [OVERLAP(qA, qB)] and [CONTAINED(inner, outer)]: products of
    comparison results, i.e. conjunctions without short cut. *)
Definition OVERLAP (qA qB : Quadrant) : bool :=
  (fle (at_ (sw qA) X) (at_ (ne qB) X) && fle (at_ (sw qA) Y) (at_ (ne qB) Y)) &&
  (fle (at_ (sw qB) X) (at_ (ne qA) X) && fle (at_ (sw qB) Y) (at_ (ne qA) Y)).

Definition CONTAINED (inner outer : Quadrant) : bool :=
  fle (at_ (sw outer) X) (at_ (sw inner) X) &&
  fle (at_ (sw outer) Y) (at_ (sw inner) Y) &&
  fle (at_ (ne inner) X) (at_ (ne outer) X) &&
  fle (at_ (ne inner) Y) (at_ (ne outer) Y).

(** [NORTH], [SOUTH], [EAST], [WEST]: the new value of [x]. *)
Definition NORTH (x : quadindex) : quadindex := Z.land x NE.
Definition SOUTH (x : quadindex) : quadindex := Z.lor x SW.
Definition EAST (x : quadindex) : quadindex := Z.lor x NE.
Definition WEST (x : quadindex) : quadindex := Z.land x SW.

(** [_gen_quadrants]: the four sub-quadrants of [region] at once. *)
Definition _gen_quadrants (region : Quadrant) : quad4 Quadrant :=
  let '(div_x, div_y) := CALCDIVS region in
  {| q_ne := {| ne := (at_ (ne region) X, at_ (ne region) Y); sw := (div_x, div_y) |};
     q_se := {| ne := (at_ (ne region) X, div_y); sw := (div_x, at_ (sw region) Y) |};
     q_sw := {| ne := (div_x, div_y); sw := (at_ (sw region) X, at_ (sw region) Y) |};
     q_nw := {| ne := (div_x, at_ (ne region) Y); sw := (at_ (sw region) X, div_y) |} |}.

(** ** The builder *)

(** [struct _TransNode]: an inner node with four child pointers ([None]
    is [NULL]), or a leaf with its bucket: the [n] item pointers written so
    far and the capacity [size].  [leaf.n] is the length of [items]. *)
Inductive TransNode : Type :=
| TInner (nw ne sw se : option TransNode)
| TLeaf (items : list Item) (size : Z).

Definition is_inner (node : TransNode) : bool :=
  match node with TInner _ _ _ _ => true | TLeaf _ _ => false end.

Definition leaf_n (items : list Item) : Z := Z.of_nat (length items).

(** [node->quadrants[i]] *)
Definition child (node : TransNode) (i : quadindex) : option TransNode :=
  match node with
  | TInner c0 c1 c2 c3 =>
      match get4 (mkQuad4 c0 c1 c2 c3) i with Some c => c | None => None end
  | TLeaf _ _ => None
  end.

(** [node->quadrants[i] = c] *)
Definition set_child (node : TransNode) (i : quadindex) (c : TransNode) : TransNode :=
  match node with
  | TInner c0 c1 c2 c3 =>
      let a := set4 (mkQuad4 c0 c1 c2 c3) i (Some c) in
      TInner (q_nw a) (q_ne a) (q_sw a) (q_se a)
  | TLeaf _ _ => node
  end.

(** [struct UFQuadTree] *)
Record UFQuadTree : Type := mkUFQuadTree {
  uf_root : TransNode;
  uf_region : Quadrant;
  uf_size : Z;
  uf_maxdepth : Z;
  uf_maxfill : Z;
  uf_ninners : Z;
  uf_nleafs : Z
}.

Definition set_root (qt : UFQuadTree) (r : TransNode) : UFQuadTree :=
  mkUFQuadTree r (uf_region qt) (uf_size qt) (uf_maxdepth qt) (uf_maxfill qt)
    (uf_ninners qt) (uf_nleafs qt).
Definition set_size (qt : UFQuadTree) (n : Z) : UFQuadTree :=
  mkUFQuadTree (uf_root qt) (uf_region qt) n (uf_maxdepth qt) (uf_maxfill qt)
    (uf_ninners qt) (uf_nleafs qt).
Definition set_maxdepth (qt : UFQuadTree) (d : Z) : UFQuadTree :=
  mkUFQuadTree (uf_root qt) (uf_region qt) (uf_size qt) d (uf_maxfill qt)
    (uf_ninners qt) (uf_nleafs qt).
Definition set_counts (qt : UFQuadTree) (ninners nleafs : Z) : UFQuadTree :=
  mkUFQuadTree (uf_root qt) (uf_region qt) (uf_size qt) (uf_maxdepth qt) (uf_maxfill qt)
    ninners nleafs.

(** [qt_create_quadtree]: the root is an inner node with four [NULL]
    quadrants.  The parameter [maxfill] is a [BUCKETSIZE]: an argument is
    converted to [unsigned int]. *)
Definition qt_create_quadtree (region : Quadrant) (maxfill : Z) : UFQuadTree :=
  {| uf_root := TInner None None None None;
     uf_region := region;
     uf_size := 0;
     uf_maxdepth := 0;
     uf_maxfill := wrap32 maxfill;
     uf_ninners := 1;
     uf_nleafs := 0 |}.

(** [_FLOATcmp]: [(a > b) - (a < b)] *)
Definition _FLOATcmp (a b : FLOAT) : Z :=
  Z.b2z (flt b a) - Z.b2z (flt a b).

(** [_itemcmp]: [wrtx + wrty * !wrtx] *)
Definition _itemcmp (a b : Item) : Z :=
  let wrtx := _FLOATcmp (at_ (coords a) X) (at_ (coords b) X) in
  let wrty := _FLOATcmp (at_ (coords a) Y) (at_ (coords b) Y) in
  wrtx + wrty * Z.b2z (wrtx =? 0).

(** [_distinct_items_exist]: the loop [for (i=1; i<n; i++)] compares
    [items[i-1]] with [items[i]]. *)
Fixpoint _distinct_items_exist (items : list Item) : bool :=
  match items with
  | a :: (b :: _) as rest =>
      if negb (_itemcmp a b =? 0) then true else _distinct_items_exist rest
  | _ => false
  end.

(** [_realloc], for a request of [size] bytes: [realloc] returns [NULL]
    when [size] is 0, and then [_realloc] calls [exit(1)]. *)
Definition _realloc (size : Z) : result unit :=
  if size =? 0 then Err AllocExit else Ok tt.

(** The size of a pointer to an item, an entry of a bucket. *)
Definition sizeof_Item_ptr : Z := 8.

(** [_init_leaf_node]: an empty bucket of capacity [maxfill]. *)
Definition _init_leaf_node (qt : UFQuadTree) : UFQuadTree * TransNode :=
  (set_counts qt (uf_ninners qt) (uf_nleafs qt + 1), TLeaf [] (uf_maxfill qt)).

Section InsertBody.

(** The recursive calls of [_qt_insert], with less fuel. *)
Variable rec_insert :
  UFQuadTree -> TransNode -> Item -> Quadrant -> Z -> result (UFQuadTree * TransNode).

(** The loop of [_split_node] that re-inserts the items of the copy. *)
Fixpoint reinsert (qt : UFQuadTree) (node : TransNode) (items : list Item)
    (quadrant : Quadrant) (depth : Z) : result (UFQuadTree * TransNode) :=
  match items with
  | [] => Ok (qt, node)
  | it :: rest =>
      let* '(qt', node') := rec_insert qt node it quadrant (depth - 1) in
      reinsert qt' node' rest quadrant depth
  end.

(** [_split_node] *)
Definition _split_node (qt : UFQuadTree) (node : TransNode) (quadrant : Quadrant)
    (depth : Z) : result (UFQuadTree * TransNode) :=
  match node with
  | TInner _ _ _ _ => Err BadRead
  | TLeaf items size =>
      if negb (_distinct_items_exist items) then
        (* All items are the same, we cannot further split the node *)
        let size := wrap32 (size * 2) in
        let* _ := _realloc (size * sizeof_Item_ptr) in
        Ok (qt, TLeaf items size)
      else
        (* Turn leaf node into inner *)
        let qt := set_counts qt (uf_ninners qt + 1) (uf_nleafs qt - 1) in
        reinsert qt (TInner None None None None) items quadrant depth
  end.

(** [_ensure_bucket_size] *)
Definition _ensure_bucket_size (qt : UFQuadTree) (node : TransNode) (quadrant : Quadrant)
    (depth : Z) : result (UFQuadTree * TransNode) :=
  match node with
  | TInner _ _ _ _ => Err BadRead
  | TLeaf items size =>
      if wrap32 (leaf_n items + 1) >? size then _split_node qt node quadrant depth
      else Ok (qt, node)
  end.

(** The child quadrant of [item] in [q], and [q] narrowed to it: the
    inner-node branch of [_qt_insert] up to [ASSERT_REGION_SANE]. *)
Definition classify (item : Item) (q : Quadrant) : quadindex * Quadrant :=
  let quad := 0 in
  let '(div_x, div_y) := CALCDIVS q in
  let '(quad, q) :=
    if fle div_x (at_ (coords item) X)
    then (EAST quad, {| ne := ne q; sw := upd (sw q) X div_x |})
    else (WEST quad, {| ne := upd (ne q) X div_x; sw := sw q |}) in
  if fle div_y (at_ (coords item) Y)
  then (NORTH quad, {| ne := ne q; sw := upd (sw q) Y div_y |})
  else (SOUTH quad, {| ne := upd (ne q) Y div_y; sw := sw q |}).

(** The branch [if (node->is_inner)] of [_qt_insert]. *)
Definition insert_inner (qt : UFQuadTree) (node : TransNode) (item : Item) (q : Quadrant)
    (depth : Z) : result (UFQuadTree * TransNode) :=
  let '(quad, q) := classify item q in
  (* Make sure child quadrant exists *)
  let '(qt, c) :=
    match child node quad with
    | None => _init_leaf_node qt
    | Some c => (qt, c)
    end in
  (* Insert into child quadrant *)
  let* '(qt, c) := rec_insert qt c item q depth in
  Ok (qt, set_child node quad c).

(** [_qt_insert] from the label [RESTART] on. *)
Definition insert_restart (qt : UFQuadTree) (node : TransNode) (item : Item) (q : Quadrant)
    (depth : Z) : result (UFQuadTree * TransNode) :=
  if is_inner node then insert_inner qt node item q depth
  else
    let* '(qt, node) := _ensure_bucket_size qt node q depth in
    match node with
    | TInner _ _ _ _ =>
        (* Bucket was full, leaf became inner, go again *)
        insert_inner qt node item q depth
    | TLeaf items size =>
        (* Do actual insert: items[n++] = item *)
        if leaf_n items <? size then Ok (qt, TLeaf (items ++ [item]) size)
        else Err BucketOverflow
    end.

End InsertBody.

(** [_qt_insert] *)
Fixpoint _qt_insert (fuel : nat) (qt : UFQuadTree) (node : TransNode) (item : Item)
    (q : Quadrant) (depth : Z) : result (UFQuadTree * TransNode) :=
  match fuel with
  | O => Err OutOfFuel
  | S fuel' =>
      let depth := depth + 1 in
      let qt := if depth >? uf_maxdepth qt then set_maxdepth qt depth else qt in
      insert_restart (_qt_insert fuel') qt node item q depth
  end.

(** [qt_insert] *)
Definition qt_insert (fuel : nat) (qt : UFQuadTree) (item : Item) : result UFQuadTree :=
  let qt := set_size qt (uf_size qt + 1) in
  let* '(qt, root) := _qt_insert fuel qt (uf_root qt) item (uf_region qt) 0 in
  Ok (set_root qt root).

(** A client that creates a builder and inserts [items] in order. *)
Fixpoint insert_all (fuel : nat) (qt : UFQuadTree) (items : list Item) : result UFQuadTree :=
  match items with
  | [] => Ok qt
  | it :: rest => let* qt' := qt_insert fuel qt it in insert_all fuel qt' rest
  end.

Definition build (fuel : nat) (region : Quadrant) (maxfill : Z) (items : list Item)
  : result UFQuadTree :=
  insert_all fuel (qt_create_quadtree region maxfill) items.

(** ** The finalised tree *)

(** [struct QuadTree] and the buffer that follows it.  Addresses are byte
    offsets from [MEM_INNERS], the unit of the child links.  The buffer is
    kept at the granularity of its fields: [mem_words] holds the
    [u_int64_t] fields ([Inner.quadrants[i]] at [inner + 8*i], [Leaf.n] at
    [leaf]) and [mem_items] the packed [Item]s ([leaf->items[i]] at
    [leaf + 8 + 24*i]).  An address that was never written is absent. *)
Record QuadTree : Type := mkQuadTree {
  qt_region : Quadrant;
  qt_size : Z;
  qt_maxdepth : Z;
  qt_ninners : Z;
  qt_nleafs : Z;
  mem_words : gmap Z Z;
  mem_items : gmap Z Item
}.

Definition MEM_INNERS : Z := 0.
Definition MEM_LEAFS (qt : QuadTree) : Z := MEM_INNERS + qt_ninners qt * sizeof_Inner.
Definition MEM_ROOT : Z := MEM_INNERS.
Definition IS_LEAF (qt : QuadTree) (node : Z) : bool := MEM_LEAFS qt <=? node.

Definition store_word (qt : QuadTree) (addr v : Z) : QuadTree :=
  mkQuadTree (qt_region qt) (qt_size qt) (qt_maxdepth qt) (qt_ninners qt) (qt_nleafs qt)
    (<[addr := v]> (mem_words qt)) (mem_items qt).
Definition store_item (qt : QuadTree) (addr : Z) (it : Item) : QuadTree :=
  mkQuadTree (qt_region qt) (qt_size qt) (qt_maxdepth qt) (qt_ninners qt) (qt_nleafs qt)
    (mem_words qt) (<[addr := it]> (mem_items qt)).
Definition read_word (qt : QuadTree) (addr : Z) : result Z :=
  match mem_words qt !! addr with Some v => Ok v | None => Err BadRead end.
Definition read_item (qt : QuadTree) (addr : Z) : result Item :=
  match mem_items qt !! addr with Some v => Ok v | None => Err BadRead end.

(** [_mem_size]; [sizeof_QuadTree] is the size of the header. *)
Definition _mem_size (sizeof_QuadTree : Z) (qt : UFQuadTree) : Z :=
  sizeof_QuadTree + sizeof_Inner * uf_ninners qt + sizeof_Leaf * uf_nleafs qt
  + sizeof_Item * uf_size qt.

(** [_init_quadtree]: the header of a buffer not yet written. *)
Definition _init_quadtree (from : UFQuadTree) : QuadTree :=
  {| qt_region := uf_region from;
     qt_size := uf_size from;
     qt_maxdepth := uf_maxdepth from;
     qt_ninners := uf_ninners from;
     qt_nleafs := uf_nleafs from;
     mem_words := ∅;
     mem_items := ∅ |}.

(** [struct _FinaliseState]; [cur_trans] is the argument of the functions
    below. *)
Record FinaliseState : Type := mkFinaliseState {
  fs_quadtree : QuadTree;
  fs_ninners : Z;
  fs_cur_node : Z;
  fs_next_leaf : Z
}.

Definition fs_store_word (st : FinaliseState) (addr v : Z) : FinaliseState :=
  mkFinaliseState (store_word (fs_quadtree st) addr v) (fs_ninners st) (fs_cur_node st)
    (fs_next_leaf st).

(** The copy loop of [_qt_finalise_leaf]: [leaf->items[i] = *cur->leaf.items[i]]. *)
Fixpoint copy_items (qt : QuadTree) (leaf : Z) (i : Z) (items : list Item) : QuadTree :=
  match items with
  | [] => qt
  | it :: rest =>
      copy_items (store_item qt (leaf + sizeof_Leaf + sizeof_Item * i) it) leaf (i + 1) rest
  end.

(** [_qt_finalise_leaf] *)
Definition _qt_finalise_leaf (st : FinaliseState) (items : list Item) : FinaliseState :=
  let next_leaf := fs_next_leaf st + (sizeof_Leaf + leaf_n items * sizeof_Item) in
  let leaf := fs_cur_node st in
  let qt := store_word (fs_quadtree st) leaf (leaf_n items) in
  mkFinaliseState (copy_items qt leaf 0 items) (fs_ninners st) (fs_cur_node st) next_leaf.

(** One round of the loop of [_qt_finalise_inner], for the child [c] in
    slot [i] of the inner node written at [inner]. *)
Definition finalise_child (rec_finalise : FinaliseState -> TransNode -> FinaliseState)
    (inner : Z) (i : quadindex) (c : option TransNode) (st : FinaliseState) : FinaliseState :=
  match c with
  | None => fs_store_word st (inner + 8 * i) ROOT
  | Some ch =>
      let cur_node :=
        if is_inner ch then MEM_INNERS + sizeof_Inner * fs_ninners st
        else fs_next_leaf st in
      let st := mkFinaliseState (fs_quadtree st) (fs_ninners st) cur_node (fs_next_leaf st) in
      let st := fs_store_word st (inner + 8 * i) (cur_node - MEM_INNERS) in
      rec_finalise st ch
  end.

(** [_qt_finalise], with [_qt_finalise_inner] in its first branch. *)
Fixpoint _qt_finalise (st : FinaliseState) (cur_trans : TransNode) : FinaliseState :=
  match cur_trans with
  | TInner c0 c1 c2 c3 =>
      let inner := fs_cur_node st in
      let st := mkFinaliseState (fs_quadtree st) (fs_ninners st + 1) (fs_cur_node st)
                  (fs_next_leaf st) in
      let st := finalise_child _qt_finalise inner 0 c0 st in
      let st := finalise_child _qt_finalise inner 1 c1 st in
      let st := finalise_child _qt_finalise inner 2 c2 st in
      finalise_child _qt_finalise inner 3 c3 st
  | TLeaf items _ => _qt_finalise_leaf st items
  end.

(** [qt_finalise] (the optional dump to a file left out). *)
Definition qt_finalise (qt_ : UFQuadTree) : QuadTree :=
  let qt := _init_quadtree qt_ in
  let st := {| fs_quadtree := qt; fs_ninners := 0; fs_cur_node := MEM_INNERS;
               fs_next_leaf := MEM_LEAFS qt |} in
  fs_quadtree (_qt_finalise st (uf_root qt_)).

(** ** The iterator *)

(** [struct _Qt_Itr_Frame] *)
Record Qt_Itr_Frame : Type := mkFrame {
  fr_node : Z;
  fr_quadrants : quad4 Quadrant;
  fr_quadrant : quadindex;
  fr_within_parent : bool
}.

(** [struct Qt_Iterator].  [itr_stack] lists the live frames
    [stack[so]], [stack[so-1]], ..., [stack[0]]: [FRAME(itr,so)] is its
    head and [PREVFRAME(itr,so)] the frame after it, and [so] is its length
    minus one.  (A frame above [so] is never read before all its fields
    are written again.)  [itr_nframes] is the number of frames that
    [qt_query_itr] allocated and [itr_freed] records [free(itr)]. *)
Record Qt_Iterator : Type := mkItr {
  itr_stack : list Qt_Itr_Frame;
  itr_nframes : Z;
  itr_lp : option Z;
  itr_cur_item : Z;
  itr_region : Quadrant;
  itr_quadtree : QuadTree;
  itr_freed : bool
}.

Definition itr_so (itr : Qt_Iterator) : Z := Z.of_nat (length (itr_stack itr)) - 1.

Definition set_stack (itr : Qt_Iterator) (s : list Qt_Itr_Frame) : Qt_Iterator :=
  mkItr s (itr_nframes itr) (itr_lp itr) (itr_cur_item itr) (itr_region itr)
    (itr_quadtree itr) (itr_freed itr).
Definition set_lp (itr : Qt_Iterator) (lp : option Z) : Qt_Iterator :=
  mkItr (itr_stack itr) (itr_nframes itr) lp (itr_cur_item itr) (itr_region itr)
    (itr_quadtree itr) (itr_freed itr).
Definition set_cur_item (itr : Qt_Iterator) (c : Z) : Qt_Iterator :=
  mkItr (itr_stack itr) (itr_nframes itr) (itr_lp itr) c (itr_region itr)
    (itr_quadtree itr) (itr_freed itr).
Definition set_freed (itr : Qt_Iterator) : Qt_Iterator :=
  mkItr (itr_stack itr) (itr_nframes itr) (itr_lp itr) (itr_cur_item itr) (itr_region itr)
    (itr_quadtree itr) true.

(** [FRAME(itr,so).quadrant++] *)
Definition next_quadrant (fr : Qt_Itr_Frame) : Qt_Itr_Frame :=
  mkFrame (fr_node fr) (fr_quadrants fr) (fr_quadrant fr + 1) (fr_within_parent fr).

(** [free(itr)] *)
Definition free_itr (itr : Qt_Iterator) : result Qt_Iterator :=
  if itr_freed itr then Err DoubleFree else Ok (set_freed itr).

(** "Enter the child": the block of [_itr_next_recursive] guarded by
    [OVERLAP], for the top frame [fr] whose slot [fr_quadrant fr] holds the
    offset [off] and has the sub-quadrant [q]. *)
Definition enter_child (itr : Qt_Iterator) (fr : Qt_Itr_Frame) (rest : list Qt_Itr_Frame)
    (off : Z) (q : Quadrant) : result Qt_Iterator :=
  (* so++ : the frame written is stack[so] for the new so *)
  if itr_so itr + 1 <? itr_nframes itr then
    let new :=
      {| fr_quadrant := 0;
         fr_quadrants := _gen_quadrants q;
         fr_within_parent := fr_within_parent fr || CONTAINED q (itr_region itr);
         fr_node := MEM_INNERS + off |} in
    Ok (set_stack itr (new :: fr :: rest))
  else Err StackOutOfBounds.

(** The code at the label [RECURSE] up to the outer [while]; [loop] is the
    rest of the function. *)
Definition at_RECURSE (loop : Qt_Iterator -> result Qt_Iterator) (itr : Qt_Iterator)
  : result Qt_Iterator :=
  match itr_stack itr with
  | [] => Err StackOutOfBounds
  | fr :: _ =>
      if IS_LEAF (itr_quadtree itr) (fr_node fr) then
        Ok (set_lp (set_cur_item itr 0) (Some (fr_node fr)))
      else loop itr
  end.

(** The two nested [while] loops of [_itr_next_recursive]; one unit of
    fuel for each test of the inner loop condition. *)
Fixpoint itr_loop (fuel : nat) (itr : Qt_Iterator) : result Qt_Iterator :=
  match fuel with
  | O => Err OutOfFuel
  | S fuel' =>
      match itr_stack itr with
      | [] => (* itr->so == -1 *) Ok (set_lp itr None)
      | fr :: rest =>
          if fr_quadrant fr =? QUAD then
            (* No quadrants on this node remaining --- backtrack one node *)
            match rest with
            | [] => itr_loop fuel' (set_stack itr [])
            | fr' :: rest' => itr_loop fuel' (set_stack itr (next_quadrant fr' :: rest'))
            end
          else
            let* off := read_word (itr_quadtree itr) (fr_node fr + 8 * fr_quadrant fr) in
            if off =? ROOT then
              (* Skip empty/uninitialised quadrants *)
              itr_loop fuel' (set_stack itr (next_quadrant fr :: rest))
            else
              match get4 (fr_quadrants fr) (fr_quadrant fr) with
              | None => Err BadRead
              | Some q =>
                  if OVERLAP (itr_region itr) q then
                    let* itr' := enter_child itr fr rest off q in
                    at_RECURSE (itr_loop fuel') itr'
                  else itr_loop fuel' (set_stack itr (next_quadrant fr :: rest))
              end
      end
  end.

(** [_itr_next_recursive] *)
Definition _itr_next_recursive (fuel : nat) (itr : Qt_Iterator) : result Qt_Iterator :=
  at_RECURSE (itr_loop fuel) itr.

(** [qt_query_itr]: the stack has room for [qt->maxdepth] frames. *)
Definition qt_query_itr (fuel : nat) (qt : QuadTree) (region : Quadrant)
  : result Qt_Iterator :=
  let itr :=
    {| itr_stack := []; itr_nframes := qt_maxdepth qt; itr_lp := None; itr_cur_item := 0;
       itr_region := region; itr_quadtree := qt; itr_freed := false |} in
  (* itr->so = 0; itr->stack[0] = ... *)
  if 0 <? itr_nframes itr then
    let root :=
      {| fr_node := MEM_ROOT; fr_quadrant := 0; fr_within_parent := false;
         fr_quadrants := _gen_quadrants (qt_region qt) |} in
    _itr_next_recursive fuel (set_stack itr [root])
  else Err StackOutOfBounds.

(** [qt_itr_next].  A recursive call stands for the next test of the
    [while] condition or for [goto ENTER]; [lp] is not [NULL] at the
    former, so that entering at [ENTER] does the same. *)
Fixpoint qt_itr_next (fuel : nat) (itr : Qt_Iterator) : result (option Item * Qt_Iterator) :=
  match fuel with
  | O => Err OutOfFuel
  | S fuel' =>
      match itr_lp itr with
      | None => (* free(itr); return NULL; *)
          let* itr := free_itr itr in Ok (None, itr)
      | Some lp =>
          match itr_stack itr with
          | [] => Err StackOutOfBounds
          | fr :: rest =>
              let* n := read_word (itr_quadtree itr) (fr_node fr) in
              if wrap64 (n - 1) >=? itr_cur_item itr then
                let* itm := read_item (itr_quadtree itr)
                              (lp + sizeof_Leaf + sizeof_Item * itr_cur_item itr) in
                let itr := set_cur_item itr (wrap64 (itr_cur_item itr + 1)) in
                if in_quadrant itm (itr_region itr) then Ok (Some itm, itr)
                else qt_itr_next fuel' itr
              else
                (* itr->so--; itr->stack[itr->so].quadrant++; *)
                match rest with
                | [] => Err StackOutOfBounds
                | fr' :: rest' =>
                    let* itr := _itr_next_recursive fuel'
                                  (set_stack itr (next_quadrant fr' :: rest')) in
                    qt_itr_next fuel' itr
                end
          end
      end
  end.

(** A client that opens an iterator and calls [qt_itr_next] until it
    returns [NULL], collecting what it returned. *)
Fixpoint drain (fuel : nat) (itr : Qt_Iterator) : result (list Item) :=
  match fuel with
  | O => Err OutOfFuel
  | S fuel' =>
      let* '(r, itr) := qt_itr_next fuel' itr in
      match r with
      | None => Ok []
      | Some i => let* rest := drain fuel' itr in Ok (i :: rest)
      end
  end.

Definition query_all (fuel : nat) (qt : QuadTree) (region : Quadrant) : result (list Item) :=
  let* itr := qt_query_itr fuel qt region in
  drain fuel itr.

(** ** The array wrappers *)

(** The result array [Item **items]: the entries written so far, in index
    order (both wrappers write index 0, 1, 2, ... in turn), each the item
    pointed to or [None] for [NULL]; [alloced] is its allocated length. *)
Definition write_entry (items : list (option Item)) (alloced idx : Z) (v : option Item)
  : result (list (option Item)) :=
  if (idx <? alloced) && (idx =? Z.of_nat (length items)) then Ok (items ++ [v])
  else Err ArrayOutOfBounds.

(** The [for] loop of [qt_query_ary], from the evaluation of its condition
    [(items[i] = qt_itr_next(itr)) != NULL]; the result is the iterator,
    the array and the final [i]. *)
Fixpoint query_ary_loop (fuel : nat) (itr : Qt_Iterator) (items : list (option Item))
    (alloced i maxn : Z) : result (Qt_Iterator * list (option Item) * Z) :=
  match fuel with
  | O => Err OutOfFuel
  | S fuel' =>
      let* '(r, itr) := qt_itr_next fuel' itr in
      let* items := write_entry items alloced i r in
      match r with
      | None => Ok (itr, items, i)
      | Some _ =>
          (* At most maxn items *)
          if (maxn >? 0) && (i >=? maxn) then Ok (itr, items, i)
          else
            (* Exponential allocation *)
            let alloced := if i + 1 >=? alloced then alloced * 2 else alloced in
            query_ary_loop fuel' itr items alloced (i + 1) maxn
      end
  end.

(** [qt_query_ary]: the array and the value written to [*maxn]. *)
Definition qt_query_ary (fuel : nat) (quadtree : QuadTree) (region : Quadrant) (maxn : Z)
  : result (list (option Item) * Z) :=
  let alloced := 32 in
  let* itr := qt_query_itr fuel quadtree region in
  let* '(itr, items, i) := query_ary_loop fuel itr [] alloced 0 maxn in
  (* Free iterator *)
  let* _ := free_itr itr in
  Ok (items, i).

(** The two loops of [_include_leaf] over [j = 0 .. n-1]: all items, or
    those in [quadrant]. *)
Fixpoint include_all (qt : QuadTree) (leaf : Z) (count : nat) (j : Z)
    (items : list (option Item)) (size offsetv i : Z)
  : result (list (option Item) * Z) :=
  match count with
  | O => Ok (items, i)
  | S count' =>
      let* itm := read_item qt (leaf + sizeof_Leaf + sizeof_Item * j) in
      let* items := write_entry items size (offsetv + i) (Some itm) in
      include_all qt leaf count' (j + 1) items size offsetv (i + 1)
  end.

Fixpoint include_matching (qt : QuadTree) (leaf : Z) (quadrant : Quadrant) (count : nat)
    (j : Z) (items : list (option Item)) (size offsetv i : Z)
  : result (list (option Item) * Z) :=
  match count with
  | O => Ok (items, i)
  | S count' =>
      let* itm := read_item qt (leaf + sizeof_Leaf + sizeof_Item * j) in
      if in_quadrant itm quadrant then
        let* items := write_entry items size (offsetv + i) (Some itm) in
        include_matching qt leaf quadrant count' (j + 1) items size offsetv (i + 1)
      else include_matching qt leaf quadrant count' (j + 1) items size offsetv i
  end.

(** [_include_leaf]: the new array, [*offset] and [*size]. *)
Definition _include_leaf (qt : QuadTree) (items : list (option Item)) (offset size : Z)
    (leaf : Z) (quadrant : Quadrant) (within : bool)
  : result (list (option Item) * Z * Z) :=
  let* n := read_word qt leaf in
  let required := offset + n in
  (* Exponential allocation *)
  let size := if required >? size then required * 2 else size in
  let* '(items, i) :=
    if within then include_all qt leaf (Z.to_nat n) 0 items size offset 0
    else include_matching qt leaf quadrant (Z.to_nat n) 0 items size offset 0 in
  Ok (items, offset + i, size).

(** The [while (itr->lp != NULL)] loop of [qt_query_ary_fast]. *)
Fixpoint query_ary_fast_loop (fuel : nat) (itr : Qt_Iterator) (items : list (option Item))
    (alloced i maxn : Z) : result (Qt_Iterator * list (option Item) * Z) :=
  match fuel with
  | O => Err OutOfFuel
  | S fuel' =>
      match itr_lp itr with
      | None => Ok (itr, items, i)
      | Some lp =>
          (* At most maxn items *)
          if negb (maxn =? 0) && (i >=? maxn) then Ok (itr, items, i)
          else
            match itr_stack itr with
            | [] => Err StackOutOfBounds
            | fr :: rest =>
                let* '(items, i, alloced) :=
                  _include_leaf (itr_quadtree itr) items i alloced lp (itr_region itr)
                    (fr_within_parent fr) in
                (* itr->so--; itr->stack[itr->so].quadrant++; *)
                match rest with
                | [] => Err StackOutOfBounds
                | fr' :: rest' =>
                    let* itr := _itr_next_recursive fuel'
                                  (set_stack itr (next_quadrant fr' :: rest')) in
                    query_ary_fast_loop fuel' itr items alloced i maxn
                end
            end
      end
  end.

(** [qt_query_ary_fast]: the array and the value written to [*maxn]. *)
Definition qt_query_ary_fast (fuel : nat) (quadtree : QuadTree) (region : Quadrant) (maxn : Z)
  : result (list (option Item) * Z) :=
  let alloced := 4096 / 8 in
  let* itr := qt_query_itr fuel quadtree region in
  let* '(itr, items, i) := query_ary_fast_loop fuel itr [] alloced 0 maxn in
  (* Free iterator *)
  let* _ := free_itr itr in
  Ok (items, i).

End Quadtree.

Arguments Quadrant FLOAT : clear implicits.
Arguments Item FLOAT : clear implicits.
Arguments TransNode FLOAT : clear implicits.
Arguments UFQuadTree FLOAT : clear implicits.
Arguments QuadTree FLOAT : clear implicits.
Arguments FinaliseState FLOAT : clear implicits.
Arguments Qt_Itr_Frame FLOAT : clear implicits.
Arguments Qt_Iterator FLOAT : clear implicits.

(** ** Vocabulary of the statements *)

Section Vocabulary.

Context {FLOAT : Type} {Hops : FloatOps FLOAT}.

Abbreviation Item := (Item FLOAT).
Abbreviation Quadrant := (Quadrant FLOAT).
Abbreviation TransNode := (TransNode FLOAT).
Abbreviation UFQuadTree := (UFQuadTree FLOAT).
Abbreviation QuadTree := (QuadTree FLOAT).
Abbreviation Qt_Itr_Frame := (Qt_Itr_Frame FLOAT).
Abbreviation Qt_Iterator := (Qt_Iterator FLOAT).
Abbreviation FinaliseState := (FinaliseState FLOAT).

(** The [if (++depth > qt->maxdepth)] at the head of [_qt_insert]. *)
Definition bump_maxdepth (qt : UFQuadTree) (depth : Z) : UFQuadTree :=
  if depth >? uf_maxdepth qt then set_maxdepth qt depth else qt.

(** Liftings to a child slot that may be [NULL]. *)
Definition opt_list {A} (f : TransNode -> list A) (c : option TransNode) : list A :=
  match c with Some n => f n | None => [] end.
Definition opt_Z (f : TransNode -> Z) (c : option TransNode) : Z :=
  match c with Some n => f n | None => 0 end.
Definition opt_bool (f : TransNode -> bool) (c : option TransNode) : bool :=
  match c with Some n => f n | None => true end.
Definition opt_Prop (P : TransNode -> Prop) (c : option TransNode) : Prop :=
  match c with Some n => P n | None => True end.

(** The items below a node, in the order NW, NE, SW, SE of the finaliser
    and of the iterator. *)
Fixpoint items_of (node : TransNode) : list Item :=
  match node with
  | TInner c0 c1 c2 c3 =>
      opt_list items_of c0 ++ opt_list items_of c1 ++ opt_list items_of c2
      ++ opt_list items_of c3
  | TLeaf items _ => items
  end.

Fixpoint count_inners (node : TransNode) : Z :=
  match node with
  | TInner c0 c1 c2 c3 =>
      1 + opt_Z count_inners c0 + opt_Z count_inners c1 + opt_Z count_inners c2
      + opt_Z count_inners c3
  | TLeaf _ _ => 0
  end.

Fixpoint count_leafs (node : TransNode) : Z :=
  match node with
  | TInner c0 c1 c2 c3 =>
      opt_Z count_leafs c0 + opt_Z count_leafs c1 + opt_Z count_leafs c2
      + opt_Z count_leafs c3
  | TLeaf _ _ => 1
  end.

(** Number of levels of a subtree: 1 for a leaf and for an inner node
    without children. *)
Fixpoint levels (node : TransNode) : Z :=
  match node with
  | TInner c0 c1 c2 c3 =>
      1 + Z.max (Z.max (opt_Z levels c0) (opt_Z levels c1))
                (Z.max (opt_Z levels c2) (opt_Z levels c3))
  | TLeaf _ _ => 1
  end.

(** [c != NULL] *)
Definition has_node (c : option TransNode) : bool :=
  match c with Some _ => true | None => false end.

(** A predicate on every node of a subtree: [pI] on the four slots of an
    inner node, [pL] on the bucket of a leaf. *)
Fixpoint all_nodes (pI : option TransNode -> option TransNode -> option TransNode ->
                         option TransNode -> bool)
    (pL : list Item -> Z -> bool) (node : TransNode) : bool :=
  match node with
  | TInner c0 c1 c2 c3 =>
      pI c0 c1 c2 c3
      && opt_bool (all_nodes pI pL) c0 && opt_bool (all_nodes pI pL) c1
      && opt_bool (all_nodes pI pL) c2 && opt_bool (all_nodes pI pL) c3
  | TLeaf items size => pL items size
  end.

(** The same for the nodes strictly below [node]. *)
Definition all_below (pI : option TransNode -> option TransNode -> option TransNode ->
                         option TransNode -> bool)
    (pL : list Item -> Z -> bool) (node : TransNode) : bool :=
  match node with
  | TInner c0 c1 c2 c3 =>
      opt_bool (all_nodes pI pL) c0 && opt_bool (all_nodes pI pL) c1
      && opt_bool (all_nodes pI pL) c2 && opt_bool (all_nodes pI pL) c3
  | TLeaf _ _ => true
  end.

Definition some_child (c0 c1 c2 c3 : option TransNode) : bool :=
  has_node c0 || has_node c1 || has_node c2 || has_node c3.

(** Every inner node of the subtree has a child slot that is not [NULL]. *)
Definition inners_have_child : TransNode -> bool :=
  all_nodes some_child (fun _ _ => true).

(** Every leaf of the subtree holds at least one item. *)
Definition leaves_nonempty : TransNode -> bool :=
  all_nodes (fun _ _ _ _ => true) (fun items _ => 1 <=? leaf_n items).

(** [n <= size < 2^32] for the bucket of a leaf. *)
Definition bucket_ok (items : list Item) (size : Z) : bool :=
  (leaf_n items <=? size) && (size <? 2 ^ 32).

Definition buckets_ok : TransNode -> bool :=
  all_nodes (fun _ _ _ _ => true) bucket_ok.

(** Both at once: [1 <= n <= size < 2^32] in every leaf. *)
Definition leaf_ok (items : list Item) (size : Z) : bool :=
  (1 <=? leaf_n items) && bucket_ok items size.

Definition leaves_ok : TransNode -> bool :=
  all_nodes (fun _ _ _ _ => true) leaf_ok.

(** Every item below a node lies in the quadrant of that node, when
    [node] has the quadrant [q] and the quadrants of children are those of
    [_gen_quadrants]. *)
Fixpoint located (q : Quadrant) (node : TransNode) : Prop :=
  Forall (fun it => in_quadrant it q = true) (items_of node) /\
  match node with
  | TInner c0 c1 c2 c3 =>
      let qs := _gen_quadrants q in
      opt_Prop (located (q_nw qs)) c0 /\ opt_Prop (located (q_ne qs)) c1 /\
      opt_Prop (located (q_sw qs)) c2 /\ opt_Prop (located (q_se qs)) c3
  | TLeaf _ _ => True
  end.

(** The leaves that a query for [Q] visits below a node of quadrant [q],
    in order: the children whose quadrant overlaps [Q], NW, NE, SW, SE. *)
Definition visit_slot (V : Quadrant -> TransNode -> list (list Item)) (Q qi : Quadrant)
    (c : option TransNode) : list (list Item) :=
  match c with
  | Some n => if OVERLAP Q qi then V qi n else []
  | None => []
  end.

Fixpoint visit (Q q : Quadrant) (node : TransNode) : list (list Item) :=
  match node with
  | TInner c0 c1 c2 c3 =>
      let qs := _gen_quadrants q in
      visit_slot (visit Q) Q (q_nw qs) c0 ++ visit_slot (visit Q) Q (q_ne qs) c1 ++
      visit_slot (visit Q) Q (q_sw qs) c2 ++ visit_slot (visit Q) Q (q_se qs) c3
  | TLeaf items _ => [items]
  end.

(** The same from the child slot [i] on. *)
Definition pending_from (Q q : Quadrant) (node : TransNode) (i : quadindex)
  : list (list Item) :=
  match node with
  | TInner c0 c1 c2 c3 =>
      let qs := _gen_quadrants q in
      (if i <=? 0 then visit_slot (visit Q) Q (q_nw qs) c0 else []) ++
      (if i <=? 1 then visit_slot (visit Q) Q (q_ne qs) c1 else []) ++
      (if i <=? 2 then visit_slot (visit Q) Q (q_sw qs) c2 else []) ++
      (if i <=? 3 then visit_slot (visit Q) Q (q_se qs) c3 else [])
  | TLeaf _ _ => []
  end.

(** The items that a query for [Q] returns from a list of leaves. *)
Definition matching (Q : Quadrant) (leaves : list (list Item)) : list Item :=
  concat (map (List.filter (fun it => in_quadrant it Q)) leaves).

(** What is left of a leaf from item [j] on. *)
Definition from_item (j : Z) (items : list Item) : list Item := skipn (Z.to_nat j) items.

(** What the iterator has still to return when it points at item [j] of a
    leaf holding [items], with the leaves [pend] to come. *)
Definition output (Q : Quadrant) (items : list Item) (j : Z) (pend : list (list Item))
  : list Item :=
  List.filter (fun it => in_quadrant it Q) (from_item j items) ++ matching Q pend.

(** The item count of a leaf as the iterator needs it: [n - 1] does not
    wrap around, nor does [cur_item + 1]. *)
Definition count_ok (items : list Item) : Prop := 1 <= leaf_n items < 2 ^ 32.

(** Bytes of the leaves below a node in the finalised buffer. *)
Fixpoint leaf_bytes (node : TransNode) : Z :=
  match node with
  | TInner c0 c1 c2 c3 =>
      opt_Z leaf_bytes c0 + opt_Z leaf_bytes c1 + opt_Z leaf_bytes c2
      + opt_Z leaf_bytes c3
  | TLeaf items _ => sizeof_Leaf + leaf_n items * sizeof_Item
  end.

(** The address of a node that is laid out when [k] inner nodes have been
    placed and the next leaf goes to [L]. *)
Definition addr_of (node : TransNode) (k L : Z) : Z :=
  if is_inner node then MEM_INNERS + sizeof_Inner * k else L.

(** The word at [a] is the link to the child [c], laid out from [(k, L)]. *)
Definition slot_laid (R : Z -> Z -> TransNode -> Prop) (qt : QuadTree) (a : Z)
    (c : option TransNode) (k L : Z) : Prop :=
  match c with
  | None => mem_words qt !! a = Some ROOT
  | Some n => mem_words qt !! a = Some (addr_of n k L - MEM_INNERS) /\ R k L n
  end.

(** The buffer [qt] holds [node] and its subtree in depth-first order,
    [node] being the [k]-th inner node or the leaf at [L]. *)
Fixpoint laid_out (qt : QuadTree) (k L : Z) (node : TransNode) : Prop :=
  match node with
  | TInner c0 c1 c2 c3 =>
      let a := MEM_INNERS + sizeof_Inner * k in
      let k0 := k + 1 in
      let k1 := k0 + opt_Z count_inners c0 in
      let k2 := k1 + opt_Z count_inners c1 in
      let k3 := k2 + opt_Z count_inners c2 in
      let L1 := L + opt_Z leaf_bytes c0 in
      let L2 := L1 + opt_Z leaf_bytes c1 in
      let L3 := L2 + opt_Z leaf_bytes c2 in
      slot_laid (laid_out qt) qt (a + 8 * 0) c0 k0 L /\
      slot_laid (laid_out qt) qt (a + 8 * 1) c1 k1 L1 /\
      slot_laid (laid_out qt) qt (a + 8 * 2) c2 k2 L2 /\
      slot_laid (laid_out qt) qt (a + 8 * 3) c3 k3 L3
  | TLeaf items _ =>
      mem_words qt !! L = Some (leaf_n items) /\
      forall j it, nth_error items j = Some it ->
        mem_items qt !! (L + sizeof_Leaf + sizeof_Item * Z.of_nat j) = Some it
  end.

(** [node] is laid out in the buffer from [(k, L)], among its
    [qt_ninners qt] inner nodes and before its leaves. *)
Definition at_node (qt : QuadTree) (k L : Z) (node : TransNode) : Prop :=
  laid_out qt k L node /\ 0 <= k /\ k + count_inners node <= qt_ninners qt /\
  sizeof_Inner * qt_ninners qt <= L.

(** The leaves below a node with their addresses in the finalised
    buffer, when the first of them is laid out at [L]. *)
Fixpoint leaf_heads (L : Z) (node : TransNode) : list (Z * list Item) :=
  match node with
  | TInner c0 c1 c2 c3 =>
      let L1 := L + opt_Z leaf_bytes c0 in
      let L2 := L1 + opt_Z leaf_bytes c1 in
      let L3 := L2 + opt_Z leaf_bytes c2 in
      opt_list (leaf_heads L) c0 ++ opt_list (leaf_heads L1) c1 ++
      opt_list (leaf_heads L2) c2 ++ opt_list (leaf_heads L3) c3
  | TLeaf items _ => [(L, items)]
  end.

(** The frame of the [k]-th inner node, of quadrant [q], at child [i]. *)
Definition inner_frame (k : Z) (q : Quadrant) (i : quadindex) (w : bool) : Qt_Itr_Frame :=
  mkFrame (MEM_INNERS + sizeof_Inner * k) (_gen_quadrants q) i w.

(** The stack after "backtrack one node". *)
Definition advance (s : list Qt_Itr_Frame) : list Qt_Itr_Frame :=
  match s with
  | [] => []
  | fr :: rest => next_quadrant fr :: rest
  end.

(** The frames below the top of the stack: each is an inner node of the
    tree that the iterator entered at its child [i]; [pend] lists the
    leaves still to visit once the subtree above is done. *)
Inductive below_ok (T : QuadTree) (Q : Quadrant) (nf : Z)
  : list Qt_Itr_Frame -> list (list Item) -> Prop :=
| below_nil : below_ok T Q nf [] []
| below_cons k L q i w node rest pend :
    is_inner node = true -> at_node T k L node -> 0 <= i < QUAD ->
    Z.of_nat (length rest) + levels node <= nf ->
    below_ok T Q nf rest pend ->
    below_ok T Q nf (inner_frame k q i w :: rest) (pending_from Q q node (i + 1) ++ pend).

(** The iterator points at item [j] of a leaf holding [items], with the
    leaves [pend] still to visit. *)
Definition at_leaf (T : QuadTree) (Q : Quadrant) (nf : Z) (itr : Qt_Iterator)
    (items : list Item) (j : Z) (pend : list (list Item)) : Prop :=
  exists L fr rest,
    itr = mkItr (fr :: rest) nf (Some L) j Q T false /\ fr_node fr = L /\
    laid_out T 0 L (TLeaf items 0) /\ rest <> [] /\ below_ok T Q nf rest pend.

(** The iterator is exhausted. *)
Definition exhausted (T : QuadTree) (Q : Quadrant) (nf : Z) (itr : Qt_Iterator) : Prop :=
  exists cur, itr = mkItr [] nf None cur Q T false.

(** The addresses that laying out a subtree from [(k, L)] may write. *)
Definition in_ranges (k L : Z) (node : option TransNode) (a : Z) : Prop :=
  sizeof_Inner * k <= a < sizeof_Inner * (k + opt_Z count_inners node) \/
  L <= a < L + opt_Z leaf_bytes node.

(** Two buffers with the same header that agree outside [P]. *)
Definition agree_outside (P : Z -> Prop) (qt qt' : QuadTree) : Prop :=
  qt_region qt' = qt_region qt /\ qt_size qt' = qt_size qt /\
  qt_maxdepth qt' = qt_maxdepth qt /\ qt_ninners qt' = qt_ninners qt /\
  qt_nleafs qt' = qt_nleafs qt /\
  forall a, ~ P a ->
    mem_words qt' !! a = mem_words qt !! a /\ mem_items qt' !! a = mem_items qt !! a.

(** The midpoint of the specification, [lo + (hi - lo)/2], and its rule
    "on the boundary goes north/east". *)
Definition midpoint (lo hi : FLOAT) : FLOAT := fadd lo (fdiv (fsub hi lo) ftwo).

Definition quadrant_rule (item : Item) (q : Quadrant) : quadindex :=
  let mx := midpoint (at_ (sw q) X) (at_ (ne q) X) in
  let my := midpoint (at_ (sw q) Y) (at_ (ne q) Y) in
  let east := fle mx (at_ (coords item) X) in
  let north := fle my (at_ (coords item) Y) in
  match east, north with
  | true, true => NE
  | true, false => SE
  | false, true => NW
  | false, false => SW
  end.






(** A root whose only child is a leaf, in slot [quad]. *)
Definition single_leaf (quad : quadindex) (items : list Item) (size : Z) : TransNode :=
  set_child (TInner None None None None) quad (TLeaf items size).

(** The builder in which all the items inserted so far share the leaf in
    slot [quad] of the root. *)
Definition coincident_state (region : Quadrant) (maxfill : Z) (quad : quadindex)
    (items : list Item) (size : Z) : UFQuadTree :=
  {| uf_root := single_leaf quad items size;
     uf_region := region;
     uf_size := leaf_n items;
     uf_maxdepth := 2;
     uf_maxfill := wrap32 maxfill;
     uf_ninners := 1;
     uf_nleafs := 1 |}.

(** ** Statements of the invariants *)

(** The counters of a builder agree with its tree. *)
Definition counters_ok (qt : UFQuadTree) : Prop :=
  is_inner (uf_root qt) = true /\
  uf_ninners qt = count_inners (uf_root qt) /\
  uf_nleafs qt = count_leafs (uf_root qt) /\
  levels (uf_root qt) <= Z.max (uf_maxdepth qt) 1.

(** [_qt_insert] leaves the region and the item count alone. *)
Definition same_header (qt qt' : UFQuadTree) : Prop :=
  uf_region qt' = uf_region qt /\ uf_size qt' = uf_size qt.

(** What one call of [_qt_insert] does to the counters, for a node entered
    with the argument [depth] (the node is on level [depth + 1]). *)
Definition counters_step (qt : UFQuadTree) (node : TransNode) (depth : Z)
    (qt' : UFQuadTree) (node' : TransNode) : Prop :=
  uf_ninners qt' - count_inners node' = uf_ninners qt - count_inners node /\
  uf_nleafs qt' - count_leafs node' = uf_nleafs qt - count_leafs node /\
  uf_maxdepth qt <= uf_maxdepth qt' /\
  ((is_inner node = true -> depth + levels node <= Z.max (uf_maxdepth qt) (depth + 1)) ->
   depth + levels node' <= uf_maxdepth qt').

(** What an insertion needs of the node it is given, for the shape
    [all_nodes pI pL]: a leaf may still be empty ([pL0]). *)
Definition shape_pre
    (pI : option TransNode -> option TransNode -> option TransNode ->
          option TransNode -> bool)
    (pL pL0 : list Item -> Z -> bool) (node : TransNode) : bool :=
  match node with
  | TInner _ _ _ _ => all_below pI pL node
  | TLeaf items size => pL0 items size
  end.

(** What [_qt_finalise] does for [node]. *)
Definition finalise_ok (node : TransNode) : Prop :=
  forall st : FinaliseState,
    fs_cur_node st = addr_of node (fs_ninners st) (fs_next_leaf st) ->
    0 <= fs_ninners st ->
    sizeof_Inner * (fs_ninners st + count_inners node) <= fs_next_leaf st ->
    fs_ninners (_qt_finalise st node) = fs_ninners st + count_inners node /\
    fs_next_leaf (_qt_finalise st node) = fs_next_leaf st + leaf_bytes node /\
    agree_outside (in_ranges (fs_ninners st) (fs_next_leaf st) (Some node))
      (fs_quadtree st) (fs_quadtree (_qt_finalise st node)) /\
    laid_out (fs_quadtree (_qt_finalise st node)) (fs_ninners st) (fs_next_leaf st) node.

(** The loops, from an inner node at child [i] to the next leaf. *)

(** Either no leaf of the node is left from child [i] on, and the loop
    backtracks out of the node; or the loop stops at the first such leaf. *)
Definition sub_ok (T : QuadTree) (Q : Quadrant) (nf : Z) (node : TransNode) : Prop :=
  forall k L q i w rest pend lp cur,
    is_inner node = true -> at_node T k L node -> 0 <= i <= QUAD ->
    Z.of_nat (length rest) + levels node <= nf ->
    below_ok T Q nf rest pend ->
    exists c : nat,
      (pending_from Q q node i = [] /\
       forall f, itr_loop (c + f) (mkItr (inner_frame k q i w :: rest) nf lp cur Q T false) =
                 itr_loop f (mkItr (advance rest) nf lp cur Q T false)) \/
      (exists items P itr',
         pending_from Q q node i = items :: P /\
         at_leaf T Q nf itr' items 0 (P ++ pend) /\
         forall f, itr_loop (c + f) (mkItr (inner_frame k q i w :: rest) nf lp cur Q T false)
                   = Ok itr').

(** What [qt_itr_next] does at item [j] of a leaf: it returns [NULL] when
    nothing is left to return, and else the first item of [output]. *)
Definition next_ok (T : QuadTree) (Q : Quadrant) (nf : Z)
    (items : list Item) (j : Z) (pend : list (list Item)) (itr : Qt_Iterator) : Prop :=
  exists c : nat,
    (output Q items j pend = [] /\
     forall f, exists itr', qt_itr_next (c + f) itr = Ok (None, itr')) \/
    (exists x itr' items' j' pend',
       output Q items j pend = x :: output Q items' j' pend' /\
       at_leaf T Q nf itr' items' j' pend' /\ 0 <= j' <= leaf_n items' /\
       count_ok items' /\ Forall count_ok pend' /\
       forall f, qt_itr_next (c + f) itr = Ok (Some x, itr')).

End Vocabulary.


(** ** Vocabulary of the further properties *)

Section MoreVocabulary.

Context {FLOAT : Type} {Hops : FloatOps FLOAT}.

Abbreviation Item := (Item FLOAT).
Abbreviation Quadrant := (Quadrant FLOAT).
Abbreviation TransNode := (TransNode FLOAT).
Abbreviation UFQuadTree := (UFQuadTree FLOAT).
Abbreviation QuadTree := (QuadTree FLOAT).
Abbreviation Qt_Itr_Frame := (Qt_Itr_Frame FLOAT).
Abbreviation Qt_Iterator := (Qt_Iterator FLOAT).
Abbreviation FinaliseState := (FinaliseState FLOAT).

(** What one call of [_qt_insert] with the argument [depth] does to
    [maxdepth] and to the height of the node. *)
Definition depth_step (qt : UFQuadTree) (node : TransNode) (depth : Z)
    (qt' : UFQuadTree) (node' : TransNode) : Prop :=
  uf_maxdepth qt' <= Z.max (uf_maxdepth qt) (depth + levels node') /\
  levels node <= levels node'.

(** A bucket with room: [n <= size], and a capacity between 1 and
    [2^32 - 1]. *)
Definition room_ok (items : list Item) (size : Z) : bool :=
  (leaf_n items <=? size) && (1 <=? size) && (size <? 2 ^ 32).

(** A computation that can only fail for lack of fuel. *)
Definition only_fuel {A} (r : result A) : Prop := forall e, r = Err e -> e = OutOfFuel.

(** The fields of [struct QuadTree] before the nodes. *)
Definition header_of (T : QuadTree) : Quadrant * Z * Z * Z * Z :=
  (qt_region T, qt_size T, qt_maxdepth T, qt_ninners T, qt_nleafs T).

(** Every object written to the buffer lies in its first [B] bytes after
    the header: a word takes 8 bytes and an item [sizeof_Item]. *)
Definition within_buffer (B : Z) (T : QuadTree) : Prop :=
  (forall a v, mem_words T !! a = Some v -> 0 <= a /\ a + 8 <= B) /\
  (forall a it, mem_items T !! a = Some it -> 0 <= a /\ a + sizeof_Item <= B).

(** What [_qt_finalise] needs of the state for the node it translates,
    when the buffer has [B] bytes. *)
Definition finalise_pre (B : Z) (st : FinaliseState) (node : TransNode) : Prop :=
  fs_cur_node st = addr_of node (fs_ninners st) (fs_next_leaf st) /\
  0 <= fs_ninners st /\
  sizeof_Inner * (fs_ninners st + count_inners node) <= fs_next_leaf st /\
  fs_next_leaf st + leaf_bytes node <= B.

(** The buffer read from the address [a] along the child offsets is the
    tree [node]: an inner node lies before [MEM_LEAFS] and its four words
    are 0 for [NULL] and else the offset of the child; a leaf lies at or
    after [MEM_LEAFS] and holds its count and its items in order. *)
Definition stored_slot (R : Z -> TransNode -> Prop) (T : QuadTree) (w : Z)
    (c : option TransNode) : Prop :=
  match c with
  | None => read_word T w = Ok ROOT
  | Some n =>
      exists off, read_word T w = Ok off /\ off <> ROOT /\ R (MEM_INNERS + off) n
  end.

Fixpoint stored (T : QuadTree) (a : Z) (node : TransNode) : Prop :=
  match node with
  | TInner c0 c1 c2 c3 =>
      IS_LEAF T a = false /\
      stored_slot (stored T) T (a + 8 * NW) c0 /\
      stored_slot (stored T) T (a + 8 * NE) c1 /\
      stored_slot (stored T) T (a + 8 * SW) c2 /\
      stored_slot (stored T) T (a + 8 * SE) c3
  | TLeaf items _ =>
      IS_LEAF T a = true /\
      read_word T a = Ok (leaf_n items) /\
      forall j it, nth_error items j = Some it ->
        read_item T (a + sizeof_Leaf + sizeof_Item * Z.of_nat j) = Ok it
  end.

(** A builder tree without the capacities of its buckets, which the
    buffer does not record. *)
Fixpoint forget_size (node : TransNode) : TransNode :=
  match node with
  | TInner c0 c1 c2 c3 =>
      TInner (option_map forget_size c0) (option_map forget_size c1)
             (option_map forget_size c2) (option_map forget_size c3)
  | TLeaf items _ => TLeaf items 0
  end.

(** The flag [within_parent] of a frame is sound for the node of the
    frame: when it is set, every item below the node is in the query
    region. *)
Definition flag_ok (Q : Quadrant) (w : bool) (node : TransNode) : Prop :=
  w = true -> Forall (fun it => in_quadrant it Q = true) (items_of node).

(** [below_ok] with the quadrants and the flags of the frames: each frame
    is an inner node, with its own quadrant and a sound flag. *)
Inductive below_flagged (T : QuadTree) (Q : Quadrant) (nf : Z)
  : list Qt_Itr_Frame -> list (list Item) -> Prop :=
| below_flagged_nil : below_flagged T Q nf [] []
| below_flagged_cons k L q i w node rest pend :
    is_inner node = true -> at_node T k L node -> 0 <= i < QUAD ->
    Z.of_nat (length rest) + levels node <= nf ->
    located q node -> flag_ok Q w node ->
    below_flagged T Q nf rest pend ->
    below_flagged T Q nf (inner_frame k q i w :: rest)
      (pending_from Q q node (i + 1) ++ pend).

(** The iterator has just entered a leaf holding [items], whose frame
    has a sound flag, with the leaves [pend] still to visit. *)
Definition at_leaf_flagged (T : QuadTree) (Q : Quadrant) (nf : Z) (itr : Qt_Iterator)
    (items : list Item) (pend : list (list Item)) : Prop :=
  exists L fr rest,
    itr = mkItr (fr :: rest) nf (Some L) 0 Q T false /\ fr_node fr = L /\
    laid_out T 0 L (TLeaf items 0) /\ rest <> [] /\
    (fr_within_parent fr = true -> Forall (fun it => in_quadrant it Q = true) items) /\
    below_flagged T Q nf rest pend.





(** [sub_ok] for frames with sound flags. *)
Definition sub_flagged (T : QuadTree) (Q : Quadrant) (nf : Z) (node : TransNode) : Prop :=
  forall k L q i w rest pend lp cur,
    is_inner node = true -> at_node T k L node -> 0 <= i <= QUAD ->
    Z.of_nat (length rest) + levels node <= nf ->
    located q node -> flag_ok Q w node ->
    below_flagged T Q nf rest pend ->
    exists c : nat,
      (pending_from Q q node i = [] /\
       forall f, itr_loop (c + f) (mkItr (inner_frame k q i w :: rest) nf lp cur Q T false) =
                 itr_loop f (mkItr (advance rest) nf lp cur Q T false)) \/
      (exists items P itr',
         pending_from Q q node i = items :: P /\
         at_leaf_flagged T Q nf itr' items (P ++ pend) /\
         forall f, itr_loop (c + f) (mkItr (inner_frame k q i w :: rest) nf lp cur Q T false)
                   = Ok itr').

(** What [qt_query_ary_fast] takes from the leaves that the traversal
    visits, when [i] items have been taken already: the matching items of
    each leaf, leaf by leaf, until the limit [m] (if not 0) is reached. *)
Fixpoint fast_take (Q : Quadrant) (m i : Z) (leaves : list (list Item)) : list Item :=
  match leaves with
  | [] => []
  | l :: rest =>
      if negb (m =? 0) && (i >=? m) then []
      else
        let taken := List.filter (fun it => in_quadrant it Q) l in
        taken ++ fast_take Q m (i + Z.of_nat (length taken)) rest
  end.

(** Every word of the buffer fits the [u_int32_t] index with which
    [_include_leaf] counts the items of a leaf. *)
Definition small_counts (T : QuadTree) : Prop :=
  forall a n, mem_words T !! a = Some n -> 0 <= n < 2 ^ 32.

(** The condition on inner nodes that asks nothing. *)
Definition any_inner (c0 c1 c2 c3 : option TransNode) : bool := true.

End MoreVocabulary.

(** ** The rationals as coordinates *)

#[export] Instance Q_ops : FloatOps Q := {|
  fadd := Qplus;
  fsub := Qminus;
  fdiv := Qdiv;
  ftwo := 2%Q;
  fle := Qle_bool;
  flt := fun a b => negb (Qle_bool b a)
|}.

Definition pt (v : Z) (x y : Z) : Item Q := mkItem v (inject_Z x, inject_Z y).
Definition box (x0 y0 x1 y1 : Z) : Quadrant Q :=
  mkQuadrant (inject_Z x1, inject_Z y1) (inject_Z x0, inject_Z y0).

Definition build_final (fuel : nat) (region : Quadrant Q) (maxfill : Z) (items : list (Item Q))
  : result (QuadTree Q) :=
  let* qt := build fuel region maxfill items in Ok (qt_finalise qt).

(** Builders used as examples: the region is (0,0)-(10,10). *)
Definition demo_items : list (Item Q) := [pt 1 1 1; pt 2 9 9; pt 3 1 9; pt 4 2 2; pt 5 3 3].

Definition demo_builder : UFQuadTree Q :=
  Eval vm_compute in
    match build 10 (box 0 0 10 10) 2 demo_items with
    | Ok qt => qt
    | Err _ => qt_create_quadtree (box 0 0 10 10) 2
    end.

(** Two items that share a leaf. *)
Definition pair_builder : UFQuadTree Q :=
  Eval vm_compute in
    match build 10 (box 0 0 10 10) 4 [pt 1 1 1; pt 2 2 2] with
    | Ok qt => qt
    | Err _ => qt_create_quadtree (box 0 0 10 10) 4
    end.


Definition far_itr : Qt_Iterator Q :=
  Eval vm_compute in
    match qt_query_itr 20 (qt_finalise pair_builder) (box 20 20 30 30) with
    | Ok itr => itr
    | Err _ => mkItr [] 0 None 0 (box 20 20 30 30) (qt_finalise pair_builder) true
    end.

(** ** Properties of the builder *)

Section BuilderFacts.

Context {FLOAT : Type} {Hops : FloatOps FLOAT}.

Abbreviation Item := (Item FLOAT).
Abbreviation Quadrant := (Quadrant FLOAT).
Abbreviation TransNode := (TransNode FLOAT).
Abbreviation UFQuadTree := (UFQuadTree FLOAT).
Abbreviation QuadTree := (QuadTree FLOAT).

Abbreviation empty_inner := (TInner None None None None).

Lemma _qt_insert_S fuel (qt : UFQuadTree) node item q depth :
  _qt_insert (S fuel) qt node item q depth =
  insert_restart (_qt_insert fuel) (bump_maxdepth qt (depth + 1)) node item q (depth + 1).
Proof. reflexivity. Qed.

Lemma bind_Ok {A B} (c : result A) (k : A -> result B) b :
  bind c k = Ok b -> exists a, c = Ok a /\ k a = Ok b.
Proof. destruct c; simpl; [eauto | discriminate]. Qed.

(** Inversion of the inner-node branch. *)
Lemma insert_inner_inv rec (qt : UFQuadTree) node item q depth qt' node' :
  insert_inner rec qt node item q depth = Ok (qt', node') ->
  exists qtc c c',
    (child node (fst (classify item q)) = Some c /\ qtc = qt \/
     child node (fst (classify item q)) = None /\ (qtc, c) = _init_leaf_node qt) /\
    rec qtc c item (snd (classify item q)) depth = Ok (qt', c') /\
    node' = set_child node (fst (classify item q)) c'.
Proof.
  unfold insert_inner. destruct (classify item q) as [quad q2]. simpl.
  destruct (child node quad) as [c|] eqn:Hc.
  - intros (x & Hrec & Hx)%bind_Ok. destruct x as [qt2 c']. inversion Hx; subst.
    exists qt, c, c'. auto.
  - destruct (_init_leaf_node qt) as [qtc c] eqn:Hi.
    intros (x & Hrec & Hx)%bind_Ok. destruct x as [qt2 c']. inversion Hx; subst.
    exists qtc, c, c'. auto.
Qed.

(** Inversion of one call of [_qt_insert]: the four ways it can succeed. *)
Lemma _qt_insert_inv fuel (qt : UFQuadTree) node item q depth qt' node' :
  _qt_insert (S fuel) qt node item q depth = Ok (qt', node') ->
  let qt1 := bump_maxdepth qt (depth + 1) in
  (is_inner node = true /\
   insert_inner (_qt_insert fuel) qt1 node item q (depth + 1) = Ok (qt', node')) \/
  (exists items size, node = TLeaf items size /\
     (wrap32 (leaf_n items + 1) >? size) = false /\ leaf_n items < size /\
     qt' = qt1 /\ node' = TLeaf (items ++ [item]) size) \/
  (exists items size, node = TLeaf items size /\
     (wrap32 (leaf_n items + 1) >? size) = true /\ _distinct_items_exist items = false /\
     leaf_n items < wrap32 (size * 2) /\
     qt' = qt1 /\ node' = TLeaf (items ++ [item]) (wrap32 (size * 2))) \/
  (exists items size qt2 node2, node = TLeaf items size /\
     (wrap32 (leaf_n items + 1) >? size) = true /\ _distinct_items_exist items = true /\
     reinsert (_qt_insert fuel)
       (set_counts qt1 (uf_ninners qt1 + 1) (uf_nleafs qt1 - 1)) empty_inner items q
       (depth + 1) = Ok (qt2, node2) /\
     (is_inner node2 = true /\
      insert_inner (_qt_insert fuel) qt2 node2 item q (depth + 1) = Ok (qt', node') \/
      exists items2 size2, node2 = TLeaf items2 size2 /\ leaf_n items2 < size2 /\
        qt' = qt2 /\ node' = TLeaf (items2 ++ [item]) size2)).
Proof.
  rewrite _qt_insert_S. intros Hins. cbv zeta.
  unfold insert_restart in Hins. destruct node as [c0 c1 c2 c3 | items size]; simpl in Hins.
  - left. auto.
  - right. destruct (wrap32 (leaf_n items + 1) >? size) eqn:Hfull.
    + destruct (_distinct_items_exist items) eqn:Hd; simpl in Hins.
      * right. right.
        apply bind_Ok in Hins as ([qt2 node2] & Hre & Hins).
        exists items, size, qt2, node2. repeat split; auto.
        destruct node2 as [d0 d1 d2 d3 | items2 size2].
        -- left. auto.
        -- right. destruct (leaf_n items2 <? size2) eqn:Hlt; [|discriminate].
           inversion Hins; subst. exists items2, size2.
           apply Z.ltb_lt in Hlt. auto.
      * right. left. unfold _realloc in Hins.
        destruct (wrap32 (size * 2) * sizeof_Item_ptr =? 0); simpl in Hins; [discriminate|].
        destruct (leaf_n items <? wrap32 (size * 2)) eqn:Hlt; [|discriminate].
        inversion Hins; subst. exists items, size. apply Z.ltb_lt in Hlt. auto 10.
    + left. simpl in Hins.
      destruct (leaf_n items <? size) eqn:Hlt; [|discriminate].
      inversion Hins; subst. exists items, size. apply Z.ltb_lt in Hlt. auto 10.
Qed.

Lemma reinsert_inv rec (qt : UFQuadTree) node it rest q depth qt' node' :
  reinsert rec qt node (it :: rest) q depth = Ok (qt', node') ->
  exists qt1 node1, rec qt node it q (depth - 1) = Ok (qt1, node1) /\
    reinsert rec qt1 node1 rest q depth = Ok (qt', node').
Proof.
  simpl. intros ([qt1 node1] & Hrec & Hre)%bind_Ok. eauto.
Qed.

(** An inner node stays an inner node. *)
Lemma set_child_is_inner (node c : TransNode) i :
  is_inner node = true -> is_inner (set_child node i c) = true.
Proof. destruct node; simpl; auto. Qed.

Lemma insert_inner_is_inner rec (qt : UFQuadTree) node item q depth qt' node' :
  is_inner node = true ->
  insert_inner rec qt node item q depth = Ok (qt', node') -> is_inner node' = true.
Proof.
  intros Hin (qtc & c & c' & _ & _ & ->)%insert_inner_inv.
  now apply set_child_is_inner.
Qed.

Lemma _qt_insert_is_inner fuel (qt : UFQuadTree) node item q depth qt' node' :
  is_inner node = true ->
  _qt_insert fuel qt node item q depth = Ok (qt', node') -> is_inner node' = true.
Proof.
  destruct fuel; [discriminate|]. intros Hin Hins.
  apply _qt_insert_inv in Hins as [[_ Hi] | [Hl | [Hl | Hl]]].
  - eapply insert_inner_is_inner; eauto.
  - destruct Hl as (items & size & -> & _). discriminate.
  - destruct Hl as (items & size & -> & _). discriminate.
  - destruct Hl as (items & size & ? & ? & -> & _). discriminate.
Qed.

Lemma reinsert_is_inner fuel items : forall (qt : UFQuadTree) node q depth qt' node',
  is_inner node = true ->
  reinsert (_qt_insert fuel) qt node items q depth = Ok (qt', node') ->
  is_inner node' = true.
Proof.
  induction items as [|it rest IH]; intros qt node q depth qt' node' Hin Hre.
  - inversion Hre; subst; auto.
  - apply reinsert_inv in Hre as (qt1 & node1 & Hins & Hre).
    eapply IH; [|exact Hre]. eapply _qt_insert_is_inner; eauto.
Qed.

(** After a split the node is inner, so that [goto RESTART] takes the
    inner branch: the last case of [_qt_insert_inv] is always its first
    alternative. *)
Lemma _qt_insert_cases fuel (qt : UFQuadTree) node item q depth qt' node' :
  _qt_insert (S fuel) qt node item q depth = Ok (qt', node') ->
  let qt1 := bump_maxdepth qt (depth + 1) in
  (is_inner node = true /\
   insert_inner (_qt_insert fuel) qt1 node item q (depth + 1) = Ok (qt', node')) \/
  (exists items size size', node = TLeaf items size /\
     (size' = size \/ _distinct_items_exist items = false /\ size' = wrap32 (size * 2)) /\
     leaf_n items < size' /\ qt' = qt1 /\ node' = TLeaf (items ++ [item]) size') \/
  (exists items size qt2 node2, node = TLeaf items size /\
     (wrap32 (leaf_n items + 1) >? size) = true /\ _distinct_items_exist items = true /\
     reinsert (_qt_insert fuel)
       (set_counts qt1 (uf_ninners qt1 + 1) (uf_nleafs qt1 - 1)) empty_inner items q
       (depth + 1) = Ok (qt2, node2) /\
     is_inner node2 = true /\
     insert_inner (_qt_insert fuel) qt2 node2 item q (depth + 1) = Ok (qt', node')).
Proof.
  intros Hins. cbv zeta. apply _qt_insert_inv in Hins. cbv zeta in Hins.
  destruct Hins as [Hi | [Hl | [Hl | Hl]]].
  - left. exact Hi.
  - right. left. destruct Hl as (items & size & -> & _ & Hlt & -> & ->).
    exists items, size, size. auto 10.
  - right. left. destruct Hl as (items & size & -> & _ & Hd & Hlt & -> & ->).
    exists items, size, (wrap32 (size * 2)). auto 10.
  - right. right. destruct Hl as (items & size & qt2 & node2 & -> & Hfull & Hd & Hre & Hrest).
    assert (Hin2 : is_inner node2 = true) by (eapply reinsert_is_inner; [|exact Hre]; reflexivity).
    exists items, size, qt2, node2. destruct Hrest as [[_ Hi] | (i2 & s2 & -> & _)].
    + auto 10.
    + discriminate.
Qed.


(** *** The classification of an item at an inner node *)

Lemma classify_fst (item : Item) q : fst (classify item q) = quadrant_rule item q.
Proof.
  unfold classify, quadrant_rule, midpoint, CALCDIVS.
  destruct (fle _ (at_ (coords item) X)), (fle _ (at_ (coords item) Y)); reflexivity.
Qed.

Lemma quadrant_rule_range (item : Item) q :
  quadrant_rule item q = NW \/ quadrant_rule item q = NE \/
  quadrant_rule item q = SW \/ quadrant_rule item q = SE.
Proof.
  unfold quadrant_rule.
  destruct (fle _ (at_ (coords item) X)), (fle _ (at_ (coords item) Y)); auto.
Qed.

(** The quadrant that [_qt_insert] passes down is the one that
    [_gen_quadrants] computes for the iterator. *)
Lemma classify_snd (item : Item) q :
  get4 (_gen_quadrants q) (quadrant_rule item q) = Some (snd (classify item q)).
Proof.
  unfold classify, quadrant_rule, midpoint, _gen_quadrants, CALCDIVS.
  destruct q as [[nx ny] [sx sy]]; simpl.
  repeat case_match; reflexivity.
Qed.

Lemma child_set_child_eq (node c : TransNode) i :
  is_inner node = true -> (i = NW \/ i = NE \/ i = SW \/ i = SE) ->
  child (set_child node i c) i = Some c.
Proof.
  destruct node; [|discriminate]. intros _ [-> | [-> | [-> | ->]]]; reflexivity.
Qed.

Lemma child_set_child_ne (node c : TransNode) i j :
  j <> i -> child (set_child node i c) j = child node j.
Proof.
  destruct node as [c0 c1 c2 c3|]; [|reflexivity]. intros Hne.
  unfold child, set_child, set4, get4, NW, NE, SW, SE.
  destruct (Z.eqb_spec i 0); [subst; simpl; destruct (Z.eqb_spec j 0); [lia | reflexivity] |].
  destruct (Z.eqb_spec i 1);
    [subst; simpl; destruct (Z.eqb_spec j 0), (Z.eqb_spec j 1); try lia; reflexivity |].
  destruct (Z.eqb_spec i 2);
    [subst; simpl; destruct (Z.eqb_spec j 0), (Z.eqb_spec j 1), (Z.eqb_spec j 2);
     try lia; reflexivity |].
  destruct (Z.eqb_spec i 3);
    [subst; simpl; destruct (Z.eqb_spec j 0), (Z.eqb_spec j 1), (Z.eqb_spec j 2),
       (Z.eqb_spec j 3); try lia; reflexivity |].
  reflexivity.
Qed.

(** *** The items of the tree *)

Lemma items_of_set_child (node c' : TransNode) i :
  is_inner node = true -> (i = NW \/ i = NE \/ i = SW \/ i = SE) ->
  Permutation (items_of c' ++ items_of node)
              (opt_list items_of (child node i) ++ items_of (set_child node i c')).
Proof.
  destruct node as [c0 c1 c2 c3|]; [|discriminate].
  intros _ [-> | [-> | [-> | ->]]]; cbn [child set_child set4 get4 items_of opt_list q_nw q_ne q_sw q_se];
    simpl;
    generalize (items_of c'), (opt_list items_of c0), (opt_list items_of c1),
      (opt_list items_of c2), (opt_list items_of c3); intros l l0 l1 l2 l3.
  all: solve_Permutation.
Qed.


Section InsertItems.

Variable rec :
  UFQuadTree -> TransNode -> Item -> Quadrant -> Z -> result (UFQuadTree * TransNode).
Hypothesis rec_items : forall qt node item q depth qt' node',
  rec qt node item q depth = Ok (qt', node') ->
  Permutation (items_of node') (item :: items_of node).

Lemma insert_inner_items (qt : UFQuadTree) node item q depth qt' node' :
  is_inner node = true ->
  insert_inner rec qt node item q depth = Ok (qt', node') ->
  Permutation (items_of node') (item :: items_of node).
Proof.
  intros Hin (qtc & c & c' & Hc & Hrec & ->)%insert_inner_inv.
  apply rec_items in Hrec. rewrite classify_fst in *.
  pose proof (items_of_set_child node c' _ Hin (quadrant_rule_range item q)) as Hp.
  destruct Hc as [[Hc ->] | [Hc Hi]].
  - rewrite Hc in Hp. simpl in Hp. rewrite Hrec in Hp. simpl in Hp.
    rewrite Permutation_middle in Hp. apply Permutation_app_inv_l in Hp. now symmetry.
  - rewrite Hc in Hp. simpl in Hp. inversion Hi; subst c. simpl in Hrec.
    rewrite Hrec in Hp. simpl in Hp. now symmetry.
Qed.

Lemma reinsert_items items : forall (qt : UFQuadTree) node q depth qt' node',
  reinsert rec qt node items q depth = Ok (qt', node') ->
  Permutation (items_of node') (items ++ items_of node).
Proof.
  induction items as [|it rest IH]; intros qt node q depth qt' node' Hre.
  - inversion Hre; subst. reflexivity.
  - apply reinsert_inv in Hre as (qt1 & node1 & Hins & Hre).
    apply IH in Hre. apply rec_items in Hins. rewrite Hre, Hins. simpl.
    symmetry. apply Permutation_middle.
Qed.

End InsertItems.

(** A successful insertion adds the item, and nothing else, to the
    subtree. *)
Lemma _qt_insert_items fuel : forall (qt : UFQuadTree) node item q depth qt' node',
  _qt_insert fuel qt node item q depth = Ok (qt', node') ->
  Permutation (items_of node') (item :: items_of node).
Proof.
  induction fuel as [|fuel IH]; intros qt node item q depth qt' node' Hins; [discriminate|].
  apply _qt_insert_cases in Hins as [[Hin Hi] | [Hl | Hs]].
  - eapply insert_inner_items; eauto.
  - destruct Hl as (items & size & size' & -> & _ & _ & _ & ->). simpl.
    symmetry. apply Permutation_cons_append.
  - destruct Hs as (items & size & qt2 & node2 & -> & _ & _ & Hre & Hin2 & Hi).
    apply (reinsert_items _ IH) in Hre. simpl in Hre. rewrite app_nil_r in Hre.
    apply (insert_inner_items _ IH) in Hi; auto. simpl. now rewrite Hi, Hre.
Qed.

Lemma insert_all_items fuel items : forall (qt qt' : UFQuadTree),
  insert_all fuel qt items = Ok qt' ->
  Permutation (items_of (uf_root qt')) (items ++ items_of (uf_root qt)).
Proof.
  induction items as [|it rest IH]; intros qt qt' Hall.
  - inversion Hall; subst. reflexivity.
  - simpl in Hall. apply bind_Ok in Hall as (qt1 & Hins & Hall).
    apply IH in Hall. rewrite Hall. unfold qt_insert in Hins.
    apply bind_Ok in Hins as ([qt2 root] & Hins & Heq). inversion Heq; subst qt1.
    apply _qt_insert_items in Hins. simpl in *. rewrite Hins.
    symmetry. apply Permutation_middle.
Qed.

Lemma build_items fuel region maxfill items (qt : UFQuadTree) :
  build fuel region maxfill items = Ok qt -> Permutation (items_of (uf_root qt)) items.
Proof.
  intros Hb. apply insert_all_items in Hb. simpl in Hb. now rewrite app_nil_r in Hb.
Qed.


(** *** Predicates on every node *)

Section Shape.

Variable pI : option TransNode -> option TransNode -> option TransNode ->
              option TransNode -> bool.
Variable pL pL0 : list Item -> Z -> bool.
Variable mf : Z.

Hypothesis pI_some : forall c0 c1 c2 c3, some_child c0 c1 c2 c3 = true -> pI c0 c1 c2 c3 = true.
Hypothesis pL0_fresh : pL0 [] mf = true.
Hypothesis pL_weak : forall items size, pL items size = true -> pL0 items size = true.
Hypothesis pL_push : forall items size size' item,
  pL0 items size = true -> leaf_n items < size' ->
  (size' = size \/ size' = wrap32 (size * 2)) ->
  pL (items ++ [item]) size' = true.

Lemma all_nodes_pre node : all_nodes pI pL node = true -> shape_pre pI pL pL0 node = true.
Proof.
  destruct node as [c0 c1 c2 c3 | items size]; simpl; [|apply pL_weak].
  rewrite !andb_true_iff. tauto.
Qed.

Lemma child_all_nodes node i c :
  all_below pI pL node = true -> child node i = Some c -> all_nodes pI pL c = true.
Proof.
  destruct node as [c0 c1 c2 c3 | items size]; [|discriminate].
  unfold all_below, child, get4. rewrite !andb_true_iff. intros (((H0 & H1) & H2) & H3) Hc.
  destruct (i =? NW); [simpl in Hc; subst; exact H0|].
  destruct (i =? NE); [simpl in Hc; subst; exact H1|].
  destruct (i =? SW); [simpl in Hc; subst; exact H2|].
  destruct (i =? SE); [simpl in Hc; subst; exact H3|]. discriminate.
Qed.

Lemma set_child_all_nodes node i c :
  is_inner node = true -> (i = NW \/ i = NE \/ i = SW \/ i = SE) ->
  all_below pI pL node = true -> all_nodes pI pL c = true ->
  all_nodes pI pL (set_child node i c) = true.
Proof.
  destruct node as [c0 c1 c2 c3 | items size]; [|discriminate].
  unfold all_below. rewrite !andb_true_iff. intros _ Hi (((H0 & H1) & H2) & H3) Hc.
  destruct Hi as [-> | [-> | [-> | ->]]]; simpl; rewrite !andb_true_iff; repeat split; auto;
    apply pI_some; unfold some_child; simpl; rewrite ?orb_true_r; reflexivity.
Qed.

Section ShapeStep.

Variable rec :
  UFQuadTree -> TransNode -> Item -> Quadrant -> Z -> result (UFQuadTree * TransNode).
Hypothesis rec_shape : forall qt node item q depth qt' node',
  rec qt node item q depth = Ok (qt', node') ->
  uf_maxfill qt = mf -> shape_pre pI pL pL0 node = true ->
  uf_maxfill qt' = mf /\ all_nodes pI pL node' = true.

Lemma insert_inner_shape (qt : UFQuadTree) node item q depth qt' node' :
  is_inner node = true ->
  insert_inner rec qt node item q depth = Ok (qt', node') ->
  uf_maxfill qt = mf -> shape_pre pI pL pL0 node = true ->
  uf_maxfill qt' = mf /\ all_nodes pI pL node' = true.
Proof.
  intros Hin (qtc & c & c' & Hc & Hrec & ->)%insert_inner_inv Hmf Hpre.
  rewrite classify_fst in *.
  assert (Hb : all_below pI pL node = true) by (destruct node; [exact Hpre | discriminate]).
  apply rec_shape in Hrec as [Hmf' Hc'].
  - split; [exact Hmf'|].
    apply set_child_all_nodes; auto using quadrant_rule_range.
  - destruct Hc as [[_ ->] | [_ Hi]]; [exact Hmf|].
    unfold _init_leaf_node in Hi. injection Hi as -> ->. exact Hmf.
  - destruct Hc as [[Hc _] | [_ Hi]].
    + apply all_nodes_pre. eapply child_all_nodes; eauto.
    + unfold _init_leaf_node in Hi. injection Hi as -> ->. simpl. rewrite Hmf.
      exact pL0_fresh.
Qed.

Lemma reinsert_shape items : forall (qt : UFQuadTree) node q depth qt' node',
  reinsert rec qt node items q depth = Ok (qt', node') ->
  uf_maxfill qt = mf -> shape_pre pI pL pL0 node = true ->
  uf_maxfill qt' = mf /\ shape_pre pI pL pL0 node' = true.
Proof.
  induction items as [|it rest IH]; intros qt node q depth qt' node' Hre Hmf Hpre.
  - inversion Hre; subst. auto.
  - apply reinsert_inv in Hre as (qt1 & node1 & Hins & Hre).
    apply rec_shape in Hins as [Hmf1 Hn1]; auto.
    eapply IH; eauto using all_nodes_pre.
Qed.

End ShapeStep.

Lemma _qt_insert_shape fuel : forall (qt : UFQuadTree) node item q depth qt' node',
  _qt_insert fuel qt node item q depth = Ok (qt', node') ->
  uf_maxfill qt = mf -> shape_pre pI pL pL0 node = true ->
  uf_maxfill qt' = mf /\ all_nodes pI pL node' = true.
Proof.
  induction fuel as [|fuel IH]; intros qt node item q depth qt' node' Hins Hmf Hpre;
    [discriminate|].
  assert (Hmf1 : uf_maxfill (bump_maxdepth qt (depth + 1)) = mf)
    by (unfold bump_maxdepth; case_match; auto).
  apply _qt_insert_cases in Hins as [[Hin Hi] | [Hl | Hs]].
  - eapply insert_inner_shape; eauto.
  - destruct Hl as (items & size & size' & -> & Hsz & Hlt & -> & ->). split; [exact Hmf1|].
    simpl. eapply pL_push; eauto. tauto.
  - destruct Hs as (items & size & qt2 & node2 & -> & _ & _ & Hre & Hin2 & Hi).
    apply (reinsert_shape _ IH) in Hre as [Hmf2 Hpre2]; auto.
    eapply insert_inner_shape; eauto.
Qed.

Lemma insert_all_shape fuel items : forall (qt qt' : UFQuadTree),
  insert_all fuel qt items = Ok qt' ->
  uf_maxfill qt = mf -> is_inner (uf_root qt) = true -> shape_pre pI pL pL0 (uf_root qt) = true ->
  uf_maxfill qt' = mf /\ is_inner (uf_root qt') = true /\ shape_pre pI pL pL0 (uf_root qt') = true /\
  (items <> [] -> all_nodes pI pL (uf_root qt') = true).
Proof.
  induction items as [|it rest IH]; intros qt qt' Hall Hmf Hin Hpre.
  - inversion Hall; subst. tauto.
  - simpl in Hall. apply bind_Ok in Hall as (qt1 & Hins & Hall).
    unfold qt_insert in Hins.
    apply bind_Ok in Hins as ([qt2 root] & Hins & Heq). injection Heq as <-.
    pose proof (_qt_insert_is_inner _ _ _ _ _ _ _ _ Hin Hins) as Hin'.
    apply _qt_insert_shape in Hins as [Hmf2 Hall2]; auto.
    pose proof Hall as Hall0.
    apply IH in Hall as (Hmf' & Hin'' & Hpre' & Hne); auto using all_nodes_pre.
    repeat split; auto. intros _.
    destruct rest as [|it2 rest]; [|apply Hne; discriminate].
    injection Hall0 as <-. exact Hall2.
Qed.

End Shape.


(** *** The counters of the builder *)

(** Induction on a tree whose children sit under [option]. *)
Lemma TransNode_ind' (P : TransNode -> Prop) :
  (forall c0 c1 c2 c3,
     opt_Prop P c0 -> opt_Prop P c1 -> opt_Prop P c2 -> opt_Prop P c3 ->
     P (TInner c0 c1 c2 c3)) ->
  (forall items size, P (TLeaf items size)) ->
  forall node, P node.
Proof.
  intros HI HL. fix IH 1. intros [c0 c1 c2 c3 | items size]; [|apply HL].
  apply HI; [destruct c0 as [t|] | destruct c1 as [t|] | destruct c2 as [t|]
            | destruct c3 as [t|]]; simpl; solve [apply IH | exact I].
Qed.

Lemma levels_pos (node : TransNode) : 1 <= levels node.
Proof.
  induction node as [c0 c1 c2 c3 H0 H1 H2 H3 | items size] using TransNode_ind';
    simpl; [|lia].
  destruct c0, c1, c2, c3; simpl in *; lia.
Qed.

Lemma count_set_child (node c' : TransNode) i :
  is_inner node = true -> (i = NW \/ i = NE \/ i = SW \/ i = SE) ->
  count_inners (set_child node i c') =
    count_inners node - opt_Z count_inners (child node i) + count_inners c' /\
  count_leafs (set_child node i c') =
    count_leafs node - opt_Z count_leafs (child node i) + count_leafs c' /\
  levels (set_child node i c') <= Z.max (levels node) (1 + levels c') /\
  1 + opt_Z levels (child node i) <= levels node.
Proof.
  destruct node as [c0 c1 c2 c3|]; [|discriminate].
  intros _ [-> | [-> | [-> | ->]]]; simpl; lia.
Qed.

Section CountersStep.

Variable rec :
  UFQuadTree -> TransNode -> Item -> Quadrant -> Z -> result (UFQuadTree * TransNode).
Hypothesis rec_counters : forall qt node item q depth qt' node',
  rec qt node item q depth = Ok (qt', node') -> counters_step qt node depth qt' node'.

Lemma insert_inner_counters (qt : UFQuadTree) node item q depth qt' node' :
  is_inner node = true ->
  insert_inner rec qt node item q depth = Ok (qt', node') ->
  counters_step qt node (depth - 1) qt' node'.
Proof.
  intros Hin (qtc & c & c' & Hc & Hrec & ->)%insert_inner_inv.
  rewrite classify_fst in *.
  apply rec_counters in Hrec as (Hni & Hnl & Hmd & Hlv).
  destruct (count_set_child node c' _ Hin (quadrant_rule_range item q))
    as (Hci & Hcl & Hl1 & Hl2).
  unfold counters_step. rewrite Hci, Hcl.
  destruct Hc as [[Hc ->] | [Hc Hi]].
  - rewrite Hc in *. simpl in *. repeat split; try lia.
    intros Hpre. specialize (Hpre Hin). pose proof (levels_pos c').
    assert (depth + levels c' <= uf_maxdepth qt') by (apply Hlv; intros _; lia). lia.
  - unfold _init_leaf_node in Hi. injection Hi as -> ->.
    rewrite Hc in *. simpl in *. repeat split; try lia.
    intros Hpre. specialize (Hpre Hin). pose proof (levels_pos c').
    assert (depth + levels c' <= uf_maxdepth qt') by (apply Hlv; intros Hf; discriminate).
    lia.
Qed.

Hypothesis rec_is_inner : forall qt node item q depth qt' node',
  is_inner node = true -> rec qt node item q depth = Ok (qt', node') -> is_inner node' = true.

Lemma reinsert_counters items : forall (qt : UFQuadTree) node q depth qt' node',
  is_inner node = true ->
  reinsert rec qt node items q depth = Ok (qt', node') ->
  is_inner node' = true /\
  uf_ninners qt' - count_inners node' = uf_ninners qt - count_inners node /\
  uf_nleafs qt' - count_leafs node' = uf_nleafs qt - count_leafs node /\
  uf_maxdepth qt <= uf_maxdepth qt' /\
  (depth - 1 + levels node <= Z.max (uf_maxdepth qt) depth ->
   depth - 1 + levels node' <= Z.max (uf_maxdepth qt') depth).
Proof.
  induction items as [|it rest IH]; intros qt node q depth qt' node' Hin Hre.
  - injection Hre as <- <-. repeat split; auto; lia.
  - apply reinsert_inv in Hre as (qt1 & node1 & Hins & Hre).
    pose proof (rec_is_inner _ _ _ _ _ _ _ Hin Hins) as Hin1.
    apply rec_counters in Hins as (Hni & Hnl & Hmd & Hlv).
    apply IH in Hre as (Hin' & Hni' & Hnl' & Hmd' & Hlv'); auto.
    repeat split; auto; try lia.
Qed.

End CountersStep.

Lemma bump_maxdepth_fields (qt : UFQuadTree) d :
  uf_ninners (bump_maxdepth qt d) = uf_ninners qt /\
  uf_nleafs (bump_maxdepth qt d) = uf_nleafs qt /\
  uf_maxdepth (bump_maxdepth qt d) = Z.max (uf_maxdepth qt) d.
Proof.
  unfold bump_maxdepth. destruct (Z.gtb_spec d (uf_maxdepth qt)); simpl; lia.
Qed.

Lemma _qt_insert_counters fuel : forall (qt : UFQuadTree) node item q depth qt' node',
  _qt_insert fuel qt node item q depth = Ok (qt', node') ->
  counters_step qt node depth qt' node'.
Proof.
  induction fuel as [|fuel IH]; intros qt node item q depth qt' node' Hins; [discriminate|].
  destruct (bump_maxdepth_fields qt (depth + 1)) as (Hb1 & Hb2 & Hb3).
  apply _qt_insert_cases in Hins as [[Hin Hi] | [Hl | Hs]].
  - apply (insert_inner_counters _ IH) in Hi as (Hni & Hnl & Hmd & Hlv); auto.
    unfold counters_step. replace (depth + 1 - 1) with depth in Hlv by lia.
    repeat split; try lia. intros Hpre. specialize (Hpre Hin). apply Hlv. lia.
  - destruct Hl as (items & size & size' & -> & _ & _ & -> & ->).
    unfold counters_step. simpl. repeat split; lia.
  - destruct Hs as (items & size & qt2 & node2 & -> & _ & _ & Hre & Hin2 & Hi).
    apply (reinsert_counters _ IH (_qt_insert_is_inner fuel)) in Hre
      as (_ & Hni & Hnl & Hmd & Hlv); [|reflexivity].
    apply (insert_inner_counters _ IH) in Hi as (Hni' & Hnl' & Hmd' & Hlv'); auto.
    unfold counters_step. simpl in *.
    replace (depth + 1 - 1) with depth in * by lia.
    repeat split; lia.
Qed.

Lemma same_header_bump (qt : UFQuadTree) d : same_header qt (bump_maxdepth qt d).
Proof. unfold bump_maxdepth, same_header. case_match; auto. Qed.

Lemma same_header_trans (a b c : UFQuadTree) :
  same_header a b -> same_header b c -> same_header a c.
Proof. unfold same_header. intros [-> ->] [-> ->]. auto. Qed.

Lemma insert_inner_header rec (qt : UFQuadTree) node item q depth qt' node' :
  (forall qt node item q depth qt' node',
     rec qt node item q depth = Ok (qt', node') -> same_header qt qt') ->
  insert_inner rec qt node item q depth = Ok (qt', node') -> same_header qt qt'.
Proof.
  intros Hrec (qtc & c & c' & Hc & Hr & ->)%insert_inner_inv.
  apply Hrec in Hr. destruct Hc as [[_ ->] | [_ Hi]]; [exact Hr|].
  unfold _init_leaf_node in Hi. injection Hi as -> ->. exact Hr.
Qed.

Lemma reinsert_header rec items : forall (qt : UFQuadTree) node q depth qt' node',
  (forall qt node item q depth qt' node',
     rec qt node item q depth = Ok (qt', node') -> same_header qt qt') ->
  reinsert rec qt node items q depth = Ok (qt', node') -> same_header qt qt'.
Proof.
  induction items as [|it rest IH]; intros qt node q depth qt' node' Hrec Hre.
  - injection Hre as <- _. split; reflexivity.
  - apply reinsert_inv in Hre as (qt1 & node1 & Hins & Hre).
    eapply same_header_trans; [eapply Hrec; exact Hins | eapply IH; eauto].
Qed.

Lemma _qt_insert_header fuel : forall (qt : UFQuadTree) node item q depth qt' node',
  _qt_insert fuel qt node item q depth = Ok (qt', node') -> same_header qt qt'.
Proof.
  induction fuel as [|fuel IH]; intros qt node item q depth qt' node' Hins; [discriminate|].
  pose proof (same_header_bump qt (depth + 1)) as Hb.
  apply _qt_insert_cases in Hins as [[Hin Hi] | [Hl | Hs]].
  - eapply same_header_trans; [exact Hb | eapply insert_inner_header; eauto].
  - destruct Hl as (items & size & size' & -> & _ & _ & -> & ->). exact Hb.
  - destruct Hs as (items & size & qt2 & node2 & -> & _ & _ & Hre & Hin2 & Hi).
    apply (reinsert_header _ _ _ _ _ _ _ _ IH) in Hre.
    apply (insert_inner_header _ _ _ _ _ _ _ _ IH) in Hi.
    eapply same_header_trans; [exact Hb|]. eapply same_header_trans; [exact Hre | exact Hi].
Qed.

Lemma qt_insert_counters fuel (qt : UFQuadTree) item qt' :
  counters_ok qt -> qt_insert fuel qt item = Ok qt' ->
  counters_ok qt' /\ levels (uf_root qt') <= uf_maxdepth qt'.
Proof.
  intros (Hin & Hni & Hnl & Hlv) Hins. unfold qt_insert in Hins.
  apply bind_Ok in Hins as ([qt2 root] & Hins & Heq). injection Heq as <-.
  pose proof (_qt_insert_is_inner _ _ _ _ _ _ _ _ Hin Hins) as Hin'.
  apply _qt_insert_counters in Hins as (Hni' & Hnl' & Hmd' & Hlv').
  simpl in *. specialize (Hlv' (fun _ => Hlv)).
  unfold counters_ok. simpl. repeat split; auto; lia.
Qed.

End BuilderFacts.

(** *** Items stay inside the quadrant of their leaf *)

Section Located.

Context {FLOAT : Type} {Hops : FloatOps FLOAT} {Hord : FloatOrder FLOAT}.

Abbreviation Item := (Item FLOAT).
Abbreviation Quadrant := (Quadrant FLOAT).
Abbreviation TransNode := (TransNode FLOAT).
Abbreviation UFQuadTree := (UFQuadTree FLOAT).
Abbreviation QuadTree := (QuadTree FLOAT).

Lemma fle_refl (a : FLOAT) : fle a a = true.
Proof. destruct (fle_total a a); assumption. Qed.

Lemma fle_false (a b : FLOAT) : fle a b = false -> fle b a = true.
Proof. intros Hf. destruct (fle_total a b); congruence. Qed.

Lemma classify_in (item : Item) q :
  in_quadrant item q = true -> in_quadrant item (snd (classify item q)) = true.
Proof.
  destruct q as [[nx ny] [sx sy]], item as [v [x y]].
  unfold in_quadrant, classify, CALCDIVS; simpl.
  set (dx := fadd sx _). set (dy := fadd sy _).
  rewrite !andb_true_iff. intros (((H1 & H2) & H3) & H4).
  destruct (fle dx x) eqn:Hx, (fle dy y) eqn:Hy; simpl; repeat split;
    auto using fle_false.
Qed.

Lemma located_within q (node : TransNode) :
  located q node -> Forall (fun it => in_quadrant it q = true) (items_of node).
Proof. destruct node; simpl; tauto. Qed.

Lemma located_child q (node c : TransNode) i qi :
  located q node -> child node i = Some c -> get4 (_gen_quadrants q) i = Some qi ->
  located qi c.
Proof.
  destruct node as [c0 c1 c2 c3 | items size]; [|discriminate].
  cbn [located child]. unfold get4. intros (_ & H0 & H1 & H2 & H3) Hc Hq.
  destruct (i =? NW); [simpl in Hc; injection Hq as <-; subst; exact H0|].
  destruct (i =? NE); [simpl in Hc; injection Hq as <-; subst; exact H1|].
  destruct (i =? SW); [simpl in Hc; injection Hq as <-; subst; exact H2|].
  destruct (i =? SE); [simpl in Hc; injection Hq as <-; subst; exact H3|]. discriminate.
Qed.

Lemma located_set_child q (node c : TransNode) i qi :
  located q node -> get4 (_gen_quadrants q) i = Some qi -> located qi c ->
  Forall (fun it => in_quadrant it q = true) (items_of (set_child node i c)) ->
  located q (set_child node i c).
Proof.
  destruct node as [c0 c1 c2 c3 | items size]; [|auto].
  cbn [located set_child]. unfold get4, set4. intros (_ & H0 & H1 & H2 & H3) Hq Hc Hw.
  split; [exact Hw|]. clear Hw.
  destruct (i =? NW); [injection Hq as <-; simpl; auto|].
  destruct (i =? NE); [injection Hq as <-; simpl; auto|].
  destruct (i =? SW); [injection Hq as <-; simpl; auto|].
  destruct (i =? SE); [injection Hq as <-; simpl; auto|]. discriminate.
Qed.

Section LocatedStep.

Variable rec :
  UFQuadTree -> TransNode -> Item -> Quadrant -> Z -> result (UFQuadTree * TransNode).
Hypothesis rec_located : forall qt node item q depth qt' node',
  rec qt node item q depth = Ok (qt', node') ->
  located q node -> in_quadrant item q = true -> located q node'.
Hypothesis rec_items : forall qt node item q depth qt' node',
  rec qt node item q depth = Ok (qt', node') ->
  Permutation (items_of node') (item :: items_of node).

Lemma insert_inner_located (qt : UFQuadTree) node item q depth qt' node' :
  is_inner node = true ->
  insert_inner rec qt node item q depth = Ok (qt', node') ->
  located q node -> in_quadrant item q = true -> located q node'.
Proof.
  intros Hin Hins Hloc Hitem.
  pose proof (insert_inner_items _ rec_items _ _ _ _ _ _ _ Hin Hins) as Hperm.
  apply insert_inner_inv in Hins as (qtc & c & c' & Hc & Hrec & ->).
  rewrite classify_fst in *.
  eapply located_set_child; [exact Hloc | apply classify_snd | |].
  - eapply rec_located; [exact Hrec | | apply classify_in; exact Hitem].
    destruct Hc as [[Hc _] | [_ Hi]].
    + eapply located_child; [exact Hloc | exact Hc | apply classify_snd].
    + unfold _init_leaf_node in Hi. injection Hi as _ ->. simpl. auto.
  - rewrite Hperm. constructor; [exact Hitem | apply located_within; exact Hloc].
Qed.

Lemma reinsert_located items : forall (qt : UFQuadTree) node q depth qt' node',
  reinsert rec qt node items q depth = Ok (qt', node') ->
  located q node -> Forall (fun it => in_quadrant it q = true) items -> located q node'.
Proof.
  induction items as [|it rest IH]; intros qt node q depth qt' node' Hre Hloc Hitems.
  - injection Hre as _ <-. exact Hloc.
  - apply reinsert_inv in Hre as (qt1 & node1 & Hins & Hre).
    inversion Hitems; subst. eapply IH; eauto.
Qed.

End LocatedStep.

Lemma _qt_insert_located fuel : forall (qt : UFQuadTree) node item q depth qt' node',
  _qt_insert fuel qt node item q depth = Ok (qt', node') ->
  located q node -> in_quadrant item q = true -> located q node'.
Proof.
  induction fuel as [|fuel IH]; intros qt node item q depth qt' node' Hins Hloc Hitem;
    [discriminate|].
  apply _qt_insert_cases in Hins as [[Hin Hi] | [Hl | Hs]].
  - eapply (insert_inner_located _ IH (_qt_insert_items fuel)); eauto.
  - destruct Hl as (items & size & size' & -> & _ & _ & _ & ->). simpl in *.
    split; [|exact I].
    apply Forall_app. split; [tauto | constructor; [exact Hitem | constructor]].
  - destruct Hs as (items & size & qt2 & node2 & -> & _ & _ & Hre & Hin2 & Hi).
    assert (Hloc2 : located q node2).
    { eapply (reinsert_located _ IH); [exact Hre | simpl; auto | simpl in Hloc; tauto]. }
    eapply (insert_inner_located _ IH (_qt_insert_items fuel)); eauto.
Qed.

Lemma insert_all_located fuel items : forall (qt qt' : UFQuadTree),
  insert_all fuel qt items = Ok qt' ->
  located (uf_region qt) (uf_root qt) ->
  Forall (fun it => in_quadrant it (uf_region qt) = true) items ->
  uf_region qt' = uf_region qt /\ located (uf_region qt') (uf_root qt').
Proof.
  induction items as [|it rest IH]; intros qt qt' Hall Hloc Hitems.
  - injection Hall as <-. auto.
  - simpl in Hall. apply bind_Ok in Hall as (qt1 & Hins & Hall).
    unfold qt_insert in Hins.
    apply bind_Ok in Hins as ([qt2 root] & Hins & Heq). injection Heq as <-.
    inversion Hitems; subst.
    assert (Hreg : uf_region qt2 = uf_region qt)
      by (apply _qt_insert_header in Hins as [Hr _]; exact Hr).
    apply _qt_insert_located in Hins; auto.
    apply IH in Hall as [Hr Hl]; simpl in *; rewrite ?Hreg; auto.
    split; [congruence | exact Hl].
Qed.

End Located.

(** ** The finaliser lays the tree out in depth-first order *)

Section FinaliseFacts.

Context {FLOAT : Type} {Hops : FloatOps FLOAT}.

Abbreviation Item := (Item FLOAT).
Abbreviation Quadrant := (Quadrant FLOAT).
Abbreviation TransNode := (TransNode FLOAT).
Abbreviation UFQuadTree := (UFQuadTree FLOAT).
Abbreviation QuadTree := (QuadTree FLOAT).
Abbreviation FinaliseState := (FinaliseState FLOAT).

Lemma counts_nonneg (node : TransNode) :
  0 <= count_inners node /\ 0 <= leaf_bytes node.
Proof.
  induction node as [c0 c1 c2 c3 H0 H1 H2 H3 | items size] using TransNode_ind'; simpl.
  - destruct c0, c1, c2, c3; simpl in *; lia.
  - unfold leaf_n, sizeof_Leaf, sizeof_Item. lia.
Qed.

Lemma opt_counts_nonneg (c : option TransNode) :
  0 <= opt_Z count_inners c /\ 0 <= opt_Z leaf_bytes c.
Proof. destruct c; simpl; [apply counts_nonneg | lia]. Qed.

Lemma agree_outside_refl P (qt : QuadTree) : agree_outside P qt qt.
Proof. unfold agree_outside. auto 10. Qed.

Lemma agree_outside_trans (P Q R : Z -> Prop) (a b c : QuadTree) :
  agree_outside P a b -> agree_outside Q b c ->
  (forall x, P x -> R x) -> (forall x, Q x -> R x) ->
  agree_outside R a c.
Proof.
  unfold agree_outside.
  intros (E1 & E2 & E3 & E4 & E5 & Hab) (F1 & F2 & F3 & F4 & F5 & Hbc) HP HQ.
  repeat split; try congruence.
  - destruct (Hab a0), (Hbc a0); auto; congruence.
  - destruct (Hab a0), (Hbc a0); auto; congruence.
Qed.

Lemma agree_store_word (qt : QuadTree) a v :
  agree_outside (fun x => x = a) qt (store_word qt a v).
Proof.
  unfold agree_outside. simpl. repeat split; auto.
  rewrite lookup_insert_ne; auto.
Qed.

Lemma agree_store_item (qt : QuadTree) a v :
  agree_outside (fun x => x = a) qt (store_item qt a v).
Proof.
  unfold agree_outside. simpl. repeat split; auto.
  rewrite lookup_insert_ne; auto.
Qed.

(** The copy loop writes the items, and nothing else, one after the other. *)
Lemma copy_items_spec items : forall (qt : QuadTree) leaf i,
  0 <= i ->
  agree_outside (fun a => leaf + sizeof_Leaf + sizeof_Item * i <= a
                          < leaf + sizeof_Leaf + sizeof_Item * (i + leaf_n items))
    qt (copy_items qt leaf i items) /\
  mem_words (copy_items qt leaf i items) = mem_words qt /\
  forall j it, nth_error items j = Some it ->
    mem_items (copy_items qt leaf i items)
      !! (leaf + sizeof_Leaf + sizeof_Item * (i + Z.of_nat j)) = Some it.
Proof.
  unfold sizeof_Leaf, sizeof_Item, leaf_n.
  induction items as [|x rest IH]; intros qt leaf i Hi; simpl copy_items.
  - split; [apply agree_outside_refl|]. split; [reflexivity|]. intros [|j] it; discriminate.
  - destruct (IH (store_item qt (leaf + sizeof_Leaf + sizeof_Item * i) x) leaf (i + 1))
      as (Hag & Hw & Hit); [lia|].
    unfold sizeof_Leaf, sizeof_Item in *.
    split; [|split].
    + eapply agree_outside_trans; [apply agree_store_item | exact Hag | |];
        cbv beta; simpl length; intros a; lia.
    + rewrite Hw. reflexivity.
    + intros [|j] it Hn; simpl in Hn.
      * injection Hn as ->. replace (i + Z.of_nat 0) with i by lia.
        destruct Hag as (_ & _ & _ & _ & _ & Hag).
        destruct (Hag (leaf + 8 + 24 * i)) as [_ ->]; [lia|].
        simpl. apply lookup_insert_eq.
      * specialize (Hit j it Hn).
        replace (i + Z.of_nat (S j)) with (i + 1 + Z.of_nat j) by lia. exact Hit.
Qed.


Lemma agree_outside_weaken (P Q : Z -> Prop) (a b : QuadTree) :
  agree_outside P a b -> (forall x, P x -> Q x) -> agree_outside Q a b.
Proof.
  unfold agree_outside. intros (E1 & E2 & E3 & E4 & E5 & Hab) HPQ.
  repeat split; auto; apply Hab; auto.
Qed.

(** A layout survives writes outside its own addresses. *)
Lemma laid_out_frame (P : Z -> Prop) (qt qt' : QuadTree) node : forall k L,
  laid_out qt k L node -> agree_outside P qt qt' ->
  (forall a, in_ranges k L (Some node) a -> ~ P a) ->
  laid_out qt' k L node.
Proof.
  unfold in_ranges, MEM_INNERS, sizeof_Inner.
  induction node as [c0 c1 c2 c3 H0 H1 H2 H3 | items size] using TransNode_ind';
    intros k L Hlaid Hag0 Hdis; pose proof Hag0 as (_ & _ & _ & _ & _ & Hag).
  - simpl in Hlaid, Hdis |- *. unfold MEM_INNERS, sizeof_Inner in *.
    destruct (opt_counts_nonneg c0), (opt_counts_nonneg c1), (opt_counts_nonneg c2),
      (opt_counts_nonneg c3).
    destruct Hlaid as (S0 & S1 & S2 & S3).
    assert (Hslot : forall a c k' L',
      opt_Prop (fun n => forall k L, laid_out qt k L n ->
        agree_outside P qt qt' ->
        (forall a, 32 * k <= a < 32 * (k + count_inners n) \/
                   L <= a < L + leaf_bytes n -> ~ P a) -> laid_out qt' k L n) c ->
      32 * k <= a < 32 * (k + 1) ->
      k + 1 <= k' -> k' + opt_Z count_inners c <=
        k + (1 + opt_Z count_inners c0 + opt_Z count_inners c1 + opt_Z count_inners c2
             + opt_Z count_inners c3) ->
      L <= L' -> L' + opt_Z leaf_bytes c <=
        L + (opt_Z leaf_bytes c0 + opt_Z leaf_bytes c1 + opt_Z leaf_bytes c2
             + opt_Z leaf_bytes c3) ->
      slot_laid (laid_out qt) qt a c k' L' -> slot_laid (laid_out qt') qt' a c k' L').
    { intros a c k' L' IHc Ha Hk1 Hk2 HL1 HL2 Hs.
      assert (Hw : mem_words qt' !! a = mem_words qt !! a)
        by (apply Hag, Hdis; lia).
      destruct c as [n|]; simpl in *; rewrite Hw; [|exact Hs].
      destruct Hs as [Hs Hn]. split; [exact Hs|].
      apply IHc; auto.
      intros x Hx. apply Hdis. lia. }
    repeat split; (eapply Hslot; [eassumption | lia ..| eassumption]).
  - simpl in Hlaid, Hdis |- *. unfold sizeof_Leaf, sizeof_Item, leaf_n in *.
    destruct Hlaid as [Hn Hit]. split.
    + destruct (Hag L) as [-> _]; [apply Hdis; lia | exact Hn].
    + intros j it Hj. pose proof (nth_error_Some items j) as Hlen.
      destruct (Hag (L + 8 + 24 * Z.of_nat j)) as [_ ->]; [|auto].
      apply Hdis. right. assert (j < length items)%nat by (apply Hlen; congruence). lia.
Qed.


Lemma finalise_leaf_ok (items : list Item) size : finalise_ok (TLeaf items size).
Proof.
  intros st Hcur Hk HL. simpl in *. unfold addr_of in Hcur. simpl in Hcur.
  unfold _qt_finalise_leaf. simpl. rewrite Hcur.
  set (L := fs_next_leaf st) in *.
  destruct (copy_items_spec items (store_word (fs_quadtree st) L (leaf_n items)) L 0)
    as (Hag & Hw & Hit); [lia|].
  split; [lia|]. split; [reflexivity|]. split; [|split].
  - eapply agree_outside_trans; [apply agree_store_word | exact Hag | |];
      unfold in_ranges; simpl; unfold sizeof_Leaf, sizeof_Item, leaf_n; intros a; lia.
  - rewrite Hw. simpl. apply lookup_insert_eq.
  - intros j it Hj. specialize (Hit j it Hj).
    replace (0 + Z.of_nat j) with (Z.of_nat j) in Hit by lia. exact Hit.
Qed.

Lemma finalise_child_ok (c : option TransNode) inner i (st : FinaliseState) :
  opt_Prop finalise_ok c ->
  0 <= fs_ninners st ->
  sizeof_Inner * (fs_ninners st + opt_Z count_inners c) <= fs_next_leaf st ->
  inner + 8 * i < sizeof_Inner * fs_ninners st ->
  let st' := finalise_child _qt_finalise inner i c st in
  fs_ninners st' = fs_ninners st + opt_Z count_inners c /\
  fs_next_leaf st' = fs_next_leaf st + opt_Z leaf_bytes c /\
  agree_outside (fun a => a = inner + 8 * i \/ in_ranges (fs_ninners st) (fs_next_leaf st) c a)
    (fs_quadtree st) (fs_quadtree st') /\
  slot_laid (laid_out (fs_quadtree st')) (fs_quadtree st') (inner + 8 * i) c
    (fs_ninners st) (fs_next_leaf st).
Proof.
  intros IHc Hk HL Ha. destruct c as [ch|]; simpl in *.
  - set (cur := if is_inner ch then MEM_INNERS + sizeof_Inner * fs_ninners st
                else fs_next_leaf st).
    set (st2 := fs_store_word _ _ _).
    destruct (IHc st2) as (Hn & Hl & Hag & Hlaid); try (simpl; auto; fail).
    simpl in Hn, Hl, Hag, Hlaid.
    split; [exact Hn|]. split; [exact Hl|]. split; [|split].
    + eapply agree_outside_trans; [apply agree_store_word | exact Hag | |];
        cbv beta; intros a; tauto.
    + destruct Hag as (_ & _ & _ & _ & _ & Hag).
      destruct (Hag (inner + 8 * i)) as [-> _].
      * unfold in_ranges, sizeof_Inner in *. simpl. destruct (counts_nonneg ch). lia.
      * simpl. apply lookup_insert_eq.
    + exact Hlaid.
  - split; [lia|]. split; [lia|]. split.
    + eapply agree_outside_weaken; [apply agree_store_word|]. cbv beta. intros a; tauto.
    + apply lookup_insert_eq.
Qed.


Lemma slot_laid_frame (P : Z -> Prop) (qt qt' : QuadTree) a c k L :
  slot_laid (laid_out qt) qt a c k L -> agree_outside P qt qt' ->
  ~ P a -> (forall x, in_ranges k L c x -> ~ P x) ->
  slot_laid (laid_out qt') qt' a c k L.
Proof.
  intros Hs Hag Ha Hdis. pose proof Hag as (_ & _ & _ & _ & _ & Hag').
  destruct (Hag' a Ha) as [Hw _].
  destruct c as [n|]; simpl in *; rewrite Hw; [|exact Hs].
  destruct Hs as [Hs Hn]. split; [exact Hs|]. eapply laid_out_frame; eauto.
Qed.

Lemma finalise_spec (node : TransNode) : finalise_ok node.
Proof.
  induction node as [c0 c1 c2 c3 H0 H1 H2 H3 | items size] using TransNode_ind';
    [|apply finalise_leaf_ok].
  intros st Hcur Hk HL. unfold addr_of in Hcur. simpl in Hcur.
  cbn [_qt_finalise]. cbv zeta. rewrite Hcur.
  set (k := fs_ninners st) in *. set (L := fs_next_leaf st) in *.
  set (a := MEM_INNERS + sizeof_Inner * k).
  set (st1 := mkFinaliseState _ _ _ _).
  destruct (opt_counts_nonneg c0) as [n0 b0], (opt_counts_nonneg c1) as [n1 b1],
    (opt_counts_nonneg c2) as [n2 b2], (opt_counts_nonneg c3) as [n3 b3].
  simpl in HL. unfold MEM_INNERS, sizeof_Inner in *.
  destruct (finalise_child_ok c0 a 0 st1 H0) as (N1 & L1 & A1 & S1);
    [simpl; unfold sizeof_Inner; subst a; lia ..|].
  set (st2 := finalise_child _ a 0 c0 st1) in *. simpl in N1, L1, A1, S1.
  destruct (finalise_child_ok c1 a 1 st2 H1) as (N2 & L2 & A2 & S2);
    [rewrite ?N1, ?L1; unfold sizeof_Inner; subst a; lia ..|].
  set (st3 := finalise_child _ a 1 c1 st2) in *. rewrite N1 in N2, A2, S2. rewrite L1 in L2, A2, S2.
  destruct (finalise_child_ok c2 a 2 st3 H2) as (N3 & L3 & A3 & S3);
    [rewrite ?N2, ?L2; unfold sizeof_Inner; subst a; lia ..|].
  set (st4 := finalise_child _ a 2 c2 st3) in *. rewrite N2 in N3, A3, S3. rewrite L2 in L3, A3, S3.
  destruct (finalise_child_ok c3 a 3 st4 H3) as (N4 & L4 & A4 & S4);
    [rewrite ?N3, ?L3; unfold sizeof_Inner; subst a; lia ..|].
  set (st5 := finalise_child _ a 3 c3 st4) in *. rewrite N3 in N4, A4, S4. rewrite L3 in L4, A4, S4.
  assert (Hdis : forall P : Z -> Prop, True) by auto. clear Hdis.
  split; [simpl; lia|]. split; [simpl; lia|].
  pose proof (agree_outside_trans _ _ _ _ _ _ A3 A4
                (fun x Hx => or_introl Hx) (fun x Hx => or_intror Hx)) as A35.
  pose proof (agree_outside_trans _ _ _ _ _ _ A2 A35
                (fun x Hx => or_introl Hx) (fun x Hx => or_intror Hx)) as A25.
  pose proof (agree_outside_trans _ _ _ _ _ _ A1 A25
                (fun x Hx => or_introl Hx) (fun x Hx => or_intror Hx)) as A15.
  split; [|cbn [laid_out]; cbv zeta; fold a; repeat split].
  - eapply agree_outside_weaken; [exact A15|]. cbv beta.
    unfold in_ranges, sizeof_Inner; subst a; simpl. intros x. lia.
  - eapply slot_laid_frame; [exact S1 | exact A25 | |]; cbv beta;
      unfold in_ranges, sizeof_Inner, MEM_INNERS in *; subst a; intros; lia.
  - eapply slot_laid_frame; [exact S2 | exact A35 | |]; cbv beta;
      unfold in_ranges, sizeof_Inner, MEM_INNERS in *; subst a; intros; lia.
  - eapply slot_laid_frame; [exact S3 | exact A4 | |]; cbv beta;
      unfold in_ranges, sizeof_Inner, MEM_INNERS in *; subst a; intros; lia.
  - exact S4.
Qed.

End FinaliseFacts.

(** ** The iterator visits the leaves of the traversal *)

Section IteratorFacts.

Context {FLOAT : Type} {Hops : FloatOps FLOAT}.

Abbreviation Item := (Item FLOAT).
Abbreviation Quadrant := (Quadrant FLOAT).
Abbreviation TransNode := (TransNode FLOAT).
Abbreviation UFQuadTree := (UFQuadTree FLOAT).
Abbreviation QuadTree := (QuadTree FLOAT).
Abbreviation Qt_Itr_Frame := (Qt_Itr_Frame FLOAT).
Abbreviation Qt_Iterator := (Qt_Iterator FLOAT).

Variable T : QuadTree.
Variable Q : Quadrant.
Variable nf : Z.

#[local] Arguments pending_from : simpl never.
#[local] Arguments visit : simpl never.
#[local] Arguments _gen_quadrants : simpl never.

(** *** One round of the loops of [_itr_next_recursive] *)

Lemma loop_empty f lp cur fz :
  itr_loop (S f) (mkItr [] nf lp cur Q T fz) = Ok (mkItr [] nf None cur Q T fz).
Proof. reflexivity. Qed.

Lemma loop_pop f (fr : Qt_Itr_Frame) rest lp cur fz :
  fr_quadrant fr = QUAD ->
  itr_loop (S f) (mkItr (fr :: rest) nf lp cur Q T fz) =
  itr_loop f (mkItr (advance rest) nf lp cur Q T fz).
Proof. intros Hq. simpl. rewrite Hq. simpl. destruct rest; reflexivity. Qed.

Lemma loop_skip_null f (fr : Qt_Itr_Frame) rest lp cur fz :
  fr_quadrant fr <> QUAD ->
  mem_words T !! (fr_node fr + 8 * fr_quadrant fr) = Some ROOT ->
  itr_loop (S f) (mkItr (fr :: rest) nf lp cur Q T fz) =
  itr_loop f (mkItr (next_quadrant fr :: rest) nf lp cur Q T fz).
Proof.
  intros Hq Hw. simpl. apply Z.eqb_neq in Hq. rewrite Hq.
  unfold read_word. simpl. rewrite Hw. reflexivity.
Qed.

Lemma loop_skip_far f (fr : Qt_Itr_Frame) rest lp cur fz off qi :
  fr_quadrant fr <> QUAD ->
  mem_words T !! (fr_node fr + 8 * fr_quadrant fr) = Some off -> off <> ROOT ->
  get4 (fr_quadrants fr) (fr_quadrant fr) = Some qi -> OVERLAP Q qi = false ->
  itr_loop (S f) (mkItr (fr :: rest) nf lp cur Q T fz) =
  itr_loop f (mkItr (next_quadrant fr :: rest) nf lp cur Q T fz).
Proof.
  intros Hq Hw Hoff Hg Hov. simpl. apply Z.eqb_neq in Hq, Hoff. rewrite Hq.
  unfold read_word. simpl. rewrite Hw. simpl. rewrite Hoff, Hg, Hov. reflexivity.
Qed.

Lemma loop_enter f (fr : Qt_Itr_Frame) rest lp cur fz off qi :
  fr_quadrant fr <> QUAD ->
  mem_words T !! (fr_node fr + 8 * fr_quadrant fr) = Some off -> off <> ROOT ->
  get4 (fr_quadrants fr) (fr_quadrant fr) = Some qi -> OVERLAP Q qi = true ->
  Z.of_nat (length rest) + 1 < nf ->
  itr_loop (S f) (mkItr (fr :: rest) nf lp cur Q T fz) =
  at_RECURSE (itr_loop f)
    (mkItr (mkFrame (MEM_INNERS + off) (_gen_quadrants qi) 0
              (fr_within_parent fr || CONTAINED qi Q) :: fr :: rest)
       nf lp cur Q T fz).
Proof.
  intros Hq Hw Hoff Hg Hov Hcap. simpl. apply Z.eqb_neq in Hq, Hoff. rewrite Hq.
  unfold read_word. simpl. rewrite Hw. simpl. rewrite Hoff, Hg, Hov.
  unfold enter_child, itr_so. simpl itr_stack. simpl itr_nframes.
  replace (Z.of_nat (length (fr :: rest)) - 1 + 1 <? nf) with true
    by (symmetry; apply Z.ltb_lt; simpl length; lia).
  reflexivity.
Qed.


(** *** What the buffer holds in slot [i] of an inner node *)

Lemma slot_info k L q c0 c1 c2 c3 i :
  at_node T k L (TInner c0 c1 c2 c3) -> 0 <= i < QUAD ->
  exists qi,
    get4 (_gen_quadrants q) i = Some qi /\
    pending_from Q q (TInner c0 c1 c2 c3) i =
      visit_slot (visit Q) Q qi (child (TInner c0 c1 c2 c3) i)
      ++ pending_from Q q (TInner c0 c1 c2 c3) (i + 1) /\
    match child (TInner c0 c1 c2 c3) i with
    | None => mem_words T !! (MEM_INNERS + sizeof_Inner * k + 8 * i) = Some ROOT
    | Some n =>
        exists k' L',
          mem_words T !! (MEM_INNERS + sizeof_Inner * k + 8 * i) = Some (addr_of n k' L') /\
          addr_of n k' L' <> ROOT /\ at_node T k' L' n /\
          1 + levels n <= levels (TInner c0 c1 c2 c3)
    end.
Proof.
  unfold at_node, QUAD. intros (Hlaid & Hk & Htot & HL) Hi.
  cbn [laid_out] in Hlaid. cbv zeta in Hlaid. destruct Hlaid as (S0 & S1 & S2 & S3).
  destruct (opt_counts_nonneg c0) as [n0 b0], (opt_counts_nonneg c1) as [n1 b1],
    (opt_counts_nonneg c2) as [n2 b2], (opt_counts_nonneg c3) as [n3 b3].
  cbn [count_inners] in Htot.
  assert (Hslot : forall a c k' L',
    slot_laid (laid_out T) T a c k' L' ->
    k + 1 <= k' -> k' + opt_Z count_inners c <= qt_ninners T -> L <= L' ->
    1 + opt_Z levels c <= levels (TInner c0 c1 c2 c3) ->
    match c with
    | None => mem_words T !! a = Some ROOT
    | Some n =>
        exists k' L',
          mem_words T !! a = Some (addr_of n k' L') /\
          addr_of n k' L' <> ROOT /\
          (laid_out T k' L' n /\ 0 <= k' /\ k' + count_inners n <= qt_ninners T /\
           sizeof_Inner * qt_ninners T <= L') /\
          1 + levels n <= levels (TInner c0 c1 c2 c3)
    end).
  { intros a [n|] k' L' Hs Hk1 Hk2 HL1 Hlv; simpl in *; [|exact Hs].
    destruct Hs as [Hw Hn]. exists k', L'. unfold MEM_INNERS in Hw.
    rewrite Z.sub_0_r in Hw. split; [exact Hw|]. split; [|split; [|exact Hlv]].
    - unfold addr_of, ROOT, MEM_INNERS, sizeof_Inner in *. destruct (is_inner n); lia.
    - repeat split; auto; lia. }
  assert (Hc : i = 0 \/ i = 1 \/ i = 2 \/ i = 3) by lia.
  destruct Hc as [-> | [-> | [-> | ->]]].
  - exists (q_nw (_gen_quadrants q)). split; [reflexivity|]. split; [reflexivity|].
    eapply Hslot; [exact S0 | simpl; lia ..].
  - exists (q_ne (_gen_quadrants q)). split; [reflexivity|]. split; [reflexivity|].
    eapply Hslot; [exact S1 | simpl; lia ..].
  - exists (q_sw (_gen_quadrants q)). split; [reflexivity|]. split; [reflexivity|].
    eapply Hslot; [exact S2 | simpl; lia ..].
  - exists (q_se (_gen_quadrants q)). split; [reflexivity|].
    split; [simpl; rewrite app_nil_r; reflexivity|].
    eapply Hslot; [exact S3 | simpl; lia ..].
Qed.


Lemma pending_from_0 q (node : TransNode) :
  is_inner node = true -> pending_from Q q node 0 = visit Q q node.
Proof. destruct node; [reflexivity | discriminate]. Qed.

Lemma pending_from_QUAD q (node : TransNode) : pending_from Q q node QUAD = [].
Proof. destruct node; reflexivity. Qed.

Lemma child_IH (P : TransNode -> Prop) c0 c1 c2 c3 i n :
  opt_Prop P c0 -> opt_Prop P c1 -> opt_Prop P c2 -> opt_Prop P c3 ->
  child (TInner c0 c1 c2 c3) i = Some n -> P n.
Proof.
  unfold child, get4. intros H0 H1 H2 H3.
  destruct (i =? NW); [simpl; intros ->; exact H0|].
  destruct (i =? NE); [simpl; intros ->; exact H1|].
  destruct (i =? SW); [simpl; intros ->; exact H2|].
  destruct (i =? SE); [simpl; intros ->; exact H3|]. discriminate.
Qed.

(** *** The loops, from an inner node at child [i] to the next leaf *)

Lemma itr_loop_sub (node : TransNode) : sub_ok T Q nf node.
Proof.
  induction node as [c0 c1 c2 c3 H0 H1 H2 H3 | items size] using TransNode_ind';
    [|intros k L q i w rest pend lp cur Hin; discriminate].
  intros k L q i w rest pend lp cur _ Hat Hi Hcap Hbelow.
  set (node := TInner c0 c1 c2 c3) in *.
  assert (Hm : exists m : nat, Z.of_nat m = QUAD - i) by (exists (Z.to_nat (QUAD - i)); lia).
  destruct Hm as [m Hm]. revert i Hi Hm. induction m as [|m IHm]; intros i Hi Hm.
  { (* i = QUAD *)
    assert (i = QUAD) as -> by lia. exists 1%nat. left. split; [reflexivity|].
    intros f. apply loop_pop. reflexivity. }
  assert (Hi' : 0 <= i < QUAD) by lia.
  destruct (IHm (i + 1)) as [c1' R1]; [unfold QUAD in *; lia ..|].
  destruct (slot_info k L q c0 c1 c2 c3 i Hat Hi') as (qi & Hg & Hpend & Hchild).
  fold node in Hpend, Hchild.
  assert (Hne : fr_quadrant (inner_frame k q i w) <> QUAD) by (simpl; lia).
  destruct (child node i) as [n|] eqn:Hc.
  2: { (* empty slot *)
    simpl in Hpend. exists (S c1'). rewrite Hpend.
    destruct R1 as [[Hnil R1] | (items & P & itr' & Hcons & Hleaf & R1)].
    - left. split; [exact Hnil|]. intros f. simpl Nat.add.
      rewrite loop_skip_null; [apply R1 | exact Hne | exact Hchild].
    - right. exists items, P, itr'. split; [exact Hcons|]. split; [exact Hleaf|].
      intros f. simpl Nat.add.
      rewrite loop_skip_null; [apply R1 | exact Hne | exact Hchild]. }
  destruct Hchild as (k' & L' & Hw & Hoff & Hat' & Hlv).
  simpl visit_slot in Hpend.
  destruct (OVERLAP Q qi) eqn:Hov.
  2: { (* the quadrant of the child does not overlap the region *)
    simpl in Hpend. exists (S c1'). rewrite Hpend.
    destruct R1 as [[Hnil R1] | (items & P & itr' & Hcons & Hleaf & R1)].
    - left. split; [exact Hnil|]. intros f. simpl Nat.add.
      rewrite (loop_skip_far _ _ _ _ _ _ _ qi Hne Hw Hoff Hg Hov). apply R1.
    - right. exists items, P, itr'. split; [exact Hcons|]. split; [exact Hleaf|].
      intros f. simpl Nat.add.
      rewrite (loop_skip_far _ _ _ _ _ _ _ qi Hne Hw Hoff Hg Hov). apply R1. }
  (* enter the child *)
  pose proof (levels_pos n) as Hpos.
  assert (Hcap' : Z.of_nat (length rest) + 1 < nf) by lia.
  assert (Hb' : below_ok T Q nf (inner_frame k q i w :: rest)
                  (pending_from Q q node (i + 1) ++ pend))
    by (apply (below_cons T Q nf k L q i w node); auto).
  pose proof Hat' as (Hlaid' & Hk' & Htot' & HL').
  destruct n as [d0 d1 d2 d3 | items size].
  - (* an inner node *)
    pose proof (child_IH (sub_ok T Q nf) c0 c1 c2 c3 i _ H0 H1 H2 H3 Hc) as IHn.
    destruct (IHn k' L' qi 0 (w || CONTAINED qi Q) (inner_frame k q i w :: rest)
                (pending_from Q q node (i + 1) ++ pend) lp cur) as [c2' R2];
      [reflexivity | exact Hat' | unfold QUAD; lia | simpl length; lia | exact Hb' |].
    rewrite pending_from_0 in R2 by reflexivity.
    assert (Henter : forall f,
      itr_loop (S f) (mkItr (inner_frame k q i w :: rest) nf lp cur Q T false) =
      itr_loop f (mkItr (inner_frame k' qi 0 (w || CONTAINED qi Q)
                           :: inner_frame k q i w :: rest) nf lp cur Q T false)).
    { intros f. rewrite (loop_enter _ _ _ _ _ _ _ qi Hne Hw Hoff Hg Hov Hcap').
      unfold at_RECURSE. simpl itr_stack. cbn [fr_node itr_quadtree].
      unfold IS_LEAF, MEM_LEAFS, addr_of, MEM_INNERS, sizeof_Inner in *. simpl is_inner.
      simpl in Htot'. destruct (opt_counts_nonneg d0), (opt_counts_nonneg d1),
        (opt_counts_nonneg d2), (opt_counts_nonneg d3).
      replace (0 + qt_ninners T * 32 <=? 0 + (0 + 32 * k')) with false
        by (symmetry; apply Z.leb_gt; lia).
      reflexivity. }
    destruct R2 as [[Hnil R2] | (items & P & itr' & Hcons & Hleaf & R2)].
    + (* nothing below the child: go on with the next slot *)
      exists (S (c2' + c1')). rewrite Hpend, Hnil. simpl app.
      destruct R1 as [[Hnil1 R1] | (items & P & itr' & Hcons & Hleaf & R1)].
      * left. split; [exact Hnil1|]. intros f. simpl Nat.add.
        rewrite Henter, <- Nat.add_assoc, R2. apply R1.
      * right. exists items, P, itr'. split; [exact Hcons|]. split; [exact Hleaf|].
        intros f. simpl Nat.add. rewrite Henter, <- Nat.add_assoc, R2. apply R1.
    + exists (S c2'). right. exists items, (P ++ pending_from Q q node (i + 1)), itr'.
      rewrite Hpend, Hcons. split; [reflexivity|]. split.
      * rewrite <- app_assoc. exact Hleaf.
      * intros f. simpl Nat.add. rewrite Henter. apply R2.
  - (* a leaf *)
    exists 1%nat. right.
    exists items, (pending_from Q q node (i + 1)),
      (mkItr (mkFrame (MEM_INNERS + L') (_gen_quadrants qi) 0 (w || CONTAINED qi Q)
                :: inner_frame k q i w :: rest) nf (Some (MEM_INNERS + L')) 0 Q T false).
    split; [rewrite Hpend; reflexivity|]. split.
    + exists (MEM_INNERS + L'), (mkFrame (MEM_INNERS + L') (_gen_quadrants qi) 0
                                   (w || CONTAINED qi Q)), (inner_frame k q i w :: rest).
      split; [reflexivity|]. split; [reflexivity|]. split; [exact Hlaid'|].
      split; [discriminate | exact Hb'].
    + intros f. simpl Nat.add.
      rewrite (loop_enter _ _ _ _ _ _ _ qi Hne Hw Hoff Hg Hov Hcap').
      unfold at_RECURSE. simpl itr_stack. cbn [fr_node itr_quadtree].
      unfold IS_LEAF, MEM_LEAFS, addr_of, MEM_INNERS, sizeof_Inner in *. simpl is_inner.
      cbv iota.
      replace (0 + qt_ninners T * 32 <=? 0 + L') with true
        by (symmetry; apply Z.leb_le; lia).
      reflexivity.
Qed.


(** *** Backtracking through the stack *)

Lemma itr_loop_unwind rest pend :
  below_ok T Q nf rest pend ->
  forall lp cur, exists c : nat,
    (pend = [] /\
     forall f, itr_loop (c + f) (mkItr (advance rest) nf lp cur Q T false) =
               Ok (mkItr [] nf None cur Q T false)) \/
    (exists items P itr',
       pend = items :: P /\ at_leaf T Q nf itr' items 0 P /\
       forall f, itr_loop (c + f) (mkItr (advance rest) nf lp cur Q T false) = Ok itr').
Proof.
  induction 1 as [|k L q i w node rest pend Hin Hat Hi Hcap Hbelow IH]; intros lp cur.
  - exists 1%nat. left. split; [reflexivity|]. intros f. apply loop_empty.
  - destruct (itr_loop_sub node k L q (i + 1) w rest pend lp cur Hin Hat) as [c1 R1];
      [unfold QUAD in *; lia | exact Hcap | exact Hbelow |].
    change (advance (inner_frame k q i w :: rest)) with (inner_frame k q (i + 1) w :: rest).
    destruct R1 as [[Hnil R1] | (items & P & itr' & Hcons & Hleaf & R1)].
    + destruct (IH lp cur) as [c2 R2]. exists (c1 + c2)%nat. rewrite Hnil. simpl app.
      destruct R2 as [[Hnil2 R2] | (items & P & itr' & Hcons & Hleaf & R2)].
      * left. split; [exact Hnil2|]. intros f. rewrite <- Nat.add_assoc, R1. apply R2.
      * right. exists items, P, itr'. split; [exact Hcons|]. split; [exact Hleaf|].
        intros f. rewrite <- Nat.add_assoc, R1. apply R2.
    + exists c1. right. exists items, (P ++ pend), itr'. rewrite Hcons.
      split; [reflexivity|]. split; [exact Hleaf | exact R1].
Qed.

(** The same for [_itr_next_recursive], called after leaving a leaf. *)
Lemma itr_next_recursive_unwind rest pend :
  below_ok T Q nf rest pend -> rest <> [] ->
  forall lp cur, exists c : nat,
    (pend = [] /\
     forall f, _itr_next_recursive (c + f) (mkItr (advance rest) nf lp cur Q T false) =
               Ok (mkItr [] nf None cur Q T false)) \/
    (exists items P itr',
       pend = items :: P /\ at_leaf T Q nf itr' items 0 P /\
       forall f, _itr_next_recursive (c + f) (mkItr (advance rest) nf lp cur Q T false)
                 = Ok itr').
Proof.
  intros Hbelow Hne lp cur.
  destruct (itr_loop_unwind rest pend Hbelow lp cur) as [c R]. exists c.
  assert (Hrec : forall f,
    _itr_next_recursive f (mkItr (advance rest) nf lp cur Q T false) =
    itr_loop f (mkItr (advance rest) nf lp cur Q T false)).
  { intros f. inversion Hbelow as [|k L q i w node rest' pend' Hin Hat Hi Hcap Hb]; subst;
      [congruence|].
    unfold _itr_next_recursive, at_RECURSE.
    cbn [advance next_quadrant inner_frame fr_node itr_stack itr_quadtree].
    destruct Hat as (_ & Hk & Htot & _). destruct (counts_nonneg node) as [Hn _].
    destruct node; [|discriminate]. simpl in Htot.
    destruct (opt_counts_nonneg nw), (opt_counts_nonneg ne0), (opt_counts_nonneg sw0),
      (opt_counts_nonneg se).
    unfold IS_LEAF, MEM_LEAFS, MEM_INNERS, sizeof_Inner.
    replace (0 + qt_ninners T * 32 <=? 0 + 32 * k) with false
      by (symmetry; apply Z.leb_gt; lia).
    reflexivity. }
  destruct R as [[Hnil R] | (items & P & itr' & Hcons & Hleaf & R)].
  - left. split; [exact Hnil|]. intros f. rewrite Hrec. apply R.
  - right. exists items, P, itr'. split; [exact Hcons|]. split; [exact Hleaf|].
    intros f. rewrite Hrec. apply R.
Qed.


(** *** One round of [qt_itr_next] *)

Lemma next_done f cur :
  qt_itr_next (S f) (mkItr [] nf None cur Q T false) =
  Ok (None, mkItr [] nf None cur Q T true).
Proof. reflexivity. Qed.

Lemma next_yield f (fr : Qt_Itr_Frame) rest L j n x :
  fr_node fr = L -> mem_words T !! L = Some n -> wrap64 (n - 1) >= j ->
  mem_items T !! (L + sizeof_Leaf + sizeof_Item * j) = Some x -> in_quadrant x Q = true ->
  qt_itr_next (S f) (mkItr (fr :: rest) nf (Some L) j Q T false) =
  Ok (Some x, mkItr (fr :: rest) nf (Some L) (wrap64 (j + 1)) Q T false).
Proof.
  intros Hfr Hn Hge Hx Hin. simpl. unfold read_word, read_item. simpl.
  rewrite Hfr, Hn. simpl. 
  replace (wrap64 (n - 1) >=? j) with true by (symmetry; apply Z.geb_le; lia).
  rewrite Hx. simpl. rewrite Hin. reflexivity.
Qed.

Lemma next_skip f (fr : Qt_Itr_Frame) rest L j n x :
  fr_node fr = L -> mem_words T !! L = Some n -> wrap64 (n - 1) >= j ->
  mem_items T !! (L + sizeof_Leaf + sizeof_Item * j) = Some x -> in_quadrant x Q = false ->
  qt_itr_next (S f) (mkItr (fr :: rest) nf (Some L) j Q T false) =
  qt_itr_next f (mkItr (fr :: rest) nf (Some L) (wrap64 (j + 1)) Q T false).
Proof.
  intros Hfr Hn Hge Hx Hin. simpl. unfold read_word, read_item. simpl.
  rewrite Hfr, Hn. simpl.
  replace (wrap64 (n - 1) >=? j) with true by (symmetry; apply Z.geb_le; lia).
  rewrite Hx. simpl. rewrite Hin. reflexivity.
Qed.

Lemma next_leave f (fr : Qt_Itr_Frame) rest L j n :
  fr_node fr = L -> mem_words T !! L = Some n -> wrap64 (n - 1) < j -> rest <> [] ->
  qt_itr_next (S f) (mkItr (fr :: rest) nf (Some L) j Q T false) =
  bind (_itr_next_recursive f (mkItr (advance rest) nf (Some L) j Q T false))
       (qt_itr_next f).
Proof.
  intros Hfr Hn Hlt Hne. simpl. unfold read_word. simpl. rewrite Hfr, Hn. simpl.
  replace (wrap64 (n - 1) >=? j) with false
    by (symmetry; rewrite Z.geb_leb; apply Z.leb_gt; lia).
  destruct rest; [congruence | reflexivity].
Qed.

Lemma skipn_nth_error {A} (l : list A) : forall n x,
  nth_error l n = Some x -> skipn n l = x :: skipn (S n) l.
Proof.
  induction l as [|a l IH]; intros [|n] x Hx; try discriminate.
  - injection Hx as ->. reflexivity.
  - simpl in Hx. apply IH in Hx. exact Hx.
Qed.

Lemma nth_error_lt {A} (l : list A) (n : nat) :
  (n < length l)%nat -> exists x, nth_error l n = Some x.
Proof.
  intros Hlt. destruct (nth_error l n) eqn:E; [eauto|].
  apply nth_error_None in E. lia.
Qed.


Lemma count_ok_wrap (items : list Item) j :
  count_ok items -> 0 <= j <= leaf_n items ->
  wrap64 (leaf_n items - 1) = leaf_n items - 1 /\ (j < leaf_n items -> wrap64 (j + 1) = j + 1).
Proof.
  unfold count_ok, wrap64. intros Hok Hj. split; [|intros Hlt]; apply Z.mod_small; lia.
Qed.

Lemma output_nil_leaf (items : list Item) pend :
  output Q items (leaf_n items) pend = matching Q pend.
Proof.
  unfold output, from_item, leaf_n. rewrite Nat2Z.id, skipn_all. reflexivity.
Qed.

Lemma output_0 (items : list Item) pend :
  output Q items 0 pend = matching Q (items :: pend).
Proof. reflexivity. Qed.

(** Inside a leaf: from what happens at its end to what happens at
    item [j]. *)
Lemma qt_itr_next_scan (fr : Qt_Itr_Frame) rest L items pend :
  fr_node fr = L -> laid_out T 0 L (TLeaf items 0) -> rest <> [] ->
  below_ok T Q nf rest pend -> count_ok items -> Forall count_ok pend ->
  next_ok T Q nf items (leaf_n items) pend
    (mkItr (fr :: rest) nf (Some L) (leaf_n items) Q T false) ->
  forall j, 0 <= j <= leaf_n items ->
    next_ok T Q nf items j pend (mkItr (fr :: rest) nf (Some L) j Q T false).
Proof.
  intros Hfr [Hn Hit] Hne Hbelow Hok Hpend Hend j Hj.
  assert (Hm : exists m : nat, Z.of_nat m = leaf_n items - j)
    by (exists (Z.to_nat (leaf_n items - j)); lia).
  destruct Hm as [m Hm]. revert j Hj Hm.
  induction m as [|m IHm]; intros j Hj Hm.
  { assert (j = leaf_n items) as -> by lia. exact Hend. }
  destruct (count_ok_wrap items j Hok Hj) as [Hw1 Hw2].
  specialize (Hw2 ltac:(lia)).
  destruct (nth_error_lt items (Z.to_nat j)) as [x Hx]; [unfold leaf_n in *; lia|].
  pose proof (Hit _ _ Hx) as Hmem. rewrite Z2Nat.id in Hmem by lia.
  assert (Hfrom : from_item j items = x :: from_item (j + 1) items).
  { unfold from_item. rewrite Z2Nat.inj_add by lia.
    rewrite Nat.add_1_r. apply skipn_nth_error. exact Hx. }
  assert (Hge : wrap64 (leaf_n items - 1) >= j) by lia.
  destruct (in_quadrant x Q) eqn:Hin.
  - exists 1%nat. right.
    exists x, (mkItr (fr :: rest) nf (Some L) (j + 1) Q T false), items, (j + 1), pend.
    split; [unfold output; rewrite Hfrom; simpl; rewrite Hin; reflexivity|].
    split; [exists L, fr, rest; repeat split; auto|].
    split; [lia|]. split; [exact Hok|]. split; [exact Hpend|].
    intros f. simpl Nat.add.
    rewrite (next_yield f fr rest L j _ x Hfr Hn Hge Hmem Hin), Hw2. reflexivity.
  - destruct (IHm (j + 1)) as [c R]; [lia | lia |].
    assert (Hout : output Q items j pend = output Q items (j + 1) pend)
      by (unfold output; rewrite Hfrom; simpl; rewrite Hin; reflexivity).
    assert (Hstep : forall f,
      qt_itr_next (S f) (mkItr (fr :: rest) nf (Some L) j Q T false) =
      qt_itr_next f (mkItr (fr :: rest) nf (Some L) (j + 1) Q T false)).
    { intros f. rewrite (next_skip f fr rest L j _ x Hfr Hn Hge Hmem Hin), Hw2.
      reflexivity. }
    exists (S c). rewrite Hout.
    destruct R as [[Hnil R] | (y & itr' & items' & j' & pend' & Ho & Hl & Hj' & Hok' & Hp' & R)].
    + left. split; [exact Hnil|]. intros f. simpl Nat.add. rewrite Hstep. apply R.
    + right. exists y, itr', items', j', pend'.
      split; [exact Ho|]. split; [exact Hl|]. split; [exact Hj'|].
      split; [exact Hok'|]. split; [exact Hp'|].
      intros f. simpl Nat.add. rewrite Hstep. apply R.
Qed.

Lemma qt_itr_next_ok pend : forall items j itr,
  at_leaf T Q nf itr items j pend -> 0 <= j <= leaf_n items ->
  count_ok items -> Forall count_ok pend -> next_ok T Q nf items j pend itr.
Proof.
  induction pend as [|items2 P IHP]; intros items j itr Hleaf Hj Hok Hpend;
    destruct Hleaf as (L & fr & rest & -> & Hfr & Hlaid & Hne & Hbelow);
    apply qt_itr_next_scan; auto;
    destruct (count_ok_wrap items (leaf_n items) Hok) as [Hw1 _]; try lia;
    destruct (itr_next_recursive_unwind rest _ Hbelow Hne (Some L) (leaf_n items))
      as [c R];
    (assert (Hleave : forall f,
       qt_itr_next (S f) (mkItr (fr :: rest) nf (Some L) (leaf_n items) Q T false) =
       bind (_itr_next_recursive f (mkItr (advance rest) nf (Some L) (leaf_n items) Q T false))
            (qt_itr_next f))
      by (intros f; destruct Hlaid as [Hn _]; eapply next_leave; eauto; lia)).
  - (* no leaf is left *)
    destruct R as [[_ R] | (i2 & P' & itr' & Hcons & _)]; [|discriminate].
    exists (S (S c)). left. split; [rewrite output_nil_leaf; reflexivity|].
    intros f. exists (mkItr [] nf None (leaf_n items) Q T true).
    simpl Nat.add. rewrite Hleave.
    replace (S (c + f)) with (c + S f)%nat at 1 by lia. rewrite R. simpl.
    reflexivity.
  - (* the next leaf *)
    destruct R as [[Hnil _] | (i2 & P' & itr' & Hcons & Hleaf2 & R)]; [discriminate|].
    injection Hcons as <- <-. apply Forall_cons_iff in Hpend as [Hok2 HP].
    destruct (IHP items2 0 itr' Hleaf2) as [c2 R2]; [unfold count_ok in Hok2; lia | auto ..|].
    exists (S (c + c2)). rewrite output_nil_leaf, <- output_0.
    assert (Hgo : forall f,
      qt_itr_next (S (c + c2 + f)) (mkItr (fr :: rest) nf (Some L) (leaf_n items) Q T false)
      = qt_itr_next (c2 + (c + f)) itr').
    { intros f. rewrite Hleave. rewrite <- Nat.add_assoc, R. simpl.
      f_equal. lia. }
    destruct R2 as [[Hnil R2] | (y & itr2 & items' & j' & pend' & Ho & Hl & Hj' & Hok' & Hp' & R2)].
    + left. split; [exact Hnil|]. intros f. simpl Nat.add. rewrite Hgo. apply R2.
    + right. exists y, itr2, items', j', pend'.
      split; [exact Ho|]. split; [exact Hl|]. split; [exact Hj'|].
      split; [exact Hok'|]. split; [exact Hp'|].
      intros f. simpl Nat.add. rewrite Hgo. apply R2.
Qed.


(** *** Calling [qt_itr_next] until it returns [NULL] *)

Lemma drain_ok out : forall items j pend itr,
  output Q items j pend = out ->
  at_leaf T Q nf itr items j pend -> 0 <= j <= leaf_n items ->
  count_ok items -> Forall count_ok pend ->
  exists c : nat, forall f, drain (c + f) itr = Ok out.
Proof.
  induction out as [|x out IH]; intros items j pend itr Hout Hleaf Hj Hok Hpend;
    destruct (qt_itr_next_ok pend items j itr Hleaf Hj Hok Hpend) as [c R];
    rewrite Hout in R;
    destruct R as [[Hnil R] | (y & itr' & items' & j' & pend' & Ho & Hl & Hj' & Hok' & Hp' & R)];
    try discriminate.
  - exists (S c). intros f. simpl. destruct (R f) as [itr' ->]. reflexivity.
  - injection Ho as <- Ho.
    destruct (IH items' j' pend' itr' (eq_sym Ho) Hl Hj' Hok' Hp') as [c2 R2].
    exists (S (c + c2)). intros f. simpl.
    rewrite <- Nat.add_assoc, R. simpl.
    replace (c + (c2 + f))%nat with (c2 + (c + f))%nat by lia. rewrite R2. reflexivity.
Qed.

Lemma drain_exhausted f cur :
  drain (S (S f)) (mkItr [] nf None cur Q T false) = Ok [].
Proof. reflexivity. Qed.

(** *** Opening the iterator *)

Lemma qt_query_itr_ok (root : TransNode) :
  is_inner root = true -> at_node T 0 (sizeof_Inner * qt_ninners T) root ->
  levels root <= nf -> qt_maxdepth T = nf ->
  exists c : nat,
    (visit Q (qt_region T) root = [] /\
     forall f, qt_query_itr (c + f) T Q = Ok (mkItr [] nf None 0 Q T false)) \/
    (exists items P itr',
       visit Q (qt_region T) root = items :: P /\ at_leaf T Q nf itr' items 0 P /\
       forall f, qt_query_itr (c + f) T Q = Ok itr').
Proof.
  intros Hin Hat Hlv Hnf. pose proof (levels_pos root) as Hpos.
  assert (Hopen : forall f,
    qt_query_itr f T Q =
    itr_loop f (mkItr [inner_frame 0 (qt_region T) 0 false] nf None 0 Q T false)).
  { intros f. unfold qt_query_itr. simpl itr_nframes. rewrite Hnf.
    replace (0 <? nf) with true by (symmetry; apply Z.ltb_lt; lia).
    unfold _itr_next_recursive, at_RECURSE, set_stack. simpl.
    destruct Hat as (_ & _ & Htot & _). destruct root; [|discriminate]. simpl in Htot.
    destruct (opt_counts_nonneg nw), (opt_counts_nonneg ne0), (opt_counts_nonneg sw0),
      (opt_counts_nonneg se).
    unfold IS_LEAF, MEM_LEAFS, MEM_ROOT, MEM_INNERS, sizeof_Inner.
    replace (0 + qt_ninners T * 32 <=? 0) with false by (symmetry; apply Z.leb_gt; lia).
    reflexivity. }
  destruct (itr_loop_sub root 0 (sizeof_Inner * qt_ninners T) (qt_region T) 0 false [] []
              None 0 Hin Hat) as [c R];
    [unfold QUAD; lia | simpl; lia | constructor |].
  rewrite pending_from_0 in R by exact Hin.
  destruct R as [[Hnil R] | (items & P & itr' & Hcons & Hleaf & R)].
  - exists (c + 1)%nat. left. split; [exact Hnil|]. intros f.
    rewrite Hopen, <- Nat.add_assoc, R. apply loop_empty.
  - exists c. right. exists items, P, itr'. split; [exact Hcons|].
    rewrite app_nil_r in Hleaf. split; [exact Hleaf|].
    intros f. rewrite Hopen. apply R.
Qed.

(** A complete query returns the matching items of the visited leaves. *)
Lemma query_all_ok (root : TransNode) :
  is_inner root = true -> at_node T 0 (sizeof_Inner * qt_ninners T) root ->
  levels root <= nf -> qt_maxdepth T = nf ->
  Forall count_ok (visit Q (qt_region T) root) ->
  exists fuel, forall f,
    query_all (fuel + f) T Q = Ok (matching Q (visit Q (qt_region T) root)).
Proof.
  intros Hin Hat Hlv Hnf Hcount.
  destruct (qt_query_itr_ok root Hin Hat Hlv Hnf) as [c R].
  destruct R as [[Hnil R] | (items & P & itr' & Hcons & Hleaf & R)].
  - exists (c + 2)%nat. intros f. unfold query_all.
    rewrite <- Nat.add_assoc, R, Hnil. simpl bind.
    match goal with |- drain ?n _ = _ => replace n with (S (S (c + f))) by lia end.
    apply drain_exhausted.
  - rewrite Hcons in *. apply Forall_cons_iff in Hcount as [Hok HP].
    destruct (drain_ok _ items 0 P itr' eq_refl Hleaf) as [c2 R2];
      [unfold count_ok in Hok; lia | exact Hok | exact HP |].
    exists (c + c2)%nat. intros f. unfold query_all.
    rewrite <- Nat.add_assoc, R. simpl bind.
    replace (c + (c2 + f))%nat with (c2 + (c + f))%nat by lia. rewrite R2.
    reflexivity.
Qed.

End IteratorFacts.

(** ** From the builder to the answers of a query *)

Section QueryFacts.

Context {FLOAT : Type} {Hops : FloatOps FLOAT}.

Abbreviation Item := (Item FLOAT).
Abbreviation Quadrant := (Quadrant FLOAT).
Abbreviation TransNode := (TransNode FLOAT).
Abbreviation UFQuadTree := (UFQuadTree FLOAT).
Abbreviation QuadTree := (QuadTree FLOAT).

(** The finalised tree of a builder whose counters are right. *)
Lemma qt_finalise_ok (qt_ : UFQuadTree) :
  counters_ok qt_ ->
  qt_region (qt_finalise qt_) = uf_region qt_ /\
  qt_maxdepth (qt_finalise qt_) = uf_maxdepth qt_ /\
  qt_ninners (qt_finalise qt_) = uf_ninners qt_ /\
  at_node (qt_finalise qt_) 0 (sizeof_Inner * qt_ninners (qt_finalise qt_)) (uf_root qt_).
Proof.
  intros (Hin & Hni & Hnl & Hlv). unfold qt_finalise.
  set (st := mkFinaliseState _ _ _ _).
  destruct (finalise_spec (uf_root qt_) st) as (Hn & Hl & Hag & Hlaid).
  - unfold addr_of. rewrite Hin. reflexivity.
  - simpl. lia.
  - simpl. unfold MEM_LEAFS, MEM_INNERS, sizeof_Inner. simpl. lia.
  - destruct Hag as (Hr & _ & Hm & Hi & _). simpl in Hr, Hm, Hi, Hlaid.
    rewrite Hr, Hm, Hi. repeat split; auto; try lia.
    unfold MEM_LEAFS, MEM_INNERS, sizeof_Inner in *. simpl in Hlaid.
    replace (32 * uf_ninners qt_) with (0 + uf_ninners qt_ * 32) by lia. exact Hlaid.
Qed.

(** The remaining header fields of the finalised tree. *)
Lemma qt_finalise_header (qt_ : UFQuadTree) :
  counters_ok qt_ ->
  qt_size (qt_finalise qt_) = uf_size qt_ /\
  qt_nleafs (qt_finalise qt_) = uf_nleafs qt_.
Proof.
  intros (Hin & Hni & Hnl & Hlv). unfold qt_finalise.
  set (st := mkFinaliseState _ _ _ _).
  destruct (finalise_spec (uf_root qt_) st) as (Hn & Hl & Hag & Hlaid).
  - unfold addr_of. rewrite Hin. reflexivity.
  - simpl. lia.
  - simpl. unfold MEM_LEAFS, MEM_INNERS, sizeof_Inner. simpl. lia.
  - destruct Hag as (_ & Hs & _ & _ & Hf & _). simpl in Hs, Hf. auto.
Qed.

(** The leaves that a query visits are leaves of the tree. *)
Lemma visit_all_nodes pI pL (Q : Quadrant) (node : TransNode) : forall q,
  all_nodes pI pL node = true ->
  Forall (fun items => exists size, pL items size = true) (visit Q q node).
Proof.
  induction node as [c0 c1 c2 c3 H0 H1 H2 H3 | items size] using TransNode_ind';
    intros q Hall; simpl in *.
  - rewrite !andb_true_iff in Hall. destruct Hall as ((((_ & A0) & A1) & A2) & A3).
    assert (Hslot : forall qi c,
      opt_Prop (fun n => forall q, all_nodes pI pL n = true ->
        Forall (fun items => exists size, pL items size = true) (visit Q q n)) c ->
      opt_bool (all_nodes pI pL) c = true ->
      Forall (fun items => exists size, pL items size = true)
        (visit_slot (visit Q) Q qi c)).
    { intros qi [n|] IH Hc; simpl in *; [|constructor].
      destruct (OVERLAP Q qi); [apply IH; exact Hc | constructor]. }
    repeat (apply Forall_app; split); apply Hslot; assumption.
  - constructor; [eauto | constructor].
Qed.

Lemma leaves_ok_count (Q q : Quadrant) (node : TransNode) :
  leaves_ok node = true -> Forall count_ok (visit Q q node).
Proof.
  intros Hok. apply (visit_all_nodes _ _ Q node q) in Hok.
  eapply Forall_impl; [exact Hok|]. intros items [size Hs].
  unfold leaf_ok, bucket_ok, count_ok in *. rewrite !andb_true_iff in Hs.
  destruct Hs as (H1 & H2 & H3). apply Z.leb_le in H1, H2. apply Z.ltb_lt in H3. lia.
Qed.


(** *** What a successful build establishes *)

Lemma insert_all_header fuel items : forall (qt qt' : UFQuadTree),
  insert_all fuel qt items = Ok qt' ->
  uf_region qt' = uf_region qt /\ uf_size qt' = uf_size qt + Z.of_nat (length items).
Proof.
  induction items as [|it rest IH]; intros qt qt' Hall.
  - injection Hall as <-. simpl. split; [reflexivity | lia].
  - simpl in Hall. apply bind_Ok in Hall as (qt1 & Hins & Hall).
    unfold qt_insert in Hins.
    apply bind_Ok in Hins as ([qt2 root] & Hins & Heq). injection Heq as <-.
    apply _qt_insert_header in Hins as [Hr Hs]. apply IH in Hall as [Hr' Hs'].
    simpl in *. rewrite Hr', Hs', Hr, Hs. split; [reflexivity | lia].
Qed.

Lemma insert_all_counters fuel items : forall (qt qt' : UFQuadTree),
  insert_all fuel qt items = Ok qt' -> counters_ok qt ->
  counters_ok qt' /\ (items <> [] -> levels (uf_root qt') <= uf_maxdepth qt').
Proof.
  induction items as [|it rest IH]; intros qt qt' Hall Hok.
  - injection Hall as <-. split; [exact Hok | congruence].
  - simpl in Hall. apply bind_Ok in Hall as (qt1 & Hins & Hall).
    destruct (qt_insert_counters _ _ _ _ Hok Hins) as [Hok1 Hlv1].
    destruct (IH _ _ Hall Hok1) as [Hok' Hlv']. split; [exact Hok'|]. intros _.
    destruct rest as [|it2 rest]; [|apply Hlv'; discriminate].
    injection Hall as <-. exact Hlv1.
Qed.

Lemma counters_ok_create (region : Quadrant) maxfill :
  counters_ok (qt_create_quadtree region maxfill).
Proof. unfold counters_ok. simpl. repeat split; lia. Qed.

Lemma build_leaves_ok fuel region maxfill items (qt : UFQuadTree) :
  build fuel region maxfill items = Ok qt -> items <> [] -> leaves_ok (uf_root qt) = true.
Proof.
  intros Hb Hne. unfold build in Hb.
  eapply (insert_all_shape (fun _ _ _ _ => true) leaf_ok bucket_ok (wrap32 maxfill))
    in Hb as (_ & _ & _ & Hall); try reflexivity; auto.
  - unfold bucket_ok, leaf_n, wrap32. simpl.
    pose proof (Z.mod_pos_bound maxfill (2 ^ 32) ltac:(lia)).
    apply andb_true_iff. split; [apply Z.leb_le | apply Z.ltb_lt]; lia.
  - unfold leaf_ok. intros items0 size Hl. apply andb_true_iff in Hl. tauto.
  - unfold leaf_ok, bucket_ok, leaf_n, wrap32. intros items0 size size' item Hb0 Hlt Hsz.
    rewrite !andb_true_iff in *. destruct Hb0 as [Hle Hlt2].
    apply Z.leb_le in Hle. apply Z.ltb_lt in Hlt2.
    pose proof (Z.mod_pos_bound (size * 2) (2 ^ 32) ltac:(lia)).
    rewrite length_app. simpl length.
    repeat split; [apply Z.leb_le | apply Z.leb_le | apply Z.ltb_lt]; lia.
Qed.

Lemma build_region fuel region maxfill items (qt : UFQuadTree) :
  build fuel region maxfill items = Ok qt -> uf_region qt = region.
Proof. intros Hb. apply insert_all_header in Hb as [Hr _]. exact Hr. Qed.

End QueryFacts.

(** *** With a total order on coordinates: nothing is missed *)

Section QueryOrder.

Context {FLOAT : Type} {Hops : FloatOps FLOAT} {Hord : FloatOrder FLOAT}.

Abbreviation Item := (Item FLOAT).
Abbreviation Quadrant := (Quadrant FLOAT).
Abbreviation TransNode := (TransNode FLOAT).
Abbreviation UFQuadTree := (UFQuadTree FLOAT).
Abbreviation QuadTree := (QuadTree FLOAT).

(** An item in two quadrants makes them overlap. *)
Lemma in_both_overlap (it : Item) (qA qB : Quadrant) :
  in_quadrant it qA = true -> in_quadrant it qB = true -> OVERLAP qA qB = true.
Proof.
  unfold in_quadrant, OVERLAP. rewrite !andb_true_iff.
  intros (((A1 & A2) & A3) & A4) (((B1 & B2) & B3) & B4).
  repeat split; eapply fle_trans; eassumption.
Qed.

Lemma filter_none {A} (f : A -> bool) (l : list A) :
  Forall (fun x => f x = false) l -> List.filter f l = [].
Proof.
  induction 1 as [|x l Hx _ IH]; simpl; [reflexivity|]. rewrite Hx. exact IH.
Qed.

Lemma matching_app (Q : Quadrant) (a b : list (list Item)) :
  matching Q (a ++ b) = matching Q a ++ matching Q b.
Proof. unfold matching. rewrite map_app, concat_app. reflexivity. Qed.

(** The leaves that are skipped hold no item of the region. *)
Lemma visit_matching (Q : Quadrant) (node : TransNode) : forall q,
  located q node ->
  matching Q (visit Q q node) = List.filter (fun it => in_quadrant it Q) (items_of node).
Proof.
  induction node as [c0 c1 c2 c3 H0 H1 H2 H3 | items size] using TransNode_ind';
    intros q Hloc.
  - cbn [located] in Hloc. destruct Hloc as (_ & L0 & L1 & L2 & L3).
    cbn [visit items_of]. cbv zeta. rewrite !matching_app, !List.filter_app.
    assert (Hslot : forall qi c,
      opt_Prop (fun n => forall q, located q n ->
        matching Q (visit Q q n) = List.filter (fun it => in_quadrant it Q) (items_of n)) c ->
      opt_Prop (located qi) c ->
      matching Q (visit_slot (visit Q) Q qi c) =
      List.filter (fun it => in_quadrant it Q) (opt_list items_of c)).
    { intros qi [n|] IH Hc; simpl in *; [|reflexivity].
      destruct (OVERLAP Q qi) eqn:Hov; [apply IH; exact Hc|].
      symmetry. apply filter_none. apply located_within in Hc.
      eapply Forall_impl; [exact Hc|]. intros it Hit. simpl in Hit.
      destruct (in_quadrant it Q) eqn:HQ; [|reflexivity].
      rewrite (in_both_overlap it Q qi HQ Hit) in Hov. discriminate. }
    rewrite !Hslot by assumption. reflexivity.
  - simpl. unfold matching. simpl. apply app_nil_r.
Qed.

Lemma filter_Permutation {A} (f : A -> bool) (l l' : list A) :
  Permutation l l' -> Permutation (List.filter f l) (List.filter f l').
Proof.
  induction 1 as [|x l l' _ IH|x y l|l l' l'' _ IH1 _ IH2]; simpl.
  - constructor.
  - destruct (f x); [constructor|]; exact IH.
  - destruct (f x), (f y); try reflexivity. constructor.
  - etransitivity; eassumption.
Qed.

Lemma build_located fuel region maxfill items (qt : UFQuadTree) :
  build fuel region maxfill items = Ok qt ->
  Forall (fun it => in_quadrant it region = true) items ->
  located region (uf_root qt).
Proof.
  intros Hb Hitems. pose proof (build_region _ _ _ _ _ Hb) as Hr.
  apply insert_all_located in Hb as [_ Hl]; simpl; auto.
  rewrite Hr in Hl. exact Hl.
Qed.

(** A query on the finalised tree of a builder that holds at least one
    item: with enough fuel it ends, and it returns the inserted items that
    lie in the region, in the order of the leaves. *)
Lemma query_all_build fuel0 region maxfill items (qt : UFQuadTree) (Q : Quadrant) :
  build fuel0 region maxfill items = Ok qt ->
  Forall (fun it => in_quadrant it region = true) items ->
  items <> [] ->
  exists fuel, forall f,
    query_all (fuel + f) (qt_finalise qt) Q =
    Ok (List.filter (fun it => in_quadrant it Q) (items_of (uf_root qt))).
Proof.
  intros Hb Hitems Hne.
  pose proof (build_located _ _ _ _ _ Hb Hitems) as Hloc.
  pose proof (build_leaves_ok _ _ _ _ _ Hb Hne) as Hleaves.
  pose proof (build_region _ _ _ _ _ Hb) as Hreg.
  destruct (insert_all_counters _ _ _ _ Hb (counters_ok_create region maxfill))
    as [Hok Hlv]. specialize (Hlv Hne).
  destruct (qt_finalise_ok qt Hok) as (Hr & Hm & Hi & Hat).
  pose proof Hok as (Hin & _).
  destruct (query_all_ok (qt_finalise qt) Q (uf_maxdepth qt) (uf_root qt) Hin Hat Hlv Hm)
    as [fuel R].
  - apply leaves_ok_count. exact Hleaves.
  - exists fuel. intros f. rewrite R, Hr, Hreg. f_equal.
    apply visit_matching. exact Hloc.
Qed.

End QueryOrder.

(** ** More fuel does not change a result *)

Section FuelFacts.

Context {FLOAT : Type} {Hops : FloatOps FLOAT}.

Abbreviation Item := (Item FLOAT).
Abbreviation Quadrant := (Quadrant FLOAT).
Abbreviation QuadTree := (QuadTree FLOAT).
Abbreviation Qt_Itr_Frame := (Qt_Itr_Frame FLOAT).
Abbreviation Qt_Iterator := (Qt_Iterator FLOAT).

Lemma at_RECURSE_mono (l1 l2 : Qt_Iterator -> result Qt_Iterator) itr r :
  (forall itr r, l1 itr = Ok r -> l2 itr = Ok r) ->
  at_RECURSE l1 itr = Ok r -> at_RECURSE l2 itr = Ok r.
Proof.
  intros Hl. unfold at_RECURSE. destruct (itr_stack itr) as [|fr rest]; [discriminate|].
  destruct (IS_LEAF _ _); [auto | apply Hl].
Qed.

Lemma itr_loop_mono f : forall (itr : Qt_Iterator) r,
  itr_loop f itr = Ok r -> itr_loop (S f) itr = Ok r.
Proof.
  induction f as [|f IH]; intros itr r Hr; [discriminate|].
  revert Hr. simpl itr_loop at 1. cbn [itr_loop]. 
  destruct (itr_stack itr) as [|fr rest]; [auto|].
  destruct (fr_quadrant fr =? QUAD).
  - destruct rest; apply IH.
  - destruct (read_word _ _) as [off|e]; [|discriminate]. simpl.
    destruct (off =? ROOT); [apply IH|].
    destruct (get4 _ _) as [q|]; [|discriminate].
    destruct (OVERLAP _ q); [|apply IH].
    destruct (enter_child _ _ _ _ _) as [itr'|e]; [|discriminate]. simpl.
    apply at_RECURSE_mono. exact IH.
Qed.


Lemma _itr_next_recursive_mono f (itr : Qt_Iterator) r :
  _itr_next_recursive f itr = Ok r -> _itr_next_recursive (S f) itr = Ok r.
Proof. apply at_RECURSE_mono. apply itr_loop_mono. Qed.

Lemma qt_itr_next_mono f : forall (itr : Qt_Iterator) r,
  qt_itr_next f itr = Ok r -> qt_itr_next (S f) itr = Ok r.
Proof.
  induction f as [|f IH]; intros itr r Hr; [discriminate|].
  revert Hr. cbn [qt_itr_next].
  destruct (itr_lp itr) as [lp|]; [|auto].
  destruct (itr_stack itr) as [|fr rest]; [discriminate|].
  destruct (read_word _ _) as [n|e]; [|discriminate]. simpl.
  destruct (wrap64 (n - 1) >=? itr_cur_item itr).
  - destruct (read_item _ _) as [itm|e]; [|discriminate]. simpl.
    destruct (in_quadrant itm _); [auto | apply IH].
  - destruct rest as [|fr' rest']; [discriminate|].
    destruct (_itr_next_recursive f _) as [itr'|e] eqn:Hrec; [|discriminate].
    apply _itr_next_recursive_mono in Hrec. rewrite Hrec. simpl. apply IH.
Qed.

Lemma drain_S f (itr : Qt_Iterator) :
  drain (S f) itr =
  bind (qt_itr_next f itr) (fun x =>
    let '(r, itr) := x in
    match r with
    | None => Ok []
    | Some i => bind (drain f itr) (fun rest => Ok (i :: rest))
    end).
Proof. reflexivity. Qed.

Lemma drain_mono f : forall (itr : Qt_Iterator) r,
  drain f itr = Ok r -> drain (S f) itr = Ok r.
Proof.
  induction f as [|f IH]; intros itr r Hr; [discriminate|].
  rewrite drain_S in Hr. rewrite (drain_S (S f)). revert Hr.
  destruct (qt_itr_next f itr) as [[x itr']|e] eqn:Hnext; [|discriminate].
  apply qt_itr_next_mono in Hnext. rewrite Hnext. cbn [bind].
  destruct x as [i|]; [|auto].
  destruct (drain f itr') as [rest|e] eqn:Hd; [|discriminate].
  apply IH in Hd. rewrite Hd. auto.
Qed.

Lemma query_all_mono f (qt : QuadTree) (Q : Quadrant) r :
  query_all f qt Q = Ok r -> query_all (S f) qt Q = Ok r.
Proof.
  unfold query_all, qt_query_itr. simpl.
  destruct (0 <? qt_maxdepth qt); [|discriminate].
  destruct (_itr_next_recursive f _) as [itr|e] eqn:Hrec; [|discriminate].
  apply _itr_next_recursive_mono in Hrec. rewrite Hrec. simpl. apply drain_mono.
Qed.

Lemma query_all_mono_add f g (qt : QuadTree) (Q : Quadrant) r :
  query_all f qt Q = Ok r -> query_all (g + f) qt Q = Ok r.
Proof.
  intros Hr. induction g as [|g IH]; [exact Hr|]. simpl. apply query_all_mono. exact IH.
Qed.

(** A query has one result, whatever the fuel that lets it end. *)
Lemma query_all_deterministic f1 f2 (qt : QuadTree) (Q : Quadrant) r1 r2 :
  query_all f1 qt Q = Ok r1 -> query_all f2 qt Q = Ok r2 -> r1 = r2.
Proof.
  intros H1 H2. apply (query_all_mono_add _ f2) in H1. apply (query_all_mono_add _ f1) in H2.
  rewrite Nat.add_comm in H2. congruence.
Qed.

End FuelFacts.

(** ** The rationals satisfy the order laws *)

#[export] Instance Q_order : FloatOrder Q.
Proof.
  split; simpl.
  - intros a b. destruct (Qlt_le_dec a b) as [Hlt | Hle].
    + left. apply Qle_bool_iff. apply Qlt_le_weak. exact Hlt.
    + right. apply Qle_bool_iff. exact Hle.
  - intros a b c Hab Hbc. apply Qle_bool_iff in Hab, Hbc. apply Qle_bool_iff.
    eapply Qle_trans; eassumption.
  - reflexivity.
Qed.

(** ** The claims of the specification *)

Section QueryClaims.

Context {FLOAT : Type} {Hops : FloatOps FLOAT} {Hord : FloatOrder FLOAT}.

Abbreviation Item := (Item FLOAT).
Abbreviation Quadrant := (Quadrant FLOAT).
Abbreviation UFQuadTree := (UFQuadTree FLOAT).

Lemma filter_all {A} (f : A -> bool) (l : list A) :
  Forall (fun x => f x = true) l -> List.filter f l = l.
Proof.
  induction 1 as [|x l Hx _ IH]; simpl; [reflexivity|]. rewrite Hx, IH. reflexivity.
Qed.

(** The iterator of the finalised empty builder cannot even be opened:
    its stack has [maxdepth = 0] frames and frame 0 is written. *)
Lemma query_all_empty fuel region maxfill (Q : Quadrant) :
  query_all fuel (qt_finalise (qt_create_quadtree region maxfill)) Q = Err StackOutOfBounds.
Proof. reflexivity. Qed.

(** C1: for every finalised tree and every item [i] inserted into its
    builder (items lie in the region of the builder, the contract of
    [qt_insert]), the query with the tree's own region, driven by
    [qt_query_itr] and [qt_itr_next] until [NULL], ends and yields a
    permutation of the inserted items: [i], like every inserted item,
    comes out exactly as often as it went in.  Every run that ends yields
    such a permutation. *)
Theorem C1_full_region_query_yields_each_item_once
    fuel0 region maxfill (items : list Item) (qt : UFQuadTree) (i : Item) :
  build fuel0 region maxfill items = Ok qt ->
  Forall (fun it => in_quadrant it region = true) items ->
  In i items ->
  (exists fuel ys,
     query_all fuel (qt_finalise qt) (qt_region (qt_finalise qt)) = Ok ys /\
     Permutation ys items /\ In i ys) /\
  (forall fuel ys,
     query_all fuel (qt_finalise qt) (qt_region (qt_finalise qt)) = Ok ys ->
     Permutation ys items).
Proof.
  intros Hb Hitems Hi.
  assert (Hne : items <> []) by (intros ->; destruct Hi).
  destruct (query_all_build _ _ _ _ _ (qt_region (qt_finalise qt)) Hb Hitems Hne)
    as [fuel R].
  specialize (R 0%nat). rewrite Nat.add_0_r in R.
  destruct (insert_all_counters _ _ _ _ Hb (counters_ok_create region maxfill)) as [Hok _].
  destruct (qt_finalise_ok qt Hok) as (Hr & _).
  pose proof (build_region _ _ _ _ _ Hb) as Hreg.
  pose proof (build_items _ _ _ _ _ Hb) as Hperm.
  assert (Hall : List.filter (fun it => in_quadrant it (qt_region (qt_finalise qt)))
                   (items_of (uf_root qt)) = items_of (uf_root qt)).
  { apply filter_all. rewrite Hr, Hreg, Hperm. exact Hitems. }
  rewrite Hall in R. split.
  - exists fuel, (items_of (uf_root qt)). split; [exact R|]. split; [exact Hperm|].
    rewrite Hperm. exact Hi.
  - intros fuel' ys Hys. rewrite (query_all_deterministic _ _ _ _ _ _ Hys R). exact Hperm.
Qed.

(** C2: for every finalised tree (items lie in the region of the builder)
    and every query region [Q], a run of the query iterator that ends
    yields, up to order, the inserted items that lie inside [Q] under the
    inclusive rule: every yielded item is inside [Q] and every inserted
    item that is not yielded is outside.  If at least one item was
    inserted the run does end. *)
Theorem C2_query_yields_exactly_the_items_in_region
    fuel0 region maxfill (items : list Item) (qt : UFQuadTree) (Q : Quadrant) :
  build fuel0 region maxfill items = Ok qt ->
  Forall (fun it => in_quadrant it region = true) items ->
  (forall fuel ys,
     query_all fuel (qt_finalise qt) Q = Ok ys ->
     Permutation ys (List.filter (fun it => in_quadrant it Q) items) /\
     Forall (fun it => in_quadrant it Q = true) ys /\
     (forall it, In it items -> ~ In it ys -> in_quadrant it Q = false)) /\
  (items <> [] -> exists fuel ys, query_all fuel (qt_finalise qt) Q = Ok ys).
Proof.
  intros Hb Hitems.
  destruct items as [|it0 items'].
  { injection Hb as <-. split; [|congruence].
    intros fuel ys Hys. rewrite query_all_empty in Hys. discriminate. }
  set (items := it0 :: items') in *.
  assert (Hne : items <> []) by discriminate.
  destruct (query_all_build _ _ _ _ _ Q Hb Hitems Hne) as [fuel R].
  specialize (R 0%nat). rewrite Nat.add_0_r in R.
  pose proof (build_items _ _ _ _ _ Hb) as Hperm.
  split; [|intros _; eauto].
  intros fuel' ys Hys. rewrite (query_all_deterministic _ _ _ _ _ _ Hys R).
  assert (HP : Permutation (List.filter (fun it => in_quadrant it Q) (items_of (uf_root qt)))
                 (List.filter (fun it => in_quadrant it Q) items))
    by (apply filter_Permutation; exact Hperm).
  split; [exact HP|]. split.
  - apply List.Forall_forall. intros x Hx. apply filter_In in Hx. tauto.
  - intros x Hx Hnot. destruct (in_quadrant x Q) eqn:HQ; [|reflexivity].
    exfalso. apply Hnot. rewrite HP. apply filter_In. auto.
Qed.

End QueryClaims.

Section BuilderClaims.

Context {FLOAT : Type} {Hops : FloatOps FLOAT}.

Abbreviation Item := (Item FLOAT).
Abbreviation Quadrant := (Quadrant FLOAT).
Abbreviation TransNode := (TransNode FLOAT).
Abbreviation UFQuadTree := (UFQuadTree FLOAT).

(** C4 (what the code does for the empty builder): [qt_query_itr]
    allocates [maxdepth] frames, not [maxdepth + 1]; the finalised empty
    builder has [maxdepth = 0], so that the write of frame 0 at
    construction is outside the allocated stack. *)
Theorem C4_empty_tree_root_frame_outside_stack fuel region maxfill (Q : Quadrant) :
  qt_maxdepth (qt_finalise (qt_create_quadtree region maxfill)) = 0 /\
  qt_query_itr fuel (qt_finalise (qt_create_quadtree region maxfill)) Q
  = Err StackOutOfBounds.
Proof. split; reflexivity. Qed.

(** C5: at an inner node a successful [_qt_insert] computes the midpoints
    [mx = sw.x + (ne.x - sw.x)/2] and [my = sw.y + (ne.y - sw.y)/2] of the
    current quadrant and puts the item into exactly one child, the one of
    the rule [x >= mx] east, [y >= my] north, else west/south: that child
    holds the item afterwards, it was entered with the matching
    sub-quadrant, and the other three slots are unchanged. *)
Theorem C5_insert_descends_by_midpoint_rule
    fuel (qt : UFQuadTree) c0 c1 c2 c3 (item : Item) (q : Quadrant) depth qt' node' :
  _qt_insert (S fuel) qt (TInner c0 c1 c2 c3) item q depth = Ok (qt', node') ->
  let quad := quadrant_rule item q in
  (quad = NW \/ quad = NE \/ quad = SW \/ quad = SE) /\
  classify item q = (quad, snd (classify item q)) /\
  get4 (_gen_quadrants q) quad = Some (snd (classify item q)) /\
  (exists qtc c c',
     (child (TInner c0 c1 c2 c3) quad = Some c \/
      child (TInner c0 c1 c2 c3) quad = None /\ c = TLeaf [] (uf_maxfill qt)) /\
     _qt_insert fuel qtc c item (snd (classify item q)) (depth + 1) = Ok (qt', c') /\
     child node' quad = Some c' /\ In item (items_of c')) /\
  (forall j, j <> quad -> child node' j = child (TInner c0 c1 c2 c3) j).
Proof.
  intros Hins quad. subst quad. pose proof (quadrant_rule_range item q) as Hrange.
  split; [exact Hrange|]. split; [rewrite <- classify_fst; apply surjective_pairing|].
  split; [apply classify_snd|].
  apply _qt_insert_cases in Hins as [[_ Hi] | [Hl | Hs]].
  - apply insert_inner_inv in Hi as (qtc & c & c' & Hc & Hrec & ->).
    rewrite classify_fst in *. split.
    + exists qtc, c, c'. split; [|split; [exact Hrec|split]].
      * destruct Hc as [[Hc _] | [Hc Hi]]; [left; exact Hc|]. right. split; [exact Hc|].
        unfold _init_leaf_node in Hi. injection Hi as _ ->.
        unfold bump_maxdepth. case_match; reflexivity.
      * apply child_set_child_eq; auto.
      * apply _qt_insert_items in Hrec. rewrite Hrec. left. reflexivity.
    + intros j Hj. apply child_set_child_ne. exact Hj.
  - destruct Hl as (? & ? & ? & Heq & _). discriminate.
  - destruct Hs as (? & ? & ? & ? & Heq & _). discriminate.
Qed.

(** C8 as amended: in a builder tree into which at least one item has
    been inserted every inner node has at least one non-empty child slot;
    the root of a builder without insertion is an inner node with four
    empty slots. *)
Theorem C8_inner_nodes_have_a_child_after_an_insert
    fuel region maxfill (items : list Item) (qt : UFQuadTree) :
  build fuel region maxfill items = Ok qt ->
  (items <> [] -> inners_have_child (uf_root qt) = true) /\
  (items = [] -> uf_root qt = TInner None None None None).
Proof.
  intros Hb. split.
  - intros Hne. unfold build in Hb.
    eapply (insert_all_shape some_child (fun _ _ => true) (fun _ _ => true) (wrap32 maxfill))
      in Hb as (_ & _ & _ & Hall); auto.
  - intros ->. injection Hb as <-. reflexivity.
Qed.


Lemma all_nodes_impl pI pI' pL pL' (node : TransNode) :
  (forall c0 c1 c2 c3, pI c0 c1 c2 c3 = true -> pI' c0 c1 c2 c3 = true) ->
  (forall items size, pL items size = true -> pL' items size = true) ->
  all_nodes pI pL node = true -> all_nodes pI' pL' node = true.
Proof.
  intros HI HL.
  induction node as [c0 c1 c2 c3 H0 H1 H2 H3 | items size] using TransNode_ind'; simpl;
    [|apply HL].
  rewrite !andb_true_iff. intros ((((A & A0) & A1) & A2) & A3).
  repeat split; auto;
    [destruct c0 | destruct c1 | destruct c2 | destruct c3]; simpl in *; auto.
Qed.

(** The header of every leaf that is laid out holds its item count. *)
Lemma laid_out_heads pI pL (T : QuadTree FLOAT) (node : TransNode) : forall k L,
  laid_out T k L node -> all_nodes pI pL node = true ->
  Forall (fun h => mem_words T !! fst h = Some (leaf_n (snd h)) /\
                   exists size, pL (snd h) size = true) (leaf_heads L node).
Proof.
  induction node as [c0 c1 c2 c3 H0 H1 H2 H3 | items size] using TransNode_ind';
    intros k L Hlaid Hall.
  - cbn [laid_out] in Hlaid. cbv zeta in Hlaid. destruct Hlaid as (S0 & S1 & S2 & S3).
    cbn [all_nodes] in Hall. rewrite !andb_true_iff in Hall.
    destruct Hall as ((((_ & A0) & A1) & A2) & A3).
    cbn [leaf_heads]. cbv zeta.
    assert (Hslot : forall a c k' L',
      opt_Prop (fun n => forall k L, laid_out T k L n -> all_nodes pI pL n = true ->
        Forall (fun h => mem_words T !! fst h = Some (leaf_n (snd h)) /\
                         exists size, pL (snd h) size = true) (leaf_heads L n)) c ->
      slot_laid (laid_out T) T a c k' L' -> opt_bool (all_nodes pI pL) c = true ->
      Forall (fun h => mem_words T !! fst h = Some (leaf_n (snd h)) /\
                       exists size, pL (snd h) size = true) (opt_list (leaf_heads L') c)).
    { intros a [n|] k' L' IH Hs Hc; simpl in *; [|constructor].
      destruct Hs as [_ Hn]. eapply IH; eauto. }
    repeat (apply Forall_app; split); eapply Hslot; eassumption.
  - destruct Hlaid as [Hn _]. simpl. constructor; [|constructor]. simpl. eauto.
Qed.

(** C10: after every successful sequence of insertions every leaf of the
    builder tree holds at least one item, and so does every leaf of the
    finalised tree: the header [n] of each leaf written to the buffer is
    at least 1 (and below [2^32]), so that [n - 1] in the comparison of
    [qt_itr_next] does not wrap around. *)
Theorem C10_leaves_hold_at_least_one_item
    fuel region maxfill (items : list Item) (qt : UFQuadTree) :
  build fuel region maxfill items = Ok qt ->
  leaves_nonempty (uf_root qt) = true /\
  Forall (fun h =>
            mem_words (qt_finalise qt) !! fst h = Some (leaf_n (snd h)) /\
            1 <= leaf_n (snd h) /\ wrap64 (leaf_n (snd h) - 1) = leaf_n (snd h) - 1)
    (leaf_heads (MEM_LEAFS (qt_finalise qt)) (uf_root qt)).
Proof.
  intros Hb. destruct items as [|it0 items'].
  { injection Hb as <-. split; [reflexivity | constructor]. }
  assert (Hne : it0 :: items' <> []) by discriminate.
  pose proof (build_leaves_ok _ _ _ _ _ Hb Hne) as Hleaves.
  destruct (insert_all_counters _ _ _ _ Hb (counters_ok_create region maxfill)) as [Hok _].
  destruct (qt_finalise_ok qt Hok) as (_ & _ & Hi & Hlaid & _).
  split.
  - eapply all_nodes_impl; [| |exact Hleaves]; auto.
    unfold leaf_ok. intros l size Hl. apply andb_true_iff in Hl. tauto.
  - replace (MEM_LEAFS (qt_finalise qt)) with (sizeof_Inner * qt_ninners (qt_finalise qt))
      by (unfold MEM_LEAFS, MEM_INNERS, sizeof_Inner; lia).
    eapply Forall_impl; [eapply laid_out_heads; [exact Hlaid | exact Hleaves]|].
    intros [a l] [Hw [size Hl]]. simpl in *. split; [exact Hw|].
    unfold leaf_ok, bucket_ok in Hl. rewrite !andb_true_iff in Hl.
    destruct Hl as (H1 & H2 & H3). apply Z.leb_le in H1, H2. apply Z.ltb_lt in H3.
    split; [exact H1|]. unfold wrap64. apply Z.mod_small. lia.
Qed.

End BuilderClaims.

Section SplitClaims.

Context {FLOAT : Type} {Hops : FloatOps FLOAT} {Hord : FloatOrder FLOAT}.

Abbreviation Item := (Item FLOAT).
Abbreviation Quadrant := (Quadrant FLOAT).
Abbreviation TransNode := (TransNode FLOAT).
Abbreviation UFQuadTree := (UFQuadTree FLOAT).












Lemma _realloc_entries (n : Z) :
  _realloc (n * sizeof_Item_ptr) = if n =? 0 then Err AllocExit else Ok tt.
Proof.
  unfold _realloc, sizeof_Item_ptr.
  destruct (Z.eqb_spec n 0), (Z.eqb_spec (n * 8) 0); try reflexivity; lia.
Qed.

End SplitClaims.

Section SplitLoop.

Context {FLOAT : Type} {Hops : FloatOps FLOAT}.

Abbreviation Item := (Item FLOAT).
Abbreviation Quadrant := (Quadrant FLOAT).
Abbreviation TransNode := (TransNode FLOAT).
Abbreviation UFQuadTree := (UFQuadTree FLOAT).

Variable rec_insert :
  UFQuadTree -> TransNode -> Item -> Quadrant -> Z -> result (UFQuadTree * TransNode).



End SplitLoop.

Section SplitTheorem.

Context {FLOAT : Type} {Hops : FloatOps FLOAT} {Hord : FloatOrder FLOAT}.

Abbreviation Item := (Item FLOAT).
Abbreviation Quadrant := (Quadrant FLOAT).
Abbreviation TransNode := (TransNode FLOAT).
Abbreviation UFQuadTree := (UFQuadTree FLOAT).


End SplitTheorem.


Section CoincidentClaims.

Context {FLOAT : Type} {Hops : FloatOps FLOAT}.

Abbreviation Item := (Item FLOAT).
Abbreviation Quadrant := (Quadrant FLOAT).
Abbreviation TransNode := (TransNode FLOAT).
Abbreviation UFQuadTree := (UFQuadTree FLOAT).

Lemma _itemcmp_coincident (a b : Item) : coords a = coords b -> _itemcmp a b = 0.
Proof.
  intros E. unfold _itemcmp, _FLOATcmp. rewrite E. cbv zeta.
  rewrite !Z.sub_diag. reflexivity.
Qed.

Lemma _distinct_items_exist_coincident (c : vec2) (items : list Item) :
  Forall (fun it => coords it = c) items -> _distinct_items_exist items = false.
Proof.
  induction 1 as [|a l Ha Hl IH]; [reflexivity|].
  destruct l as [|b l']; [reflexivity|]. cbn [_distinct_items_exist].
  rewrite _itemcmp_coincident; [exact IH|].
  apply Forall_cons_iff in Hl. destruct Hl as [Hb _]. congruence.
Qed.

Lemma classify_coords (a b : Item) (q : Quadrant) :
  coords a = coords b -> classify a q = classify b q.
Proof. intros E. unfold classify. rewrite E. reflexivity. Qed.

Lemma set_child_single_leaf quad (c : TransNode) (items : list Item) size :
  set_child (single_leaf quad items size) quad c =
  set_child (TInner None None None None) quad c.
Proof.
  unfold single_leaf, set_child, set4.
  repeat case_match; try reflexivity; simpl in *; congruence.
Qed.

Lemma insert_inner_hit
    (rec_insert : UFQuadTree -> TransNode -> Item -> Quadrant -> Z ->
                  result (UFQuadTree * TransNode))
    (qt : UFQuadTree) (node c : TransNode) (item : Item) (q q2 : Quadrant) quad depth :
  classify item q = (quad, q2) -> child node quad = Some c ->
  insert_inner rec_insert qt node item q depth =
  let* '(qt, c') := rec_insert qt c item q2 depth in Ok (qt, set_child node quad c').
Proof. intros Hc Hch. unfold insert_inner. rewrite Hc, Hch. reflexivity. Qed.

(** An insertion into a bucket of coincident items: when the bucket is
    full the capacity is doubled in 32 bits, which ends the program if the
    new capacity is 0; the item is appended if the capacity allows it. *)
Lemma insert_restart_coincident
    (rec_insert : UFQuadTree -> TransNode -> Item -> Quadrant -> Z ->
                  result (UFQuadTree * TransNode))
    (qt : UFQuadTree) (c : vec2) (items : list Item) size (item : Item) (q : Quadrant) depth :
  Forall (fun it => coords it = c) items ->
  insert_restart rec_insert qt (TLeaf items size) item q depth =
  if (wrap32 (leaf_n items + 1) >? size) && (wrap32 (size * 2) =? 0) then Err AllocExit
  else
    let size' := if wrap32 (leaf_n items + 1) >? size then wrap32 (size * 2) else size in
    if leaf_n items <? size' then Ok (qt, TLeaf (items ++ [item]) size')
    else Err BucketOverflow.
Proof.
  intros Hco. unfold insert_restart. cbn [is_inner]. unfold _ensure_bucket_size, _split_node.
  rewrite (_distinct_items_exist_coincident c items Hco). cbn [negb]. cbv zeta.
  rewrite _realloc_entries.
  destruct (wrap32 (leaf_n items + 1) >? size); [|reflexivity].
  destruct (wrap32 (size * 2) =? 0); reflexivity.
Qed.

Lemma qt_insert_coincident f region b quad (items : list Item) size (item : Item) :
  quadrant_rule item region = quad ->
  Forall (fun it => coords it = coords item) items ->
  qt_insert (S (S f)) (coincident_state region b quad items size) item =
  if (wrap32 (leaf_n items + 1) >? size) && (wrap32 (size * 2) =? 0) then Err AllocExit
  else
    let size' := if wrap32 (leaf_n items + 1) >? size then wrap32 (size * 2) else size in
    if leaf_n items <? size'
    then Ok (coincident_state region b quad (items ++ [item]) size')
    else Err BucketOverflow.
Proof.
  intros Hq Hco.
  destruct (classify item region) as [quad' q2] eqn:Hc.
  assert (quad' = quad) by (rewrite <- Hq, <- classify_fst, Hc; reflexivity). subst quad'.
  assert (Hch : child (single_leaf quad items size) quad = Some (TLeaf items size)).
  { apply child_set_child_eq; [reflexivity | rewrite <- Hq; apply quadrant_rule_range]. }
  unfold qt_insert. cbv zeta. rewrite _qt_insert_S.
  unfold set_size, coincident_state, bump_maxdepth.
  cbn [uf_root uf_region uf_size uf_maxdepth uf_maxfill uf_ninners uf_nleafs].
  change (0 + 1 >? 2) with false. cbv iota.
  unfold insert_restart at 1. replace (is_inner (single_leaf quad items size)) with true
    by reflexivity.
  rewrite (insert_inner_hit _ _ _ _ _ _ _ _ _ Hc Hch).
  rewrite _qt_insert_S. unfold bump_maxdepth. cbn [uf_maxdepth].
  change (0 + 1 + 1 >? 2) with false. cbv iota.
  rewrite (insert_restart_coincident _ _ (coords item) _ _ _ _ _ Hco). cbv zeta.
  destruct ((wrap32 (leaf_n items + 1) >? size) && (wrap32 (size * 2) =? 0));
    cbn [bind]; [reflexivity|].
  destruct (leaf_n items <? _); cbn [bind]; [|reflexivity].
  unfold set_root. cbn [uf_root uf_region uf_size uf_maxdepth uf_maxfill uf_ninners uf_nleafs].
  rewrite set_child_single_leaf. unfold leaf_n. rewrite length_app, Nat2Z.inj_add.
  reflexivity.
Qed.

(** The first insertion creates the leaf. *)
Lemma qt_insert_first f region b (item : Item) :
  1 <= b < 2 ^ 32 ->
  qt_insert (S (S f)) (qt_create_quadtree region b) item =
  Ok (coincident_state region b (quadrant_rule item region) [item] b).
Proof.
  intros Hb.
  assert (Hw : wrap32 b = b) by (unfold wrap32; apply Z.mod_small; lia).
  destruct (classify item region) as [quad q2] eqn:Hc.
  assert (Hq : quadrant_rule item region = quad)
    by (rewrite <- classify_fst, Hc; reflexivity).
  unfold qt_insert. cbv zeta. rewrite _qt_insert_S.
  unfold set_size, qt_create_quadtree, bump_maxdepth.
  cbn [uf_root uf_region uf_size uf_maxdepth uf_maxfill uf_ninners uf_nleafs].
  change (0 + 1 >? 0) with true. cbv iota.
  unfold insert_restart at 1. cbn [is_inner]. unfold insert_inner. rewrite Hc.
  assert (Hch : child (TInner None None None None : TransNode) quad = None).
  { unfold child, get4. cbn [q_nw q_ne q_sw q_se].
    destruct (quad =? NW), (quad =? NE), (quad =? SW), (quad =? SE); reflexivity. }
  rewrite Hch. unfold _init_leaf_node, set_maxdepth, set_counts.
  cbn [uf_root uf_region uf_size uf_maxdepth uf_maxfill uf_ninners uf_nleafs].
  rewrite _qt_insert_S. unfold bump_maxdepth. cbn [uf_maxdepth].
  change (0 + 1 + 1 >? 0 + 1) with true. cbv iota.
  rewrite (insert_restart_coincident _ _ (coords item) [] _ _ _ _ (List.Forall_nil _)).
  cbv zeta. change (leaf_n (@nil Item) + 1) with 1. change (wrap32 1) with 1.
  change (leaf_n (@nil Item)) with 0. rewrite Hw.
  replace (1 >? b) with false by lia. replace (0 <? b) with true by lia.
  cbn [andb bind]. rewrite Hq. unfold coincident_state. rewrite Hw. reflexivity.
Qed.

(** Further coincident insertions keep the single leaf, as long as the
    32-bit capacity can follow: [size] stays the bucket size while it is
    enough, and is at least the item count afterwards. *)
Lemma insert_all_coincident f region b quad (c : vec2) (rest : list Item) :
  forall (items : list Item) size,
  Forall (fun it => coords it = c) items ->
  Forall (fun it => coords it = c /\ quadrant_rule it region = quad) rest ->
  1 <= leaf_n items <= size -> size < 2 ^ 32 ->
  (leaf_n items <= wrap32 b -> size = wrap32 b) ->
  leaf_n items + leaf_n rest <= 2 ^ 31 ->
  exists size',
    insert_all (S (S f)) (coincident_state region b quad items size) rest =
      Ok (coincident_state region b quad (items ++ rest) size') /\
    leaf_n (items ++ rest) <= size' < 2 ^ 32 /\
    (leaf_n (items ++ rest) <= wrap32 b -> size' = wrap32 b).
Proof.
  induction rest as [|it rest IH]; intros items size Hco Hrest Hn Hsz Hb Hk.
  - exists size. rewrite app_nil_r. split; [reflexivity|]. split; [lia | exact Hb].
  - apply Forall_cons_iff in Hrest. destruct Hrest as [[Hc Hq] Hrest].
    assert (Hlen : leaf_n (it :: rest) = 1 + leaf_n rest).
    { unfold leaf_n. cbn [length]. lia. }
    assert (Hlen' : leaf_n (items ++ [it]) = leaf_n items + 1).
    { unfold leaf_n. rewrite length_app. cbn [length]. lia. }
    assert (0 <= leaf_n rest) by (unfold leaf_n; lia).
    assert (Hw : wrap32 (leaf_n items + 1) = leaf_n items + 1).
    { unfold wrap32. apply Z.mod_small. lia. }
    cbn [insert_all]. rewrite qt_insert_coincident; [|exact Hq|].
    2:{ eapply Forall_impl; [exact Hco|]. simpl. congruence. }
    cbv zeta. rewrite Hw.
    set (size1 := if leaf_n items + 1 >? size then wrap32 (size * 2) else size).
    assert (Hsize1 : leaf_n items + 1 <= size1 < 2 ^ 32 /\
                     (leaf_n items + 1 <= wrap32 b -> size1 = wrap32 b)).
    { subst size1. destruct (Z.gtb_spec (leaf_n items + 1) size) as [Hfull|Hroom].
      - assert (size = leaf_n items) by lia.
        assert (Hd : wrap32 (size * 2) = size * 2) by (unfold wrap32; apply Z.mod_small; lia).
        rewrite Hd. split; [lia|]. intros Hle.
        assert (size = wrap32 b) by (apply Hb; lia). lia.
      - split; [lia|]. intros Hle. apply Hb. lia. }
    destruct Hsize1 as [Hs1 Hb1].
    replace ((leaf_n items + 1 >? size) && (wrap32 (size * 2) =? 0)) with false.
    2:{ symmetry. apply andb_false_iff.
        destruct (Z.gtb_spec (leaf_n items + 1) size) as [Hfull|Hroom]; [right | left; reflexivity].
        subst size1. replace (leaf_n items + 1 >? size) with true in Hs1 by lia. lia. }
    replace (leaf_n items <? size1) with true by lia. cbn [bind].
    destruct (IH (items ++ [it]) size1) as (size' & Hall & Hs' & Hb').
    + apply Forall_app. split; [exact Hco|]. constructor; [exact Hc | constructor].
    + exact Hrest.
    + lia.
    + lia.
    + rewrite Hlen'. exact Hb1.
    + lia.
    + exists size'. rewrite <- app_assoc in Hall, Hs', Hb'. cbn [app] in *. auto.
Qed.

(** All the items at one place: the state of the builder. *)
Lemma build_coincident f region b (c : vec2) (it0 : Item) (rest : list Item) :
  Forall (fun it => coords it = c) (it0 :: rest) ->
  1 <= b < 2 ^ 32 -> leaf_n (it0 :: rest) <= 2 ^ 31 ->
  exists size,
    build (S (S f)) region b (it0 :: rest) =
      Ok (coincident_state region b (quadrant_rule it0 region) (it0 :: rest) size) /\
    leaf_n (it0 :: rest) <= size < 2 ^ 32 /\
    (leaf_n (it0 :: rest) <= b -> size = b).
Proof.
  intros Hco Hb Hk. apply Forall_cons_iff in Hco. destruct Hco as [Hc0 Hco].
  assert (Hw : wrap32 b = b) by (unfold wrap32; apply Z.mod_small; lia).
  assert (Hlen : leaf_n (it0 :: rest) = 1 + leaf_n rest).
  { unfold leaf_n. cbn [length]. lia. }
  unfold build. cbn [insert_all]. rewrite (qt_insert_first f region b it0 Hb). cbn [bind].
  destruct (insert_all_coincident f region b (quadrant_rule it0 region) c rest [it0] b)
    as (size & Hall & Hs & Hb').
  - constructor; [exact Hc0 | constructor].
  - eapply Forall_impl; [exact Hco|]. simpl. intros it Hit. split; [exact Hit|].
    unfold quadrant_rule. rewrite Hit, <- Hc0. reflexivity.
  - change (leaf_n [it0]) with 1. lia.
  - lia.
  - intros _. symmetry. exact Hw.
  - change (leaf_n [it0]) with 1. lia.
  - exists size. cbn [app] in *. rewrite Hw in Hb'. auto.
Qed.

Lemma insert_all_app fuel (l1 l2 : list Item) : forall (qt : UFQuadTree),
  insert_all fuel qt (l1 ++ l2) =
  let* qt' := insert_all fuel qt l1 in insert_all fuel qt' l2.
Proof.
  induction l1 as [|it l1 IH]; intros qt; [reflexivity|].
  cbn [app insert_all]. destruct (qt_insert fuel qt it) as [qt1|e]; cbn [bind];
    [apply IH | reflexivity].
Qed.

(** Whenever coincident insertions succeed, the builder is in the state
    with the single leaf: there is no bound on their number here. *)
Lemma insert_all_coincident_Ok f region b quad (c : vec2) (rest : list Item) :
  forall (items : list Item) size (qt : UFQuadTree),
  Forall (fun it => coords it = c) items ->
  Forall (fun it => coords it = c /\ quadrant_rule it region = quad) rest ->
  insert_all (S (S f)) (coincident_state region b quad items size) rest = Ok qt ->
  exists size', qt = coincident_state region b quad (items ++ rest) size'.
Proof.
  induction rest as [|it rest IH]; intros items size qt Hco Hrest Hall.
  - injection Hall as <-. exists size. rewrite app_nil_r. reflexivity.
  - apply Forall_cons_iff in Hrest. destruct Hrest as [[Hc Hq] Hrest].
    cbn [insert_all] in Hall. rewrite qt_insert_coincident in Hall; [|exact Hq|].
    2:{ eapply Forall_impl; [exact Hco|]. simpl. congruence. }
    cbv zeta in Hall.
    destruct ((wrap32 (leaf_n items + 1) >? size) && (wrap32 (size * 2) =? 0));
      [discriminate|].
    destruct (leaf_n items <? _); [|discriminate]. cbn [bind] in Hall.
    apply IH in Hall as [size' ->]; [| |exact Hrest].
    + exists size'. rewrite <- app_assoc. reflexivity.
    + apply Forall_app. split; [exact Hco|]. constructor; [exact Hc | constructor].
Qed.

Lemma insert_inner_rec_Err
    (rec_insert : UFQuadTree -> TransNode -> Item -> Quadrant -> Z ->
                  result (UFQuadTree * TransNode))
    (e : error) (qt : UFQuadTree) (node : TransNode) (item : Item) (q : Quadrant) depth :
  (forall qt node item q depth, rec_insert qt node item q depth = Err e) ->
  insert_inner rec_insert qt node item q depth = Err e.
Proof.
  intros Hrec. unfold insert_inner. destruct (classify item q) as [quad q2].
  destruct (child node quad); [|destruct (_init_leaf_node qt)]; rewrite Hrec; reflexivity.
Qed.

(** An insertion needs two calls of [_qt_insert]: one for the root and
    one for the leaf. *)
Lemma build_fuel fuel region b (it0 : Item) (rest : list Item) (qt : UFQuadTree) :
  build fuel region b (it0 :: rest) = Ok qt -> exists f, fuel = S (S f).
Proof.
  destruct fuel as [|[|f]]; [discriminate | | eauto].
  unfold build. cbn [insert_all]. unfold qt_insert. cbv zeta.
  rewrite _qt_insert_S. unfold insert_restart, qt_create_quadtree, set_size, bump_maxdepth.
  cbn [uf_root uf_maxdepth is_inner].
  rewrite (insert_inner_rec_Err _ OutOfFuel); [discriminate | reflexivity].
Qed.

Lemma build_coincident_Ok fuel region b (c : vec2) (it0 : Item) (rest : list Item)
    (qt : UFQuadTree) :
  Forall (fun it => coords it = c) (it0 :: rest) -> 1 <= b < 2 ^ 32 ->
  build fuel region b (it0 :: rest) = Ok qt ->
  exists size, qt = coincident_state region b (quadrant_rule it0 region) (it0 :: rest) size.
Proof.
  intros Hco Hb Hbuild. destruct (build_fuel _ _ _ _ _ _ Hbuild) as [f ->].
  apply Forall_cons_iff in Hco. destruct Hco as [Hc0 Hco].
  unfold build in Hbuild. cbn [insert_all] in Hbuild.
  rewrite (qt_insert_first f region b it0 Hb) in Hbuild. cbn [bind] in Hbuild.
  apply (insert_all_coincident_Ok f region b _ c) in Hbuild as [size ->].
  - exists size. reflexivity.
  - constructor; [exact Hc0 | constructor].
  - eapply Forall_impl; [exact Hco|]. simpl. intros it Hit. split; [exact Hit|].
    unfold quadrant_rule. rewrite Hit, <- Hc0. reflexivity.
Qed.

(** C7: when all the [k >= 1] items inserted have the same coordinates,
    with a bucket size [1 <= b < 2^32], every builder that the insertions
    produce has the root as its only inner node and one leaf, a child of
    the root, that holds the [k] items in insertion order; the finalised
    tree records [ninners = 1], [nleafs = 1], [maxdepth = 2] (the root is
    at depth 1 and the leaf at depth 2) and the leaf header [n = k].  The
    insertions do produce a builder for every [k <= 2^31]. *)
Theorem C7_coincident_items_share_one_leaf
    f region b (c : vec2) (items : list Item) :
  Forall (fun it => coords it = c) items ->
  1 <= b < 2 ^ 32 -> 1 <= leaf_n items ->
  (forall fuel qt,
     build fuel region b items = Ok qt ->
     exists quad size,
       uf_root qt = single_leaf quad items size /\
       (quad = NW \/ quad = NE \/ quad = SW \/ quad = SE) /\
       levels (uf_root qt) = 2 /\
       qt_maxdepth (qt_finalise qt) = 2 /\
       qt_ninners (qt_finalise qt) = 1 /\
       qt_nleafs (qt_finalise qt) = 1 /\
       qt_size (qt_finalise qt) = leaf_n items /\
       leaf_heads (MEM_LEAFS (qt_finalise qt)) (uf_root qt) = [(sizeof_Inner, items)] /\
       mem_words (qt_finalise qt) !! sizeof_Inner = Some (leaf_n items)) /\
  (leaf_n items <= 2 ^ 31 -> exists qt, build (S (S f)) region b items = Ok qt).
Proof.
  intros Hco Hb Hk. destruct items as [|it0 rest]; [unfold leaf_n in Hk; cbn [length] in Hk; lia|].
  split.
  2:{ intros Hle. destruct (build_coincident f region b c it0 rest Hco Hb Hle)
        as (size & Hbuild & _). eauto. }
  intros fuel qt Hbuild.
  destruct (build_coincident_Ok fuel region b c it0 rest qt Hco Hb Hbuild) as [size Hqt].
  set (quad := quadrant_rule it0 region) in *.
  assert (Hquad : quad = NW \/ quad = NE \/ quad = SW \/ quad = SE)
    by apply quadrant_rule_range.
  assert (Hok : counters_ok qt).
  { unfold build in Hbuild.
    apply (insert_all_counters _ _ _ _ Hbuild (counters_ok_create region b)). }
  destruct (qt_finalise_ok qt Hok) as (_ & Hd & Hi & Hlaid & _).
  destruct (qt_finalise_header qt Hok) as (Hsz & Hl).
  clear Hbuild Hok. subst qt.
  set (qt := coincident_state region b quad (it0 :: rest) size) in *.
  assert (Hheads : leaf_heads (MEM_LEAFS (qt_finalise qt)) (uf_root qt)
                   = [(sizeof_Inner, it0 :: rest)]).
  { unfold MEM_LEAFS, MEM_INNERS. rewrite Hi.
    destruct Hquad as [E | [E | [E | E]]]; subst qt; rewrite E; reflexivity. }
  exists quad, size. split; [reflexivity|].
  split; [exact Hquad|]. split.
  { destruct Hquad as [E | [E | [E | E]]]; subst qt; rewrite E; reflexivity. }
  split; [exact Hd|]. split; [exact Hi|]. split; [exact Hl|]. split; [exact Hsz|].
  split; [exact Hheads|].
  pose proof (laid_out_heads (fun _ _ _ _ => true) (fun _ _ => true)
                (qt_finalise qt) (uf_root qt) 0
                (sizeof_Inner * qt_ninners (qt_finalise qt)) Hlaid) as Hw.
  replace (sizeof_Inner * qt_ninners (qt_finalise qt)) with (MEM_LEAFS (qt_finalise qt)) in Hw
    by (unfold MEM_LEAFS, MEM_INNERS, sizeof_Inner; lia).
  rewrite Hheads in Hw.
  assert (Hall : all_nodes (fun _ _ _ _ => true) (fun _ _ => true) (uf_root qt) = true).
  { destruct Hquad as [E | [E | [E | E]]]; subst qt; rewrite E; reflexivity. }
  specialize (Hw Hall). apply Forall_cons_iff in Hw. destruct Hw as [[Hw _] _]. exact Hw.
Qed.

End CoincidentClaims.

(** ** The array wrappers and the iterator they own *)

Section BulkFacts.

Context {FLOAT : Type} {Hops : FloatOps FLOAT}.

Abbreviation Item := (Item FLOAT).
Abbreviation Quadrant := (Quadrant FLOAT).
Abbreviation QuadTree := (QuadTree FLOAT).
Abbreviation Qt_Iterator := (Qt_Iterator FLOAT).

(** The iterator that returned [NULL] has been freed. *)
Lemma qt_itr_next_None_freed (fuel : nat) : forall (itr itr' : Qt_Iterator),
  qt_itr_next fuel itr = Ok (None, itr') -> itr_freed itr' = true.
Proof.
  induction fuel as [|fuel IH]; intros itr itr'; [discriminate|].
  cbn [qt_itr_next]. destruct (itr_lp itr) as [lp|].
  2:{ unfold free_itr. destruct (itr_freed itr); cbn [bind]; [discriminate|].
      intros [= <-]. reflexivity. }
  destruct (itr_stack itr) as [|fr rest]; [discriminate|].
  destruct (read_word _ _) as [n|e]; cbn [bind]; [|discriminate].
  destruct (wrap64 (n - 1) >=? itr_cur_item itr).
  - destruct (read_item _ _) as [itm|e]; cbn [bind]; [|discriminate]. cbv zeta.
    destruct (in_quadrant itm _); [discriminate | apply IH].
  - destruct rest as [|fr' rest']; [discriminate|].
    destruct (_itr_next_recursive _ _) as [itr1|e]; cbn [bind]; [apply IH | discriminate].
Qed.

(** Without a limit the loop of [qt_query_ary] ends only when
    [qt_itr_next] returns [NULL]. *)
Lemma query_ary_loop_unlimited (fuel : nat) :
  forall (itr itr' : Qt_Iterator) items alloced i items' i',
  query_ary_loop fuel itr items alloced i 0 = Ok (itr', items', i') ->
  itr_freed itr' = true.
Proof.
  induction fuel as [|fuel IH]; intros itr itr' items alloced i items' i'; [discriminate|].
  cbn [query_ary_loop].
  destruct (qt_itr_next fuel itr) as [[r itr1]|e] eqn:Hn; cbn [bind]; [|discriminate].
  destruct (write_entry items alloced i r) as [items1|e]; cbn [bind]; [|discriminate].
  destruct r as [x|].
  - change (0 >? 0) with false. cbn [andb]. apply IH.
  - intros [= <- <- <-]. eapply qt_itr_next_None_freed, Hn.
Qed.

(** [qt_query_ary] without a limit frees the iterator a second time. *)
Lemma qt_query_ary_unlimited (fuel : nat) (T : QuadTree) (Q : Quadrant) r :
  qt_query_ary fuel T Q 0 <> Ok r.
Proof.
  unfold qt_query_ary. cbv zeta.
  destruct (qt_query_itr fuel T Q) as [itr|e]; cbn [bind]; [|discriminate].
  destruct (query_ary_loop fuel itr [] 32 0 0) as [[[itr' items'] i']|e] eqn:Hl;
    cbn [bind]; [|discriminate].
  apply query_ary_loop_unlimited in Hl. unfold free_itr. rewrite Hl. discriminate.
Qed.

End BulkFacts.

(** C9 (what the code does): [qt_query_ary] called with [max_n = 0]
    never returns normally, because the iterator that [qt_itr_next] freed
    when it returned [NULL] is freed again; and [qt_query_ary_fast] called
    with [max_n = 1] on a tree whose two items share a leaf returns both
    items and writes 2 back, since it tests the limit between leaves only. *)
Theorem C9_bulk_wrappers_and_the_limit :
  (forall fuel (T : QuadTree Q) (R : Quadrant Q) r, qt_query_ary fuel T R 0 <> Ok r) /\
  qt_query_ary 20 (qt_finalise pair_builder) (box 0 0 10 10) 0 = Err DoubleFree /\
  qt_query_ary_fast 20 (qt_finalise pair_builder) (box 0 0 10 10) 1
  = Ok ([Some (pt 1 1 1); Some (pt 2 2 2)], 2).
Proof.
  split; [intros fuel T R r; apply qt_query_ary_unlimited|].
  split; vm_compute; reflexivity.
Qed.

(** ** The theorems at work on example trees *)

Lemma C1_demo_full_region_query :
  exists fuel ys,
    query_all fuel (qt_finalise demo_builder) (qt_region (qt_finalise demo_builder)) = Ok ys /\
    Permutation ys demo_items /\ In (pt 4 2 2) ys.
Proof.
  refine (proj1 (C1_full_region_query_yields_each_item_once (FLOAT:=Q)
                   10 (box 0 0 10 10) 2 demo_items demo_builder (pt 4 2 2)
                   _ _ _)).
  - vm_compute. reflexivity.
  - repeat constructor.
  - simpl. tauto.
Defined.

Lemma C2_demo_query_ends :
  exists fuel ys, query_all fuel (qt_finalise demo_builder) (box 0 0 5 5) = Ok ys.
Proof.
  refine (proj2 (C2_query_yields_exactly_the_items_in_region (FLOAT:=Q)
                   10 (box 0 0 10 10) 2 demo_items demo_builder (box 0 0 5 5)
                   _ _) _).
  - vm_compute. reflexivity.
  - repeat constructor.
  - discriminate.
Defined.

Lemma C5_demo_first_descent :
  quadrant_rule (pt 1 1 1) (box 0 0 10 10) = NW \/
  quadrant_rule (pt 1 1 1) (box 0 0 10 10) = NE \/
  quadrant_rule (pt 1 1 1) (box 0 0 10 10) = SW \/
  quadrant_rule (pt 1 1 1) (box 0 0 10 10) = SE.
Proof.
  refine (proj1 (C5_insert_descends_by_midpoint_rule (FLOAT:=Q) 1
                   (qt_create_quadtree (box 0 0 10 10) 2) None None None None
                   (pt 1 1 1) (box 0 0 10 10) 0
                   (mkUFQuadTree (TInner None None None None) (box 0 0 10 10) 0 2 2 1 1)
                   (TInner None None (Some (TLeaf [pt 1 1 1] 2)) None) _)).
  vm_compute. reflexivity.
Defined.


Lemma C7_demo_three_coincident_items :
  exists qt, build 2 (box 0 0 10 10) 1 [pt 1 5 5; pt 2 5 5; pt 3 5 5] = Ok qt.
Proof.
  refine (proj2 (C7_coincident_items_share_one_leaf (FLOAT:=Q) 0 (box 0 0 10 10) 1
                   (inject_Z 5, inject_Z 5) [pt 1 5 5; pt 2 5 5; pt 3 5 5] _ _ _) _).
  - repeat constructor.
  - lia.
  - vm_compute. discriminate.
  - vm_compute. discriminate.
Defined.

(** Three coincident items with bucket size 1: the finalised tree
    records depth 2, not 1; the leaf is one level below the root, which
    is itself counted. *)
Lemma C7_coincident_tree_records_depth_2 :
  exists qt,
    build 2 (box 0 0 10 10) 1 [pt 1 5 5; pt 2 5 5; pt 3 5 5] = Ok qt /\
    qt_maxdepth (qt_finalise qt) = 2 /\ qt_maxdepth (qt_finalise qt) <> 1 /\
    levels (uf_root qt) = 2.
Proof.
  eexists. split; [vm_compute; reflexivity|].
  split; [vm_compute; reflexivity|]. split; [vm_compute; discriminate|].
  vm_compute. reflexivity.
Qed.

Lemma C8_demo_inner_nodes :
  inners_have_child (uf_root demo_builder) = true.
Proof.
  refine (proj1 (C8_inner_nodes_have_a_child_after_an_insert (FLOAT:=Q)
                   10 (box 0 0 10 10) 2 demo_items demo_builder _) _).
  - vm_compute. reflexivity.
  - discriminate.
Defined.

(** The root of a builder without insertion has no child. *)
Lemma C8_empty_builder_root_has_no_child :
  build 0 (box 0 0 10 10) 4 [] = Ok (qt_create_quadtree (box 0 0 10 10) 4) /\
  inners_have_child (uf_root (qt_create_quadtree (box 0 0 10 10) 4)) = false.
Proof. split; reflexivity. Qed.

Lemma C10_demo_leaves :
  leaves_nonempty (uf_root demo_builder) = true.
Proof.
  refine (proj1 (C10_leaves_hold_at_least_one_item (FLOAT:=Q)
                   10 (box 0 0 10 10) 2 demo_items demo_builder _)).
  vm_compute. reflexivity.
Defined.

(** * Further properties of the code *)

(** ** Regions *)

Section RegionFacts.

Context {FLOAT : Type} {Hops : FloatOps FLOAT} {Hord : FloatOrder FLOAT}.

Abbreviation Item := (Item FLOAT).
Abbreviation Quadrant := (Quadrant FLOAT).

Lemma CONTAINED_sound (inner outer : Quadrant) (it : Item) :
  CONTAINED inner outer = true ->
  in_quadrant it inner = true -> in_quadrant it outer = true.
Proof.
  unfold CONTAINED, in_quadrant. rewrite !andb_true_iff.
  intros (((C1 & C2) & C3) & C4) (((I1 & I2) & I3) & I4).
  repeat split; eapply fle_trans; eassumption.
Qed.

(** X1: [CONTAINED(inner, outer)] is sound for the membership test: when it
    holds, every item inside [inner] is inside [outer]. *)
Theorem CONTAINED_in_quadrant (inner outer : Quadrant) (it : Item) :
  CONTAINED inner outer = true ->
  in_quadrant it inner = true -> in_quadrant it outer = true.
Proof. apply CONTAINED_sound. Qed.

(** X2: [OVERLAP] does not depend on the order of its arguments, and it holds
    whenever some item lies inside both regions: a quadrant the iterator
    skips for a query region holds no item of that region. *)
Theorem OVERLAP_symmetric_and_complete (qA qB : Quadrant) :
  OVERLAP qA qB = OVERLAP qB qA /\
  forall it : Item,
    in_quadrant it qA = true -> in_quadrant it qB = true -> OVERLAP qA qB = true.
Proof.
  split.
  - unfold OVERLAP. apply andb_comm.
  - intros it. apply in_both_overlap.
Qed.

(** X3: The quadrant that [_qt_insert] narrows to at an inner node still
    contains the item, so that [assert(in_quadrant(item, q))] holds again
    at the recursive call; and it is the sub-quadrant that
    [_gen_quadrants] computes for the child slot chosen. *)
Theorem classify_keeps_item_inside (item : Item) (q : Quadrant) :
  in_quadrant item q = true ->
  in_quadrant item (snd (classify item q)) = true /\
  get4 (_gen_quadrants q) (fst (classify item q)) = Some (snd (classify item q)).
Proof.
  intros Hin. split; [apply classify_in; exact Hin|].
  rewrite classify_fst. apply classify_snd.
Qed.

End RegionFacts.

(** ** The comparison of items *)

Section CompareFacts.

Context {FLOAT : Type} {Hops : FloatOps FLOAT}.

Abbreviation Item := (Item FLOAT).

Lemma _FLOATcmp_sign (a b : FLOAT) :
  _FLOATcmp a b = -1 \/ _FLOATcmp a b = 0 \/ _FLOATcmp a b = 1.
Proof. unfold _FLOATcmp. destruct (flt b a), (flt a b); simpl; lia. Qed.

(** X4: [_itemcmp] returns -1, 0 or 1, as its assertions say: the sign of the
    comparison of the x coordinates, and that of the y coordinates when
    the x coordinates compare equal; swapping the arguments negates it. *)
Theorem _itemcmp_is_a_sign (a b : Item) :
  let wrtx := _FLOATcmp (at_ (coords a) X) (at_ (coords b) X) in
  let wrty := _FLOATcmp (at_ (coords a) Y) (at_ (coords b) Y) in
  let v := _itemcmp a b in
  (v = -1 \/ v = 0 \/ v = 1) /\
  (wrtx > 0 -> v = 1) /\ (wrtx = 0 -> v = wrty) /\ (wrtx < 0 -> v = -1) /\
  _itemcmp b a = - v.
Proof.
  cbv zeta. unfold _itemcmp. cbv zeta.
  pose proof (_FLOATcmp_sign (at_ (coords a) X) (at_ (coords b) X)) as Hx.
  pose proof (_FLOATcmp_sign (at_ (coords a) Y) (at_ (coords b) Y)) as Hy.
  assert (Ex : _FLOATcmp (at_ (coords b) X) (at_ (coords a) X)
               = - _FLOATcmp (at_ (coords a) X) (at_ (coords b) X))
    by (unfold _FLOATcmp; lia).
  assert (Ey : _FLOATcmp (at_ (coords b) Y) (at_ (coords a) Y)
               = - _FLOATcmp (at_ (coords a) Y) (at_ (coords b) Y))
    by (unfold _FLOATcmp; lia).
  rewrite Ex, Ey.
  set (wx := _FLOATcmp (at_ (coords a) X) (at_ (coords b) X)) in *.
  set (wy := _FLOATcmp (at_ (coords a) Y) (at_ (coords b) Y)) in *.
  destruct (Z.eqb_spec wx 0) as [E0|E0], (Z.eqb_spec (- wx) 0) as [E1|E1];
    try lia; simpl Z.b2z; repeat split; try lia.
Qed.

End CompareFacts.

(** ** The builder *)

Section BuilderInvariants.

Context {FLOAT : Type} {Hops : FloatOps FLOAT}.

Abbreviation Item := (Item FLOAT).
Abbreviation Quadrant := (Quadrant FLOAT).
Abbreviation TransNode := (TransNode FLOAT).
Abbreviation UFQuadTree := (UFQuadTree FLOAT).

Lemma build_maxfill fuel region maxfill (items : list Item) (qt : UFQuadTree) :
  build fuel region maxfill items = Ok qt -> uf_maxfill qt = wrap32 maxfill.
Proof.
  intros Hb. unfold build in Hb.
  eapply (insert_all_shape (fun _ _ _ _ => true) leaf_ok bucket_ok (wrap32 maxfill))
    in Hb as (Hmf & _); try reflexivity; auto.
  - unfold bucket_ok, leaf_n, wrap32. simpl.
    pose proof (Z.mod_pos_bound maxfill (2 ^ 32) ltac:(lia)).
    apply andb_true_iff. split; [apply Z.leb_le | apply Z.ltb_lt]; lia.
  - unfold leaf_ok. intros l size Hl. apply andb_true_iff in Hl. tauto.
  - intros l size size' item Hl Hlt Hs.
    unfold leaf_ok, bucket_ok, leaf_n in *. rewrite length_app. simpl.
    rewrite !andb_true_iff in *. destruct Hl as [Hl1 Hl2].
    apply Z.leb_le in Hl1. apply Z.ltb_lt in Hl2.
    assert (size' < 2 ^ 32).
    { destruct Hs as [-> | ->]; [exact Hl2|].
      unfold wrap32. apply Z.mod_pos_bound. lia. }
    repeat split; [apply Z.leb_le | apply Z.leb_le | apply Z.ltb_lt]; lia.
Qed.

(** X5: The builder tree holds exactly the items inserted, each as often as
    it was inserted: no insertion, split or capacity doubling loses or
    duplicates an item. *)
Theorem build_keeps_the_items fuel region maxfill (items : list Item) (qt : UFQuadTree) :
  build fuel region maxfill items = Ok qt ->
  Permutation (items_of (uf_root qt)) items.
Proof. apply build_items. Qed.

(** X6: The bookkeeping of the builder is exact: [size] is the number of
    insertions, [ninners] and [nleafs] are the numbers of inner nodes and of
    leaves of the tree, and the region and the bucket size (as an
    [unsigned int]) are those given to [qt_create_quadtree]. *)
Theorem build_counters_are_exact
    fuel region maxfill (items : list Item) (qt : UFQuadTree) :
  build fuel region maxfill items = Ok qt ->
  uf_region qt = region /\
  uf_maxfill qt = wrap32 maxfill /\
  uf_size qt = Z.of_nat (length items) /\
  uf_ninners qt = count_inners (uf_root qt) /\
  uf_nleafs qt = count_leafs (uf_root qt).
Proof.
  intros Hb. pose proof (build_maxfill _ _ _ _ _ Hb) as Hmf.
  destruct (insert_all_header _ _ _ _ Hb) as [Hr Hs].
  destruct (insert_all_counters _ _ _ _ Hb (counters_ok_create region maxfill))
    as [(_ & Hni & Hnl & _) _].
  simpl in Hr, Hs. auto.
Qed.

(** X7: No bucket is over its capacity: every leaf of the builder tree holds
    at most [size] items, the number of entries allocated for it. *)
Theorem build_buckets_within_capacity
    fuel region maxfill (items : list Item) (qt : UFQuadTree) :
  build fuel region maxfill items = Ok qt ->
  buckets_ok (uf_root qt) = true.
Proof.
  intros Hb. destruct items as [|it0 rest].
  { injection Hb as <-. reflexivity. }
  apply build_leaves_ok in Hb; [|discriminate].
  eapply all_nodes_impl; [| |exact Hb]; auto.
  unfold leaf_ok. intros l size Hl. apply andb_true_iff in Hl. tauto.
Qed.

(** *** [maxdepth] is the height of the tree *)

Lemma levels_set_child_lower (node c' : TransNode) i :
  is_inner node = true -> (i = NW \/ i = NE \/ i = SW \/ i = SE) ->
  1 + levels c' <= levels (set_child node i c') /\
  (opt_Z levels (child node i) <= levels c' -> levels node <= levels (set_child node i c')).
Proof.
  destruct node as [c0 c1 c2 c3|]; [|discriminate].
  intros _ [-> | [-> | [-> | ->]]]; simpl; lia.
Qed.

Section DepthStep.

Variable rec :
  UFQuadTree -> TransNode -> Item -> Quadrant -> Z -> result (UFQuadTree * TransNode).
Hypothesis rec_depth : forall qt node item q depth qt' node',
  rec qt node item q depth = Ok (qt', node') -> depth_step qt node depth qt' node'.

Lemma insert_inner_depth (qt : UFQuadTree) node item q depth qt' node' :
  is_inner node = true ->
  insert_inner rec qt node item q depth = Ok (qt', node') ->
  depth_step qt node (depth - 1) qt' node'.
Proof.
  intros Hin (qtc & c & c' & Hc & Hrec & ->)%insert_inner_inv.
  rewrite classify_fst in *.
  apply rec_depth in Hrec as (Hmd & Hlv).
  destruct (levels_set_child_lower node c' _ Hin (quadrant_rule_range item q))
    as (Hl1 & Hl2).
  unfold depth_step.
  destruct Hc as [[Hc ->] | [Hc Hi]].
  - rewrite Hc in Hl2. simpl in Hl2. split; [lia | auto].
  - unfold _init_leaf_node in Hi. injection Hi as -> ->.
    rewrite Hc in Hl2. simpl in *. pose proof (levels_pos c'). split; [lia|].
    apply Hl2. lia.
Qed.

Lemma reinsert_depth items : forall (qt : UFQuadTree) node q depth qt' node',
  reinsert rec qt node items q depth = Ok (qt', node') ->
  depth_step qt node (depth - 1) qt' node'.
Proof.
  induction items as [|it rest IH]; intros qt node q depth qt' node' Hre.
  - injection Hre as <- <-. unfold depth_step. lia.
  - apply reinsert_inv in Hre as (qt1 & node1 & Hins & Hre).
    apply rec_depth in Hins as (Hmd & Hlv). apply IH in Hre as (Hmd' & Hlv').
    unfold depth_step. lia.
Qed.

End DepthStep.

Lemma _qt_insert_depth fuel : forall (qt : UFQuadTree) node item q depth qt' node',
  _qt_insert fuel qt node item q depth = Ok (qt', node') ->
  depth_step qt node depth qt' node'.
Proof.
  induction fuel as [|fuel IH]; intros qt node item q depth qt' node' Hins; [discriminate|].
  destruct (bump_maxdepth_fields qt (depth + 1)) as (Hb1 & Hb2 & Hb3).
  apply _qt_insert_cases in Hins as [[Hin Hi] | [Hl | Hs]].
  - apply (insert_inner_depth _ IH) in Hi as (Hmd & Hlv); auto.
    pose proof (levels_pos node) as Hpos.
    replace (depth + 1 - 1) with depth in Hmd by lia. unfold depth_step. lia.
  - destruct Hl as (items & size & size' & -> & _ & _ & -> & ->).
    unfold depth_step. simpl. lia.
  - destruct Hs as (items & size & qt2 & node2 & -> & _ & _ & Hre & Hin2 & Hi).
    apply (reinsert_depth _ IH) in Hre as (Hmd & Hlv).
    apply (insert_inner_depth _ IH) in Hi as (Hmd' & Hlv'); auto.
    unfold depth_step. simpl in *. replace (depth + 1 - 1) with depth in * by lia.
    pose proof (levels_pos node'). lia.
Qed.

Lemma insert_all_depth fuel items : forall (qt qt' : UFQuadTree),
  insert_all fuel qt items = Ok qt' ->
  uf_maxdepth qt <= levels (uf_root qt) -> uf_maxdepth qt' <= levels (uf_root qt').
Proof.
  induction items as [|it rest IH]; intros qt qt' Hall Hle.
  - injection Hall as <-. exact Hle.
  - simpl in Hall. apply bind_Ok in Hall as (qt1 & Hins & Hall).
    unfold qt_insert in Hins.
    apply bind_Ok in Hins as ([qt2 root] & Hins & Heq). injection Heq as <-.
    apply _qt_insert_depth in Hins as (Hmd & Hlv). simpl in *.
    apply IH in Hall; [exact Hall|]. simpl. lia.
Qed.

(** X8: After at least one insertion [maxdepth] is exactly the number of
    levels of the tree, the root being level 1: the deepest node was
    entered by a call of [_qt_insert], and every call of [_qt_insert]
    enters a node that is in the tree at the end. *)
Theorem build_maxdepth_is_the_height
    fuel region maxfill (items : list Item) (qt : UFQuadTree) :
  build fuel region maxfill items = Ok qt -> items <> [] ->
  uf_maxdepth qt = levels (uf_root qt).
Proof.
  intros Hb Hne.
  destruct (insert_all_counters _ _ _ _ Hb (counters_ok_create region maxfill))
    as [_ Hlv]. specialize (Hlv Hne).
  apply insert_all_depth in Hb; [lia|]. simpl. lia.
Qed.

End BuilderInvariants.

(** ** The finaliser *)

Section FinaliserInvariants.

Context {FLOAT : Type} {Hops : FloatOps FLOAT}.

Abbreviation Item := (Item FLOAT).
Abbreviation Quadrant := (Quadrant FLOAT).
Abbreviation TransNode := (TransNode FLOAT).
Abbreviation UFQuadTree := (UFQuadTree FLOAT).
Abbreviation QuadTree := (QuadTree FLOAT).
Abbreviation FinaliseState := (FinaliseState FLOAT).

Lemma copy_items_header (items : list Item) : forall (qt : QuadTree) leaf i,
  header_of (copy_items qt leaf i items) = header_of qt.
Proof.
  induction items as [|it rest IH]; intros qt leaf i; [reflexivity|].
  cbn [copy_items]. rewrite IH. reflexivity.
Qed.

Lemma _qt_finalise_header (node : TransNode) : forall st : FinaliseState,
  header_of (fs_quadtree (_qt_finalise st node)) = header_of (fs_quadtree st).
Proof.
  induction node as [c0 c1 c2 c3 H0 H1 H2 H3 | items size] using TransNode_ind';
    intros st.
  - assert (Hchild : forall c inner i (s : FinaliseState),
      opt_Prop (fun n => forall st : FinaliseState,
        header_of (fs_quadtree (_qt_finalise st n)) = header_of (fs_quadtree st)) c ->
      header_of (fs_quadtree (finalise_child _qt_finalise inner i c s))
      = header_of (fs_quadtree s)).
    { intros [n|] inner i s IH; cbn [finalise_child]; [|reflexivity].
      cbv zeta. rewrite IH. reflexivity. }
    cbn [_qt_finalise]. cbv zeta. rewrite !Hchild by assumption. reflexivity.
  - cbn [_qt_finalise]. unfold _qt_finalise_leaf. cbn [fs_quadtree].
    rewrite copy_items_header. reflexivity.
Qed.

(** X9: [qt_finalise] copies the header of the builder, whatever the tree:
    region, item count, [maxdepth] and the two node counts. *)
Theorem qt_finalise_copies_the_header (qt_ : UFQuadTree) :
  qt_region (qt_finalise qt_) = uf_region qt_ /\
  qt_size (qt_finalise qt_) = uf_size qt_ /\
  qt_maxdepth (qt_finalise qt_) = uf_maxdepth qt_ /\
  qt_ninners (qt_finalise qt_) = uf_ninners qt_ /\
  qt_nleafs (qt_finalise qt_) = uf_nleafs qt_.
Proof.
  unfold qt_finalise. cbv zeta.
  set (st := mkFinaliseState _ _ _ _).
  pose proof (_qt_finalise_header (uf_root qt_) st) as H.
  unfold header_of in H. simpl in H. injection H as -> -> -> -> ->. auto.
Qed.

(** *** The buffer is large enough *)

Lemma within_store_word B (T : QuadTree) a v :
  0 <= a -> a + 8 <= B -> within_buffer B T -> within_buffer B (store_word T a v).
Proof.
  intros H0 H1 [Hw Hi]. split; [|exact Hi].
  intros x y. cbn [store_word mem_words].
  destruct (decide (x = a)) as [->|Hne];
    [intros _; lia | rewrite lookup_insert_ne by congruence; apply Hw].
Qed.

Lemma within_copy_items B (items : list Item) : forall (T : QuadTree) leaf i,
  0 <= leaf + sizeof_Leaf + sizeof_Item * i ->
  leaf + sizeof_Leaf + sizeof_Item * (i + leaf_n items) <= B ->
  within_buffer B T -> within_buffer B (copy_items T leaf i items).
Proof.
  unfold sizeof_Leaf, sizeof_Item.
  induction items as [|it rest IH]; intros T leaf i H0 H1 HT; [exact HT|].
  cbn [copy_items]. unfold leaf_n in *. cbn [length] in H1.
  apply IH; [unfold sizeof_Leaf, sizeof_Item; lia .. |].
  destruct HT as [Hw Hi]. split; [exact Hw|].
  intros x y. cbn [store_item mem_items]. unfold sizeof_Leaf, sizeof_Item.
  destruct (decide (x = leaf + 8 + 24 * i)) as [->|Hne];
    [intros _; lia | rewrite lookup_insert_ne by congruence; apply Hi].
Qed.

Lemma finalise_child_within B (c : option TransNode) inner i (st : FinaliseState) :
  opt_Prop (fun n => forall st : FinaliseState,
              finalise_pre B st n -> within_buffer B (fs_quadtree st) ->
              within_buffer B (fs_quadtree (_qt_finalise st n))) c ->
  0 <= inner + 8 * i -> inner + 8 * i + 8 <= B ->
  0 <= fs_ninners st ->
  sizeof_Inner * (fs_ninners st + opt_Z count_inners c) <= fs_next_leaf st ->
  fs_next_leaf st + opt_Z leaf_bytes c <= B ->
  within_buffer B (fs_quadtree st) ->
  within_buffer B (fs_quadtree (finalise_child _qt_finalise inner i c st)).
Proof.
  intros IH H0 H1 Hk HL HB HT. destruct c as [n|]; cbn [finalise_child opt_Prop] in *.
  - cbv zeta. apply IH.
    + unfold finalise_pre, fs_store_word, addr_of. simpl in *. auto.
    + unfold fs_store_word. cbn [fs_quadtree]. apply within_store_word; auto.
  - unfold fs_store_word. cbn [fs_quadtree]. apply within_store_word; auto.
Qed.

Lemma finalise_within B (node : TransNode) : forall st : FinaliseState,
  finalise_pre B st node -> within_buffer B (fs_quadtree st) ->
  within_buffer B (fs_quadtree (_qt_finalise st node)).
Proof.
  induction node as [c0 c1 c2 c3 H0 H1 H2 H3 | items size] using TransNode_ind';
    intros st (Hcur & Hk & HL & HB) HT.
  - unfold addr_of in Hcur. simpl in Hcur, HL, HB.
    cbn [_qt_finalise]. cbv zeta. rewrite Hcur.
    set (k := fs_ninners st) in *. set (L := fs_next_leaf st) in *.
    set (a := MEM_INNERS + sizeof_Inner * k).
    set (st1 := mkFinaliseState _ _ _ _).
    destruct (opt_counts_nonneg c0) as [n0 b0], (opt_counts_nonneg c1) as [n1 b1],
      (opt_counts_nonneg c2) as [n2 b2], (opt_counts_nonneg c3) as [n3 b3].
    assert (Hspec : forall c : option TransNode, opt_Prop finalise_ok c)
      by (intros [n|]; simpl; [apply finalise_spec | exact I]).
    unfold MEM_INNERS, sizeof_Inner in *.
    destruct (finalise_child_ok c0 a 0 st1 (Hspec c0)) as (N1 & L1 & _);
      [subst st1 a; simpl; unfold sizeof_Inner; lia ..|].
    set (st2 := finalise_child _qt_finalise a 0 c0 st1) in *.
    destruct (finalise_child_ok c1 a 1 st2 (Hspec c1)) as (N2 & L2 & _);
      [rewrite ?N1, ?L1; subst st1 a; simpl; unfold sizeof_Inner; lia ..|].
    set (st3 := finalise_child _qt_finalise a 1 c1 st2) in *.
    destruct (finalise_child_ok c2 a 2 st3 (Hspec c2)) as (N3 & L3 & _);
      [rewrite ?N2, ?L2, ?N1, ?L1; subst st1 a; simpl; unfold sizeof_Inner; lia ..|].
    set (st4 := finalise_child _qt_finalise a 2 c2 st3) in *.
    assert (E1 : fs_ninners st1 = k + 1) by reflexivity.
    assert (E2 : fs_next_leaf st1 = L) by reflexivity.
    apply finalise_child_within;
      [exact H3 | subst a; lia | subst a; lia | unfold sizeof_Inner; lia ..|].
    apply finalise_child_within;
      [exact H2 | subst a; lia | subst a; lia | unfold sizeof_Inner; lia ..|].
    apply finalise_child_within;
      [exact H1 | subst a; lia | subst a; lia | unfold sizeof_Inner; lia ..|].
    apply finalise_child_within;
      [exact H0 | subst a; lia | subst a; lia | unfold sizeof_Inner; lia ..|].
    exact HT.
  - unfold addr_of in Hcur. simpl in Hcur, HL, HB.
    cbn [_qt_finalise]. unfold _qt_finalise_leaf. cbn [fs_quadtree]. rewrite Hcur.
    unfold sizeof_Inner, sizeof_Leaf, sizeof_Item, leaf_n in *.
    apply within_copy_items; [unfold sizeof_Leaf, sizeof_Item, leaf_n; lia .. |].
    apply within_store_word; [lia | lia | exact HT].
Qed.

Lemma leaf_bytes_counts (node : TransNode) :
  leaf_bytes node =
  sizeof_Leaf * count_leafs node + sizeof_Item * Z.of_nat (length (items_of node)).
Proof.
  induction node as [c0 c1 c2 c3 H0 H1 H2 H3 | items size] using TransNode_ind'.
  - cbn [leaf_bytes count_leafs items_of]. rewrite !length_app.
    assert (Hc : forall c : option TransNode,
      opt_Prop (fun n => leaf_bytes n = sizeof_Leaf * count_leafs n
                         + sizeof_Item * Z.of_nat (length (items_of n))) c ->
      opt_Z leaf_bytes c = sizeof_Leaf * opt_Z count_leafs c
                           + sizeof_Item * Z.of_nat (length (opt_list items_of c))).
    { intros [n|] H; simpl; [exact H | lia]. }
    rewrite (Hc c0 H0), (Hc c1 H1), (Hc c2 H2), (Hc c3 H3). lia.
  - simpl. unfold leaf_n. lia.
Qed.

(** X10: [qt_finalise] writes only inside the buffer it allocates: every
    child link, leaf header and item lies entirely within the
    [_mem_size(qt_)] bytes, after the header [struct QuadTree]. *)
Theorem qt_finalise_stays_in_the_buffer
    fuel region maxfill (items : list Item) (qt : UFQuadTree) (sizeof_QuadTree : Z) :
  build fuel region maxfill items = Ok qt ->
  within_buffer (_mem_size sizeof_QuadTree qt - sizeof_QuadTree) (qt_finalise qt).
Proof.
  intros Hb.
  destruct (insert_all_counters _ _ _ _ Hb (counters_ok_create region maxfill))
    as [(Hin & Hni & Hnl & _) _].
  destruct (insert_all_header _ _ _ _ Hb) as [_ Hs]. simpl in Hs.
  pose proof (Permutation_length (build_items _ _ _ _ _ Hb)) as Hlen.
  pose proof (leaf_bytes_counts (uf_root qt)) as Hbytes.
  destruct (counts_nonneg (uf_root qt)) as [Hc0 Hc1].
  unfold qt_finalise. cbv zeta. apply finalise_within.
  - unfold finalise_pre, addr_of, _mem_size, MEM_LEAFS, MEM_INNERS. rewrite Hin. simpl.
    rewrite Hbytes, Hlen, Hni, Hnl, Hs. unfold sizeof_Inner, sizeof_Leaf, sizeof_Item.
    repeat split; lia.
  - split; intros a x; simpl; rewrite lookup_empty; discriminate.
Qed.

(** *** The buffer holds the tree *)

Lemma at_node_stored (T : QuadTree) (node : TransNode) : forall k L,
  at_node T k L node -> stored T (addr_of node k L) node.
Proof.
  induction node as [c0 c1 c2 c3 H0 H1 H2 H3 | items size] using TransNode_ind';
    intros k L Hat.
  - assert (Hslot : forall i c,
      0 <= i < QUAD -> child (TInner c0 c1 c2 c3) i = c ->
      opt_Prop (fun n => forall k L, at_node T k L n -> stored T (addr_of n k L) n) c ->
      stored_slot (stored T) T (MEM_INNERS + sizeof_Inner * k + 8 * i) c).
    { intros i c Hi Hc IH.
      destruct (slot_info T (qt_region T) k L (qt_region T) c0 c1 c2 c3 i Hat Hi)
        as (_ & _ & _ & Hchild).
      rewrite Hc in Hchild. destruct c as [n|]; cbn [stored_slot opt_Prop] in *.
      - destruct Hchild as (k' & L' & Hw & Hoff & Hat' & _).
        exists (addr_of n k' L'). unfold read_word. rewrite Hw.
        split; [reflexivity|]. split; [exact Hoff|].
        unfold MEM_INNERS at 1. rewrite Z.add_0_l. apply IH. exact Hat'.
      - unfold read_word. rewrite Hchild. reflexivity. }
    cbn [stored]. unfold addr_of. cbn [is_inner]. split.
    + destruct Hat as (_ & Hk & Htot & _). cbn [count_inners] in Htot.
      destruct (opt_counts_nonneg c0), (opt_counts_nonneg c1), (opt_counts_nonneg c2),
        (opt_counts_nonneg c3).
      unfold IS_LEAF, MEM_LEAFS, MEM_INNERS, sizeof_Inner. apply Z.leb_gt. lia.
    + repeat split; apply Hslot; unfold QUAD, NW, NE, SW, SE;
        try lia; try reflexivity; assumption.
  - destruct Hat as ((Hn & Hit) & _ & _ & HL). cbn [stored]. unfold addr_of. cbn [is_inner].
    split; [unfold IS_LEAF, MEM_LEAFS, MEM_INNERS, sizeof_Inner in *; apply Z.leb_le; lia|].
    split; [unfold read_word; rewrite Hn; reflexivity|].
    intros j it Hj. unfold read_item. rewrite (Hit j it Hj). reflexivity.
Qed.

Lemma stored_unique (T : QuadTree) (n1 : TransNode) : forall a n2,
  stored T a n1 -> stored T a n2 -> forget_size n1 = forget_size n2.
Proof.
  induction n1 as [c0 c1 c2 c3 H0 H1 H2 H3 | items size] using TransNode_ind';
    intros a [d0 d1 d2 d3 | items' size'] S1 S2; cbn [stored] in S1, S2.
  - assert (Hslot : forall w c d,
      opt_Prop (fun n => forall a n2, stored T a n -> stored T a n2 ->
                         forget_size n = forget_size n2) c ->
      stored_slot (stored T) T w c -> stored_slot (stored T) T w d ->
      option_map forget_size c = option_map forget_size d).
    { intros w [n|] [m|] IH Sc Sd; cbn [stored_slot opt_Prop option_map] in *.
      - destruct Sc as (off & Hr & _ & Sn), Sd as (off' & Hr' & _ & Sm).
        rewrite Hr in Hr'. injection Hr' as <-. f_equal. eapply IH; eassumption.
      - destruct Sc as (off & Hr & Hne & _). congruence.
      - destruct Sd as (off & Hr & Hne & _). congruence.
      - reflexivity. }
    destruct S1 as (_ & A0 & A1 & A2 & A3), S2 as (_ & B0 & B1 & B2 & B3).
    cbn [forget_size]. f_equal; eapply Hslot; eassumption.
  - destruct S1 as (E1 & _), S2 as (E2 & _). congruence.
  - destruct S1 as (E1 & _), S2 as (E2 & _). congruence.
  - destruct S1 as (_ & N1 & I1), S2 as (_ & N2 & I2). cbn [forget_size]. f_equal.
    rewrite N1 in N2. injection N2 as Hlen. unfold leaf_n in Hlen.
    apply nth_error_ext. intros j.
    destruct (nth_error items j) as [x|] eqn:Hx.
    + destruct (nth_error items' j) as [y|] eqn:Hy.
      * specialize (I1 j x Hx). specialize (I2 j y Hy). congruence.
      * apply nth_error_None in Hy.
        assert (j < length items)%nat by (apply nth_error_Some; congruence). lia.
    + apply nth_error_None in Hx. symmetry. apply nth_error_None. lia.
Qed.

(** X11: The buffer of [qt_finalise], read from [MEM_ROOT] along the child
    offsets, holds the tree of the builder, and no other tree: inner
    nodes before [MEM_LEAFS] with 0 for a [NULL] child, leaves after it
    with their count and their items in bucket order.  Only the
    capacities of the buckets are not recorded. *)
Theorem qt_finalise_stores_the_tree
    fuel region maxfill (items : list Item) (qt : UFQuadTree) :
  build fuel region maxfill items = Ok qt ->
  stored (qt_finalise qt) MEM_ROOT (uf_root qt) /\
  forall node : TransNode,
    stored (qt_finalise qt) MEM_ROOT node -> forget_size node = forget_size (uf_root qt).
Proof.
  intros Hb.
  destruct (insert_all_counters _ _ _ _ Hb (counters_ok_create region maxfill))
    as [Hok _].
  destruct (qt_finalise_ok qt Hok) as (_ & _ & _ & Hat).
  pose proof Hok as (Hin & _).
  apply at_node_stored in Hat. unfold addr_of in Hat. rewrite Hin in Hat.
  change (MEM_INNERS + sizeof_Inner * 0) with MEM_ROOT in Hat.
  split; [exact Hat|]. intros node Hnode. eapply stored_unique; eassumption.
Qed.

End FinaliserInvariants.

(** ** The iterator *)

Section IteratorInvariants.

Context {FLOAT : Type} {Hops : FloatOps FLOAT}.

Abbreviation Item := (Item FLOAT).
Abbreviation Quadrant := (Quadrant FLOAT).
Abbreviation QuadTree := (QuadTree FLOAT).
Abbreviation Qt_Itr_Frame := (Qt_Itr_Frame FLOAT).
Abbreviation Qt_Iterator := (Qt_Iterator FLOAT).

Lemma at_RECURSE_freed (loop : Qt_Iterator -> result Qt_Iterator) (itr itr' : Qt_Iterator) :
  (forall i i', loop i = Ok i' -> itr_freed i' = itr_freed i) ->
  at_RECURSE loop itr = Ok itr' -> itr_freed itr' = itr_freed itr.
Proof.
  intros Hloop. unfold at_RECURSE. destruct (itr_stack itr) as [|fr rest]; [discriminate|].
  destruct (IS_LEAF _ _); [intros [= <-]; reflexivity | apply Hloop].
Qed.

Lemma itr_loop_freed (fuel : nat) : forall (itr itr' : Qt_Iterator),
  itr_loop fuel itr = Ok itr' -> itr_freed itr' = itr_freed itr.
Proof.
  induction fuel as [|fuel IH]; intros itr itr'; [discriminate|].
  cbn [itr_loop]. destruct (itr_stack itr) as [|fr rest]; [intros [= <-]; reflexivity|].
  destruct (fr_quadrant fr =? QUAD).
  { destruct rest as [|fr' rest']; intros Hl; apply IH in Hl; exact Hl. }
  destruct (read_word _ _) as [off|e]; cbn [bind]; [|discriminate].
  destruct (off =? ROOT); [intros Hl; apply IH in Hl; exact Hl|].
  destruct (get4 _ _) as [q|]; [|discriminate].
  destruct (OVERLAP _ _); [|intros Hl; apply IH in Hl; exact Hl].
  unfold enter_child. destruct (_ <? _); cbn [bind]; [|discriminate].
  intros Hl. apply at_RECURSE_freed in Hl; [exact Hl | exact IH].
Qed.

Lemma qt_itr_next_freed (fuel : nat) : forall (itr itr' : Qt_Iterator) r,
  qt_itr_next fuel itr = Ok (r, itr') -> itr_freed itr = false ->
  itr_freed itr' = match r with None => true | Some _ => false end.
Proof.
  induction fuel as [|fuel IH]; intros itr itr' r; [discriminate|].
  cbn [qt_itr_next]. destruct (itr_lp itr) as [lp|].
  2:{ unfold free_itr. destruct (itr_freed itr); cbn [bind]; [discriminate|].
      intros [= <- <-] _. reflexivity. }
  destruct (itr_stack itr) as [|fr rest]; [discriminate|].
  destruct (read_word _ _) as [n|e]; cbn [bind]; [|discriminate].
  destruct (wrap64 (n - 1) >=? itr_cur_item itr).
  - destruct (read_item _ _) as [itm|e]; cbn [bind]; [|discriminate]. cbv zeta.
    destruct (in_quadrant itm _).
    + intros [= <- <-] Hf. exact Hf.
    + intros Hn Hf. eapply IH; [exact Hn | exact Hf].
  - destruct rest as [|fr' rest']; [discriminate|].
    destruct (_itr_next_recursive _ _) as [itr1|e] eqn:Hr; cbn [bind]; [|discriminate].
    apply (at_RECURSE_freed _ _ _ (itr_loop_freed fuel)) in Hr. cbn [set_stack itr_freed] in Hr.
    intros Hn Hf. eapply IH; [exact Hn | congruence].
Qed.

(** X12: [qt_itr_next] frees the iterator exactly when it returns [NULL]: an
    iterator that returned an item is still allocated, and the one that
    returned [NULL] must not be used or freed again. *)
Theorem qt_itr_next_frees_exactly_at_NULL
    (fuel : nat) (itr itr' : Qt_Iterator) (r : option Item) :
  qt_itr_next fuel itr = Ok (r, itr') -> itr_freed itr = false ->
  (itr_freed itr' = true <-> r = None) /\
  (r = None -> free_itr itr' = Err DoubleFree).
Proof.
  intros Hn Hf. pose proof (qt_itr_next_freed fuel itr itr' r Hn Hf) as H.
  split.
  - destruct r; rewrite H; split; congruence.
  - intros ->. unfold free_itr. rewrite H. reflexivity.
Qed.

End IteratorInvariants.

(** ** With a total order on the coordinates *)

Section OrderedInvariants.

Context {FLOAT : Type} {Hops : FloatOps FLOAT} {Hord : FloatOrder FLOAT}.

Abbreviation Item := (Item FLOAT).
Abbreviation Quadrant := (Quadrant FLOAT).
Abbreviation TransNode := (TransNode FLOAT).
Abbreviation UFQuadTree := (UFQuadTree FLOAT).

(** X13: When the items inserted lie in the region of the builder, every item
    of the tree lies in the quadrant of every node above it, the
    quadrants being those that [_gen_quadrants] derives from the region:
    each item is in the leaf where the descent by midpoints looks for it. *)
Theorem build_items_are_located
    fuel region maxfill (items : list Item) (qt : UFQuadTree) :
  build fuel region maxfill items = Ok qt ->
  Forall (fun it => in_quadrant it region = true) items ->
  located region (uf_root qt).
Proof. apply build_located. Qed.

(** X14: A query returns the items of the region in a fixed order: the leaves
    are visited depth first, the children of a node in the order NW, NE,
    SW, SE, and the items of a leaf come in the order of their insertion
    into the bucket. *)
Theorem query_follows_the_order_of_the_leaves
    fuel0 region maxfill (items : list Item) (qt : UFQuadTree) (Q : Quadrant) :
  build fuel0 region maxfill items = Ok qt ->
  Forall (fun it => in_quadrant it region = true) items ->
  items <> [] ->
  exists fuel, forall f,
    query_all (fuel + f) (qt_finalise qt) Q =
    Ok (List.filter (fun it => in_quadrant it Q) (items_of (uf_root qt))).
Proof. apply query_all_build. Qed.

End OrderedInvariants.

(** ** The iterator with its [within_parent] flags *)

Section FlaggedIterator.

Context {FLOAT : Type} {Hops : FloatOps FLOAT} {Hord : FloatOrder FLOAT}.

Abbreviation Item := (Item FLOAT).
Abbreviation Quadrant := (Quadrant FLOAT).
Abbreviation TransNode := (TransNode FLOAT).
Abbreviation UFQuadTree := (UFQuadTree FLOAT).
Abbreviation QuadTree := (QuadTree FLOAT).
Abbreviation Qt_Itr_Frame := (Qt_Itr_Frame FLOAT).
Abbreviation Qt_Iterator := (Qt_Iterator FLOAT).

Variable T : QuadTree.
Variable Q : Quadrant.
Variable nf : Z.

#[local] Arguments pending_from : simpl never.
#[local] Arguments visit : simpl never.
#[local] Arguments _gen_quadrants : simpl never.

Lemma child_items_of (node n : TransNode) i :
  child node i = Some n ->
  forall P : Item -> Prop, Forall P (items_of node) -> Forall P (items_of n).
Proof.
  destruct node as [c0 c1 c2 c3 | items size]; [|discriminate].
  unfold child, get4. cbn [items_of q_nw q_ne q_sw q_se]. intros Hc P HP.
  rewrite !Forall_app in HP. destruct HP as (P0 & P1 & P2 & P3).
  destruct (i =? NW); [simpl in Hc; subst c0; exact P0|].
  destruct (i =? NE); [simpl in Hc; subst c1; exact P1|].
  destruct (i =? SW); [simpl in Hc; subst c2; exact P2|].
  destruct (i =? SE); [simpl in Hc; subst c3; exact P3|]. discriminate.
Qed.

(** The flag that "enter the child" computes is sound for the child. *)
Lemma child_flag_ok q (node n : TransNode) i qi w :
  located q node -> flag_ok Q w node ->
  child node i = Some n -> get4 (_gen_quadrants q) i = Some qi ->
  located qi n /\ flag_ok Q (w || CONTAINED qi Q) n.
Proof.
  intros Hloc Hflag Hc Hg.
  assert (Hloc' : located qi n) by (eapply located_child; eassumption).
  split; [exact Hloc'|]. intros Hw. apply orb_true_iff in Hw as [Hw | Hw].
  - eapply child_items_of; [exact Hc | apply Hflag; exact Hw].
  - apply located_within in Hloc'. eapply Forall_impl; [exact Hloc'|].
    intros it Hit. simpl in Hit. eapply CONTAINED_sound; eassumption.
Qed.

Lemma below_flagged_below rest pend :
  below_flagged T Q nf rest pend -> below_ok T Q nf rest pend.
Proof. induction 1; [apply below_nil | eapply below_cons; eauto]. Qed.

Lemma itr_loop_sub_flagged (node : TransNode) : sub_flagged T Q nf node.
Proof.
  induction node as [c0 c1 c2 c3 H0 H1 H2 H3 | items size] using TransNode_ind';
    [|intros k L q i w rest pend lp cur Hin; discriminate].
  intros k L q i w rest pend lp cur _ Hat Hi Hcap Hloc Hflag Hbelow.
  set (node := TInner c0 c1 c2 c3) in *.
  assert (Hm : exists m : nat, Z.of_nat m = QUAD - i) by (exists (Z.to_nat (QUAD - i)); lia).
  destruct Hm as [m Hm]. revert i Hi Hm. induction m as [|m IHm]; intros i Hi Hm.
  { assert (i = QUAD) as -> by lia. exists 1%nat. left. split; [reflexivity|].
    intros f. apply loop_pop. reflexivity. }
  assert (Hi' : 0 <= i < QUAD) by lia.
  destruct (IHm (i + 1)) as [c1' R1]; [unfold QUAD in *; lia ..|].
  destruct (slot_info T Q k L q c0 c1 c2 c3 i Hat Hi') as (qi & Hg & Hpend & Hchild).
  fold node in Hpend, Hchild.
  assert (Hne : fr_quadrant (inner_frame k q i w) <> QUAD) by (simpl; lia).
  destruct (child node i) as [n|] eqn:Hc.
  2: { simpl in Hpend. exists (S c1'). rewrite Hpend.
    destruct R1 as [[Hnil R1] | (items & P & itr' & Hcons & Hleaf & R1)].
    - left. split; [exact Hnil|]. intros f. simpl Nat.add.
      rewrite loop_skip_null; [apply R1 | exact Hne | exact Hchild].
    - right. exists items, P, itr'. split; [exact Hcons|]. split; [exact Hleaf|].
      intros f. simpl Nat.add.
      rewrite loop_skip_null; [apply R1 | exact Hne | exact Hchild]. }
  destruct Hchild as (k' & L' & Hw & Hoff & Hat' & Hlv).
  simpl visit_slot in Hpend.
  destruct (OVERLAP Q qi) eqn:Hov.
  2: { simpl in Hpend. exists (S c1'). rewrite Hpend.
    destruct R1 as [[Hnil R1] | (items & P & itr' & Hcons & Hleaf & R1)].
    - left. split; [exact Hnil|]. intros f. simpl Nat.add.
      rewrite (loop_skip_far T Q nf _ _ _ _ _ _ _ qi Hne Hw Hoff Hg Hov). apply R1.
    - right. exists items, P, itr'. split; [exact Hcons|]. split; [exact Hleaf|].
      intros f. simpl Nat.add.
      rewrite (loop_skip_far T Q nf _ _ _ _ _ _ _ qi Hne Hw Hoff Hg Hov). apply R1. }
  pose proof (levels_pos n) as Hpos.
  assert (Hcap' : Z.of_nat (length rest) + 1 < nf) by lia.
  assert (Hb' : below_flagged T Q nf (inner_frame k q i w :: rest)
                  (pending_from Q q node (i + 1) ++ pend))
    by (apply (below_flagged_cons T Q nf k L q i w node); auto).
  destruct (child_flag_ok q node n i qi w Hloc Hflag Hc Hg) as [Hloc' Hflag'].
  pose proof Hat' as (Hlaid' & Hk' & Htot' & HL').
  destruct n as [d0 d1 d2 d3 | items size].
  - pose proof (child_IH (sub_flagged T Q nf) c0 c1 c2 c3 i _ H0 H1 H2 H3 Hc) as IHn.
    destruct (IHn k' L' qi 0 (w || CONTAINED qi Q) (inner_frame k q i w :: rest)
                (pending_from Q q node (i + 1) ++ pend) lp cur) as [c2' R2];
      [reflexivity | exact Hat' | unfold QUAD; lia | simpl length; lia | exact Hloc'
      | exact Hflag' | exact Hb' |].
    rewrite pending_from_0 in R2 by reflexivity.
    assert (Henter : forall f,
      itr_loop (S f) (mkItr (inner_frame k q i w :: rest) nf lp cur Q T false) =
      itr_loop f (mkItr (inner_frame k' qi 0 (w || CONTAINED qi Q)
                           :: inner_frame k q i w :: rest) nf lp cur Q T false)).
    { intros f. rewrite (loop_enter T Q nf _ _ _ _ _ _ _ qi Hne Hw Hoff Hg Hov Hcap').
      unfold at_RECURSE. simpl itr_stack. cbn [fr_node itr_quadtree].
      unfold IS_LEAF, MEM_LEAFS, addr_of, MEM_INNERS, sizeof_Inner in *. simpl is_inner.
      simpl in Htot'. destruct (opt_counts_nonneg d0), (opt_counts_nonneg d1),
        (opt_counts_nonneg d2), (opt_counts_nonneg d3).
      replace (0 + qt_ninners T * 32 <=? 0 + (0 + 32 * k')) with false
        by (symmetry; apply Z.leb_gt; lia).
      reflexivity. }
    destruct R2 as [[Hnil R2] | (items & P & itr' & Hcons & Hleaf & R2)].
    + exists (S (c2' + c1')). rewrite Hpend, Hnil. simpl app.
      destruct R1 as [[Hnil1 R1] | (items & P & itr' & Hcons & Hleaf & R1)].
      * left. split; [exact Hnil1|]. intros f. simpl Nat.add.
        rewrite Henter, <- Nat.add_assoc, R2. apply R1.
      * right. exists items, P, itr'. split; [exact Hcons|]. split; [exact Hleaf|].
        intros f. simpl Nat.add. rewrite Henter, <- Nat.add_assoc, R2. apply R1.
    + exists (S c2'). right. exists items, (P ++ pending_from Q q node (i + 1)), itr'.
      rewrite Hpend, Hcons. split; [reflexivity|]. split.
      * rewrite <- app_assoc. exact Hleaf.
      * intros f. simpl Nat.add. rewrite Henter. apply R2.
  - exists 1%nat. right.
    exists items, (pending_from Q q node (i + 1)),
      (mkItr (mkFrame (MEM_INNERS + L') (_gen_quadrants qi) 0 (w || CONTAINED qi Q)
                :: inner_frame k q i w :: rest) nf (Some (MEM_INNERS + L')) 0 Q T false).
    split; [rewrite Hpend; reflexivity|]. split.
    + exists (MEM_INNERS + L'), (mkFrame (MEM_INNERS + L') (_gen_quadrants qi) 0
                                   (w || CONTAINED qi Q)), (inner_frame k q i w :: rest).
      split; [reflexivity|]. split; [reflexivity|]. split; [exact Hlaid'|].
      split; [discriminate|]. split; [exact Hflag' | exact Hb'].
    + intros f. simpl Nat.add.
      rewrite (loop_enter T Q nf _ _ _ _ _ _ _ qi Hne Hw Hoff Hg Hov Hcap').
      unfold at_RECURSE. simpl itr_stack. cbn [fr_node itr_quadtree].
      unfold IS_LEAF, MEM_LEAFS, addr_of, MEM_INNERS, sizeof_Inner in *. simpl is_inner.
      cbv iota.
      replace (0 + qt_ninners T * 32 <=? 0 + L') with true
        by (symmetry; apply Z.leb_le; lia).
      reflexivity.
Qed.

Lemma itr_loop_unwind_flagged rest pend :
  below_flagged T Q nf rest pend ->
  forall lp cur, exists c : nat,
    (pend = [] /\
     forall f, itr_loop (c + f) (mkItr (advance rest) nf lp cur Q T false) =
               Ok (mkItr [] nf None cur Q T false)) \/
    (exists items P itr',
       pend = items :: P /\ at_leaf_flagged T Q nf itr' items P /\
       forall f, itr_loop (c + f) (mkItr (advance rest) nf lp cur Q T false) = Ok itr').
Proof.
  induction 1 as [|k L q i w node rest pend Hin Hat Hi Hcap Hloc Hflag Hbelow IH];
    intros lp cur.
  - exists 1%nat. left. split; [reflexivity|]. intros f. apply loop_empty.
  - destruct (itr_loop_sub_flagged node k L q (i + 1) w rest pend lp cur Hin Hat)
      as [c1 R1]; [unfold QUAD in *; lia | exact Hcap | exact Hloc | exact Hflag
                  | exact Hbelow |].
    change (advance (inner_frame k q i w :: rest)) with (inner_frame k q (i + 1) w :: rest).
    destruct R1 as [[Hnil R1] | (items & P & itr' & Hcons & Hleaf & R1)].
    + destruct (IH lp cur) as [c2 R2]. exists (c1 + c2)%nat. rewrite Hnil. simpl app.
      destruct R2 as [[Hnil2 R2] | (items & P & itr' & Hcons & Hleaf & R2)].
      * left. split; [exact Hnil2|]. intros f. rewrite <- Nat.add_assoc, R1. apply R2.
      * right. exists items, P, itr'. split; [exact Hcons|]. split; [exact Hleaf|].
        intros f. rewrite <- Nat.add_assoc, R1. apply R2.
    + exists c1. right. exists items, (P ++ pend), itr'. rewrite Hcons.
      split; [reflexivity|]. split; [exact Hleaf | exact R1].
Qed.

Lemma itr_next_recursive_is_loop rest pend lp cur f :
  below_ok T Q nf rest pend -> rest <> [] ->
  _itr_next_recursive f (mkItr (advance rest) nf lp cur Q T false) =
  itr_loop f (mkItr (advance rest) nf lp cur Q T false).
Proof.
  intros Hbelow Hne.
  inversion Hbelow as [|k L q i w node rest' pend' Hin Hat Hi Hcap Hb]; subst;
    [congruence|].
  unfold _itr_next_recursive, at_RECURSE.
  cbn [advance next_quadrant inner_frame fr_node itr_stack itr_quadtree].
  destruct Hat as (_ & Hk & Htot & _). destruct (counts_nonneg node) as [Hn _].
  destruct node as [d0 d1 d2 d3|]; [|discriminate]. simpl in Htot.
  destruct (opt_counts_nonneg d0), (opt_counts_nonneg d1), (opt_counts_nonneg d2),
    (opt_counts_nonneg d3).
  unfold IS_LEAF, MEM_LEAFS, MEM_INNERS, sizeof_Inner.
  replace (0 + qt_ninners T * 32 <=? 0 + 32 * k) with false
    by (symmetry; apply Z.leb_gt; lia).
  reflexivity.
Qed.

Lemma qt_query_itr_flagged (root : TransNode) :
  is_inner root = true -> at_node T 0 (sizeof_Inner * qt_ninners T) root ->
  levels root <= nf -> qt_maxdepth T = nf -> located (qt_region T) root ->
  exists c : nat,
    (visit Q (qt_region T) root = [] /\
     forall f, qt_query_itr (c + f) T Q = Ok (mkItr [] nf None 0 Q T false)) \/
    (exists items P itr',
       visit Q (qt_region T) root = items :: P /\ at_leaf_flagged T Q nf itr' items P /\
       forall f, qt_query_itr (c + f) T Q = Ok itr').
Proof.
  intros Hin Hat Hlv Hnf Hloc. pose proof (levels_pos root) as Hpos.
  assert (Hopen : forall f,
    qt_query_itr f T Q =
    itr_loop f (mkItr [inner_frame 0 (qt_region T) 0 false] nf None 0 Q T false)).
  { intros f. unfold qt_query_itr. simpl itr_nframes. rewrite Hnf.
    replace (0 <? nf) with true by (symmetry; apply Z.ltb_lt; lia).
    unfold _itr_next_recursive, at_RECURSE, set_stack. simpl.
    destruct Hat as (_ & _ & Htot & _).
    destruct root as [d0 d1 d2 d3|]; [|discriminate]. simpl in Htot.
    destruct (opt_counts_nonneg d0), (opt_counts_nonneg d1), (opt_counts_nonneg d2),
      (opt_counts_nonneg d3).
    unfold IS_LEAF, MEM_LEAFS, MEM_ROOT, MEM_INNERS, sizeof_Inner.
    replace (0 + qt_ninners T * 32 <=? 0) with false by (symmetry; apply Z.leb_gt; lia).
    reflexivity. }
  destruct (itr_loop_sub_flagged root 0 (sizeof_Inner * qt_ninners T) (qt_region T) 0 false
              [] [] None 0 Hin Hat) as [c R];
    [unfold QUAD; lia | simpl; lia | exact Hloc | intros Hf; discriminate | constructor |].
  rewrite pending_from_0 in R by exact Hin.
  destruct R as [[Hnil R] | (items & P & itr' & Hcons & Hleaf & R)].
  - exists (c + 1)%nat. left. split; [exact Hnil|]. intros f.
    rewrite Hopen, <- Nat.add_assoc, R. apply loop_empty.
  - exists c. right. exists items, P, itr'. split; [exact Hcons|].
    rewrite app_nil_r in Hleaf. split; [exact Hleaf|].
    intros f. rewrite Hopen. apply R.
Qed.

End FlaggedIterator.

(** ** The iterator states a client can see *)

Section ReachableIterator.

Context {FLOAT : Type} {Hops : FloatOps FLOAT} {Hord : FloatOrder FLOAT}.

Abbreviation Item := (Item FLOAT).
Abbreviation Quadrant := (Quadrant FLOAT).
Abbreviation TransNode := (TransNode FLOAT).
Abbreviation UFQuadTree := (UFQuadTree FLOAT).
Abbreviation QuadTree := (QuadTree FLOAT).
Abbreviation Qt_Itr_Frame := (Qt_Itr_Frame FLOAT).
Abbreviation Qt_Iterator := (Qt_Iterator FLOAT).

Variable T : QuadTree.
Variable Q : Quadrant.
Variable nf : Z.










End ReachableIterator.

Section FlaggedLeafClaim.

Context {FLOAT : Type} {Hops : FloatOps FLOAT} {Hord : FloatOrder FLOAT}.

Abbreviation Item := (Item FLOAT).
Abbreviation Quadrant := (Quadrant FLOAT).
Abbreviation TransNode := (TransNode FLOAT).
Abbreviation UFQuadTree := (UFQuadTree FLOAT).
Abbreviation QuadTree := (QuadTree FLOAT).
Abbreviation Qt_Itr_Frame := (Qt_Itr_Frame FLOAT).
Abbreviation Qt_Iterator := (Qt_Iterator FLOAT).


End FlaggedLeafClaim.


(** ** The array wrappers *)

Section ArrayBounds.

Context {FLOAT : Type} {Hops : FloatOps FLOAT}.

Abbreviation Item := (Item FLOAT).
Abbreviation Quadrant := (Quadrant FLOAT).
Abbreviation QuadTree := (QuadTree FLOAT).
Abbreviation Qt_Itr_Frame := (Qt_Itr_Frame FLOAT).
Abbreviation Qt_Iterator := (Qt_Iterator FLOAT).

Lemma bind_not_Err {A B} (c : result A) (k : A -> result B) e :
  c <> Err e -> (forall a, c = Ok a -> k a <> Err e) -> bind c k <> Err e.
Proof.
  destruct c as [a|e']; cbn [bind]; intros Hc Hk; [apply Hk; reflexivity | congruence].
Qed.

(** *** The iterator does not touch the result array *)

Lemma read_word_not_oob (T : QuadTree) a : read_word T a <> Err ArrayOutOfBounds.
Proof. unfold read_word. destruct (_ !! _); discriminate. Qed.

Lemma read_item_not_oob (T : QuadTree) a : read_item T a <> Err ArrayOutOfBounds.
Proof. unfold read_item. destruct (_ !! _); discriminate. Qed.

Lemma free_itr_not_oob (itr : Qt_Iterator) : free_itr itr <> Err ArrayOutOfBounds.
Proof. unfold free_itr. destruct (itr_freed itr); discriminate. Qed.

Lemma at_RECURSE_not_oob (loop : Qt_Iterator -> result Qt_Iterator) (itr : Qt_Iterator) :
  (forall i, loop i <> Err ArrayOutOfBounds) -> at_RECURSE loop itr <> Err ArrayOutOfBounds.
Proof.
  intros Hl. unfold at_RECURSE. destruct (itr_stack itr); [discriminate|].
  destruct (IS_LEAF _ _); [discriminate | apply Hl].
Qed.

Lemma itr_loop_not_oob (fuel : nat) : forall itr : Qt_Iterator,
  itr_loop fuel itr <> Err ArrayOutOfBounds.
Proof.
  induction fuel as [|fuel IH]; intros itr; [discriminate|].
  cbn [itr_loop]. destruct (itr_stack itr) as [|fr rest]; [discriminate|].
  destruct (fr_quadrant fr =? QUAD); [destruct rest; apply IH|].
  apply bind_not_Err; [apply read_word_not_oob|]. intros off _.
  destruct (off =? ROOT); [apply IH|].
  destruct (get4 _ _) as [q|]; [|discriminate].
  destruct (OVERLAP _ _); [|apply IH].
  apply bind_not_Err.
  - unfold enter_child. destruct (_ <? _); discriminate.
  - intros itr' _. apply at_RECURSE_not_oob, IH.
Qed.

Lemma _itr_next_recursive_not_oob (fuel : nat) (itr : Qt_Iterator) :
  _itr_next_recursive fuel itr <> Err ArrayOutOfBounds.
Proof. apply at_RECURSE_not_oob, itr_loop_not_oob. Qed.

Lemma qt_query_itr_not_oob (fuel : nat) (T : QuadTree) (Q : Quadrant) :
  qt_query_itr fuel T Q <> Err ArrayOutOfBounds.
Proof.
  unfold qt_query_itr. cbv zeta. destruct (0 <? _); [|discriminate].
  apply _itr_next_recursive_not_oob.
Qed.

Lemma qt_itr_next_not_oob (fuel : nat) : forall itr : Qt_Iterator,
  qt_itr_next fuel itr <> Err ArrayOutOfBounds.
Proof.
  induction fuel as [|fuel IH]; intros itr; [discriminate|].
  cbn [qt_itr_next]. destruct (itr_lp itr) as [lp|].
  2:{ apply bind_not_Err; [apply free_itr_not_oob | discriminate]. }
  destruct (itr_stack itr) as [|fr rest]; [discriminate|].
  apply bind_not_Err; [apply read_word_not_oob|]. intros n _.
  destruct (_ >=? _).
  - apply bind_not_Err; [apply read_item_not_oob|]. intros itm _. cbv zeta.
    destruct (in_quadrant _ _); [discriminate | apply IH].
  - destruct rest as [|fr' rest']; [discriminate|].
    apply bind_not_Err; [apply _itr_next_recursive_not_oob|]. intros itr' _. apply IH.
Qed.

(** *** [qt_query_ary] *)

Lemma query_ary_loop_not_oob (fuel : nat) :
  forall (itr : Qt_Iterator) items alloced i maxn,
  i = Z.of_nat (length items) -> i < alloced ->
  query_ary_loop fuel itr items alloced i maxn <> Err ArrayOutOfBounds.
Proof.
  induction fuel as [|fuel IH]; intros itr items alloced i maxn Hi Ha; [discriminate|].
  cbn [query_ary_loop].
  apply bind_not_Err; [apply qt_itr_next_not_oob|]. intros [r itr'] _.
  unfold write_entry.
  replace ((i <? alloced) && (i =? Z.of_nat (length items))) with true
    by (symmetry; apply andb_true_iff; split; [apply Z.ltb_lt | apply Z.eqb_eq]; lia).
  cbn [bind]. destruct r as [x|]; [|discriminate].
  destruct (_ && _); [discriminate|].
  apply IH; [rewrite length_app; simpl; lia|].
  destruct (Z.geb_spec (i + 1) alloced); lia.
Qed.

(** X15: [qt_query_ary] never writes outside the result array, whatever the
    tree, the region and the limit: the array is doubled before the index
    can reach its allocated length. *)
Theorem qt_query_ary_stays_in_the_array
    (fuel : nat) (T : QuadTree) (Q : Quadrant) (maxn : Z) :
  qt_query_ary fuel T Q maxn <> Err ArrayOutOfBounds.
Proof.
  unfold qt_query_ary. cbv zeta.
  apply bind_not_Err; [apply qt_query_itr_not_oob|]. intros itr _.
  apply bind_not_Err; [apply query_ary_loop_not_oob; simpl; lia|].
  intros [[itr' items] i] _.
  apply bind_not_Err; [apply free_itr_not_oob | discriminate].
Qed.

(** *** [qt_query_ary_fast] *)

Lemma include_all_not_oob (T : QuadTree) leaf (count : nat) :
  forall j items size offsetv i items' i',
  Z.of_nat (length items) = offsetv + i -> offsetv + i + Z.of_nat count <= size ->
  include_all T leaf count j items size offsetv i <> Err ArrayOutOfBounds /\
  (include_all T leaf count j items size offsetv i = Ok (items', i') ->
   Z.of_nat (length items') = offsetv + i' /\ 0 <= i' - i).
Proof.
  induction count as [|count IH]; intros j items size offsetv i items' i' Hlen Hsz.
  - cbn [include_all]. split; [discriminate|]. intros [= <- <-]. lia.
  - cbn [include_all]. destruct (read_item T _) as [itm|e] eqn:Hr; cbn [bind].
    2:{ split; [|discriminate]. intros [= ->]. revert Hr. apply read_item_not_oob. }
    unfold write_entry.
    replace ((offsetv + i <? size) && (offsetv + i =? Z.of_nat (length items))) with true
      by (symmetry; apply andb_true_iff; split; [apply Z.ltb_lt | apply Z.eqb_eq]; lia).
    cbn [bind].
    destruct (IH (j + 1) (items ++ [Some itm]) size offsetv (i + 1) items' i') as [N R];
      [rewrite length_app; simpl; lia | lia |].
    split; [exact N|]. intros H. apply R in H. lia.
Qed.

Lemma include_matching_not_oob (T : QuadTree) leaf (Q : Quadrant) (count : nat) :
  forall j items size offsetv i items' i',
  Z.of_nat (length items) = offsetv + i -> offsetv + i + Z.of_nat count <= size ->
  include_matching T leaf Q count j items size offsetv i <> Err ArrayOutOfBounds /\
  (include_matching T leaf Q count j items size offsetv i = Ok (items', i') ->
   Z.of_nat (length items') = offsetv + i' /\ 0 <= i' - i).
Proof.
  induction count as [|count IH]; intros j items size offsetv i items' i' Hlen Hsz.
  - cbn [include_matching]. split; [discriminate|]. intros [= <- <-]. lia.
  - cbn [include_matching]. destruct (read_item T _) as [itm|e] eqn:Hr; cbn [bind].
    2:{ split; [|discriminate]. intros [= ->]. revert Hr. apply read_item_not_oob. }
    destruct (in_quadrant itm Q).
    + unfold write_entry.
      replace ((offsetv + i <? size) && (offsetv + i =? Z.of_nat (length items))) with true
        by (symmetry; apply andb_true_iff; split; [apply Z.ltb_lt | apply Z.eqb_eq]; lia).
      cbn [bind].
      destruct (IH (j + 1) (items ++ [Some itm]) size offsetv (i + 1) items' i') as [N R];
        [rewrite length_app; simpl; lia | lia |].
      split; [exact N|]. intros H. apply R in H. lia.
    + destruct (IH (j + 1) items size offsetv i items' i') as [N R]; [lia | lia |].
      split; [exact N|]. intros H. apply R in H. lia.
Qed.

Lemma _include_leaf_not_oob (T : QuadTree) items offset size leaf (Q : Quadrant) within
    items' offset' size' :
  Z.of_nat (length items) = offset ->
  _include_leaf T items offset size leaf Q within <> Err ArrayOutOfBounds /\
  (_include_leaf T items offset size leaf Q within = Ok (items', offset', size') ->
   Z.of_nat (length items') = offset').
Proof.
  intros Hlen. unfold _include_leaf.
  destruct (read_word T leaf) as [n|e] eqn:Hr; cbn [bind].
  2:{ split; [|discriminate]. intros [= ->]. revert Hr. apply read_word_not_oob. }
  cbv zeta.
  set (size1 := if offset + n >? size then (offset + n) * 2 else size).
  destruct (Z.to_nat n) as [|c] eqn:Hn.
  { destruct within; cbn [include_all include_matching bind];
      (split; [discriminate | intros [= <- <- <-]; lia]). }
  rewrite <- Hn.
  assert (Hroom : offset + 0 + Z.of_nat (Z.to_nat n) <= size1).
  { subst size1. destruct (Z.gtb_spec (offset + n) size); lia. }
  destruct within.
  - destruct (include_all T leaf (Z.to_nat n) 0 items size1 offset 0) as [[its i]|e] eqn:Ha;
      cbn [bind].
    + split; [discriminate|]. intros [= <- <- <-].
      eapply (include_all_not_oob T leaf (Z.to_nat n) 0 items size1 offset 0 its i);
        [lia | exact Hroom | exact Ha].
    + split; [|discriminate]. intros [= ->]. revert Ha.
      eapply (include_all_not_oob T leaf (Z.to_nat n) 0 items size1 offset 0 items 0);
        [lia | exact Hroom].
  - destruct (include_matching T leaf Q (Z.to_nat n) 0 items size1 offset 0)
      as [[its i]|e] eqn:Ha; cbn [bind].
    + split; [discriminate|]. intros [= <- <- <-].
      eapply (include_matching_not_oob T leaf Q (Z.to_nat n) 0 items size1 offset 0 its i);
        [lia | exact Hroom | exact Ha].
    + split; [|discriminate]. intros [= ->]. revert Ha.
      eapply (include_matching_not_oob T leaf Q (Z.to_nat n) 0 items size1 offset 0 items 0);
        [lia | exact Hroom].
Qed.

Lemma query_ary_fast_loop_not_oob (fuel : nat) :
  forall (itr : Qt_Iterator) items alloced i maxn,
  Z.of_nat (length items) = i ->
  query_ary_fast_loop fuel itr items alloced i maxn <> Err ArrayOutOfBounds.
Proof.
  induction fuel as [|fuel IH]; intros itr items alloced i maxn Hi; [discriminate|].
  cbn [query_ary_fast_loop]. destruct (itr_lp itr) as [lp|]; [|discriminate].
  destruct (_ && _); [discriminate|].
  destruct (itr_stack itr) as [|fr rest]; [discriminate|].
  destruct (_include_leaf _ items i alloced lp _ _) as [[[its i1] a1]|e] eqn:Hinc;
    cbn [bind].
  - destruct (_include_leaf_not_oob (itr_quadtree itr) items i alloced lp (itr_region itr)
                (fr_within_parent fr) its i1 a1 Hi) as [_ Hlen].
    specialize (Hlen Hinc).
    destruct rest as [|fr' rest']; [discriminate|].
    apply bind_not_Err; [apply _itr_next_recursive_not_oob|]. intros itr' _.
    apply IH. exact Hlen.
  - intros [= ->]. revert Hinc.
    eapply (_include_leaf_not_oob (itr_quadtree itr) items i alloced lp (itr_region itr)
              (fr_within_parent fr) items i alloced Hi).
Qed.

(** X16: [qt_query_ary_fast] never writes outside the result array either:
    [_include_leaf] enlarges the array to twice what the leaf needs before
    it copies the items of a leaf.  The index of the copy loops is a
    [u_int32_t], unbounded in the model: the statement is for buffers
    whose leaf counts fit it. *)
Theorem qt_query_ary_fast_stays_in_the_array
    (fuel : nat) (T : QuadTree) (Q : Quadrant) (maxn : Z) :
  small_counts T ->
  qt_query_ary_fast fuel T Q maxn <> Err ArrayOutOfBounds.
Proof.
  intros _. unfold qt_query_ary_fast. cbv zeta.
  apply bind_not_Err; [apply qt_query_itr_not_oob|]. intros itr _.
  apply bind_not_Err; [apply query_ary_fast_loop_not_oob; reflexivity|].
  intros [[itr' items] i] _.
  apply bind_not_Err; [apply free_itr_not_oob | discriminate].
Qed.

End ArrayBounds.

(** *** What [_include_leaf] copies *)

Section IncludeLeaf.

Context {FLOAT : Type} {Hops : FloatOps FLOAT}.

Abbreviation Item := (Item FLOAT).
Abbreviation Quadrant := (Quadrant FLOAT).
Abbreviation QuadTree := (QuadTree FLOAT).

Variable T : QuadTree.
Variable L : Z.

Lemma include_all_laid (rest : list Item) : forall j arr size off i,
  (forall t x, nth_error rest t = Some x ->
     mem_items T !! (L + sizeof_Leaf + sizeof_Item * (j + Z.of_nat t)) = Some x) ->
  Z.of_nat (length arr) = off + i -> off + i + Z.of_nat (length rest) <= size ->
  include_all T L (length rest) j arr size off i =
  Ok (arr ++ map Some rest, i + Z.of_nat (length rest)).
Proof.
  induction rest as [|x rest IH]; intros j arr size off i Hmem Hlen Hsz.
  - cbn [include_all length map]. rewrite app_nil_r, Z.add_0_r. reflexivity.
  - cbn [include_all length]. unfold read_item.
    pose proof (Hmem 0%nat x eq_refl) as H0. rewrite Z.add_0_r in H0. rewrite H0.
    cbn [bind]. unfold write_entry. cbn [length] in Hsz.
    replace ((off + i <? size) && (off + i =? Z.of_nat (length arr))) with true
      by (symmetry; apply andb_true_iff; split; [apply Z.ltb_lt | apply Z.eqb_eq]; lia).
    cbn [bind]. rewrite IH.
    + cbn [map]. rewrite <- app_assoc. cbn [app]. f_equal. f_equal. lia.
    + intros t y Hy. specialize (Hmem (S t) y Hy).
      replace (j + 1 + Z.of_nat t) with (j + Z.of_nat (S t)) by lia. exact Hmem.
    + rewrite length_app. cbn [length]. lia.
    + lia.
Qed.

Lemma include_matching_laid (Q : Quadrant) (rest : list Item) : forall j arr size off i,
  (forall t x, nth_error rest t = Some x ->
     mem_items T !! (L + sizeof_Leaf + sizeof_Item * (j + Z.of_nat t)) = Some x) ->
  Z.of_nat (length arr) = off + i -> off + i + Z.of_nat (length rest) <= size ->
  include_matching T L Q (length rest) j arr size off i =
  Ok (arr ++ map Some (List.filter (fun it => in_quadrant it Q) rest),
      i + Z.of_nat (length (List.filter (fun it => in_quadrant it Q) rest))).
Proof.
  induction rest as [|x rest IH]; intros j arr size off i Hmem Hlen Hsz.
  - cbn [include_matching length map List.filter]. rewrite app_nil_r, Z.add_0_r.
    reflexivity.
  - cbn [include_matching length List.filter]. unfold read_item.
    pose proof (Hmem 0%nat x eq_refl) as H0. rewrite Z.add_0_r in H0. rewrite H0.
    cbn [bind]. cbn [length] in Hsz.
    assert (Hshift : forall t y, nth_error rest t = Some y ->
      mem_items T !! (L + sizeof_Leaf + sizeof_Item * (j + 1 + Z.of_nat t)) = Some y).
    { intros t y Hy. specialize (Hmem (S t) y Hy).
      replace (j + 1 + Z.of_nat t) with (j + Z.of_nat (S t)) by lia. exact Hmem. }
    destruct (in_quadrant x Q).
    + unfold write_entry.
      replace ((off + i <? size) && (off + i =? Z.of_nat (length arr))) with true
        by (symmetry; apply andb_true_iff; split; [apply Z.ltb_lt | apply Z.eqb_eq]; lia).
      cbn [bind]. rewrite IH; [|exact Hshift | rewrite length_app; cbn [length]; lia | lia].
      cbn [map length]. rewrite <- app_assoc. cbn [app]. f_equal. f_equal. lia.
    + rewrite IH; [reflexivity | exact Hshift | lia | lia].
Qed.

Lemma _include_leaf_laid (Q : Quadrant) (its : list Item)
    (arr : list (option Item)) off size (within : bool) :
  laid_out T 0 L (TLeaf its 0) -> Z.of_nat (length arr) = off ->
  let taken := if within then its else List.filter (fun it => in_quadrant it Q) its in
  _include_leaf T arr off size L Q within =
  Ok (arr ++ map Some taken, off + Z.of_nat (length taken),
      if off + leaf_n its >? size then (off + leaf_n its) * 2 else size).
Proof.
  intros [Hn Hit] Hlen. cbv zeta. unfold _include_leaf, read_word. rewrite Hn.
  cbn [bind]. cbv zeta. unfold leaf_n. rewrite Nat2Z.id.
  set (size1 := if off + Z.of_nat (length its) >? size
                then (off + Z.of_nat (length its)) * 2 else size).
  assert (Hroom : off + 0 + Z.of_nat (length its) <= size1).
  { subst size1. destruct (Z.gtb_spec (off + Z.of_nat (length its)) size); lia. }
  assert (Hmem : forall t x, nth_error its t = Some x ->
    mem_items T !! (L + sizeof_Leaf + sizeof_Item * (0 + Z.of_nat t)) = Some x).
  { intros t x Hx. rewrite Z.add_0_l. apply Hit. exact Hx. }
  destruct within.
  - rewrite include_all_laid; [|exact Hmem | lia | exact Hroom]. cbn [bind].
    rewrite Z.add_0_l. reflexivity.
  - rewrite include_matching_laid; [|exact Hmem | lia | exact Hroom]. cbn [bind].
    rewrite Z.add_0_l. reflexivity.
Qed.

(** X17: For a leaf of the finalised buffer, [_include_leaf] appends to the
    array, in bucket order, all the items of the leaf when [within] is
    set and else those that lie in the quadrant; it adds their number to
    the offset, and the array is enlarged to twice what the whole leaf
    needs when it is too small for it.  (The leaf has fewer than [2^32]
    items: the index of the copy loops is a [u_int32_t].) *)
Theorem _include_leaf_appends_the_leaf
    (Q : Quadrant) (its : list Item) (arr : list (option Item)) off size (within : bool) :
  laid_out T 0 L (TLeaf its 0) -> leaf_n its < 2 ^ 32 -> Z.of_nat (length arr) = off ->
  let taken := if within then its else List.filter (fun it => in_quadrant it Q) its in
  _include_leaf T arr off size L Q within =
  Ok (arr ++ map Some taken, off + Z.of_nat (length taken),
      if off + leaf_n its >? size then (off + leaf_n its) * 2 else size).
Proof. intros Hlaid _. apply _include_leaf_laid, Hlaid. Qed.

End IncludeLeaf.

(** *** The wrappers on the tree of a builder *)

Section ArrayLoops.

Context {FLOAT : Type} {Hops : FloatOps FLOAT} {Hord : FloatOrder FLOAT}.

Abbreviation Item := (Item FLOAT).
Abbreviation Quadrant := (Quadrant FLOAT).
Abbreviation TransNode := (TransNode FLOAT).
Abbreviation UFQuadTree := (UFQuadTree FLOAT).
Abbreviation QuadTree := (QuadTree FLOAT).
Abbreviation Qt_Itr_Frame := (Qt_Itr_Frame FLOAT).
Abbreviation Qt_Iterator := (Qt_Iterator FLOAT).

Section Loops.

Variable T : QuadTree.
Variable Q : Quadrant.
Variable nf : Z.

Lemma at_leaf_not_freed (itr : Qt_Iterator) items j pend :
  at_leaf T Q nf itr items j pend -> itr_freed itr = false.
Proof. intros (L & fr & rest & -> & _). reflexivity. Qed.

(** The loop of [qt_query_ary] stops at the limit when more items are
    left than the limit allows. *)
Lemma query_ary_loop_hits (out : list Item) :
  forall items j pend (itr : Qt_Iterator) arr alloced i m,
  output Q items j pend = out ->
  at_leaf T Q nf itr items j pend -> 0 <= j <= leaf_n items ->
  count_ok items -> Forall count_ok pend ->
  Z.of_nat (length arr) = i -> i < alloced -> 0 < m -> i <= m ->
  m - i < Z.of_nat (length out) ->
  exists (c : nat) (itr' : Qt_Iterator),
    itr_freed itr' = false /\
    forall f, query_ary_loop (c + f) itr arr alloced i m =
              Ok (itr', arr ++ map Some (firstn (Z.to_nat (m - i) + 1) out), m).
Proof.
  induction out as [|x out IH];
    intros items j pend itr arr alloced i m Hout Hleaf Hj Hok Hpend Hlen Ha Hm Hi Hmore;
    [cbn [length] in Hmore; lia|].
  destruct (qt_itr_next_ok T Q nf pend items j itr Hleaf Hj Hok Hpend) as [c R].
  rewrite Hout in R.
  destruct R as [[Hnil _] | (y & itr1 & items' & j' & pend' & Ho & Hl & Hj' & Hok' & Hp' & R)];
    [discriminate|].
  injection Ho as <- Ho.
  assert (Hw : write_entry arr alloced i (Some x) = Ok (arr ++ [Some x])).
  { unfold write_entry.
    replace ((i <? alloced) && (i =? Z.of_nat (length arr))) with true
      by (symmetry; apply andb_true_iff; split; [apply Z.ltb_lt | apply Z.eqb_eq]; lia).
    reflexivity. }
  destruct (Z.eq_dec i m) as [Heq | Hneq].
  - exists (S c), itr1. split; [eapply at_leaf_not_freed; exact Hl|].
    intros f. simpl Nat.add. cbn [query_ary_loop]. rewrite R. cbn [bind]. rewrite Hw.
    cbn [bind].
    replace ((m >? 0) && (i >=? m)) with true
      by (symmetry; apply andb_true_iff; split; [apply Z.gtb_lt | apply Z.geb_le]; lia).
    rewrite Heq, Z.sub_diag. reflexivity.
  - cbn [length] in Hmore.
    destruct (IH items' j' pend' itr1 (arr ++ [Some x])
                (if i + 1 >=? alloced then alloced * 2 else alloced) (i + 1) m
                (eq_sym Ho) Hl Hj' Hok' Hp') as (c2 & itr' & Hfree & R2);
      [rewrite length_app; cbn [length]; lia
      | destruct (Z.geb_spec (i + 1) alloced); lia | lia | lia | lia |].
    exists (S (c + c2)), itr'. split; [exact Hfree|].
    intros f. simpl Nat.add. cbn [query_ary_loop].
    rewrite <- Nat.add_assoc, R. cbn [bind]. rewrite Hw. cbn [bind].
    replace ((m >? 0) && (i >=? m)) with false
      by (symmetry; apply andb_false_iff; right; rewrite Z.geb_leb; apply Z.leb_gt; lia).
    replace (c + (c2 + f))%nat with (c2 + (c + f))%nat by lia. rewrite R2.
    rewrite <- app_assoc. cbn [app].
    replace (Z.to_nat (m - i) + 1)%nat with (S (Z.to_nat (m - (i + 1)) + 1)) by lia.
    reflexivity.
Qed.

(** Otherwise it runs until [qt_itr_next] returns [NULL], which frees the
    iterator. *)
Lemma query_ary_loop_exhausts (out : list Item) :
  forall items j pend (itr : Qt_Iterator) arr alloced i m,
  output Q items j pend = out ->
  at_leaf T Q nf itr items j pend -> 0 <= j <= leaf_n items ->
  count_ok items -> Forall count_ok pend ->
  Z.of_nat (length arr) = i -> i < alloced ->
  (m <= 0 \/ Z.of_nat (length out) <= m - i) ->
  exists c : nat, forall f, exists (itr' : Qt_Iterator) arr' i',
    query_ary_loop (c + f) itr arr alloced i m = Ok (itr', arr', i') /\
    itr_freed itr' = true.
Proof.
  induction out as [|x out IH];
    intros items j pend itr arr alloced i m Hout Hleaf Hj Hok Hpend Hlen Ha Hm;
    destruct (qt_itr_next_ok T Q nf pend items j itr Hleaf Hj Hok Hpend) as [c R];
    rewrite Hout in R;
    destruct R as [[Hnil R] | (y & itr1 & items' & j' & pend' & Ho & Hl & Hj' & Hok' & Hp' & R)];
    try discriminate.
  - exists (S c). intros f. destruct (R f) as [itr' Hn].
    exists itr', (arr ++ [None]), i. simpl Nat.add. cbn [query_ary_loop].
    rewrite Hn. cbn [bind]. unfold write_entry.
    replace ((i <? alloced) && (i =? Z.of_nat (length arr))) with true
      by (symmetry; apply andb_true_iff; split; [apply Z.ltb_lt | apply Z.eqb_eq]; lia).
    cbn [bind]. split; [reflexivity|]. eapply qt_itr_next_None_freed, Hn.
  - injection Ho as <- Ho. cbn [length] in Hm.
    destruct (IH items' j' pend' itr1 (arr ++ [Some x])
                (if i + 1 >=? alloced then alloced * 2 else alloced) (i + 1) m
                (eq_sym Ho) Hl Hj' Hok' Hp') as (c2 & R2);
      [rewrite length_app; cbn [length]; lia
      | destruct (Z.geb_spec (i + 1) alloced); lia | lia |].
    exists (S (c + c2)). intros f.
    destruct (R2 (c + f)%nat) as (itr' & arr' & i' & Hloop & Hfree).
    exists itr', arr', i'. split; [|exact Hfree].
    simpl Nat.add. cbn [query_ary_loop].
    rewrite <- Nat.add_assoc, R. cbn [bind]. unfold write_entry.
    replace ((i <? alloced) && (i =? Z.of_nat (length arr))) with true
      by (symmetry; apply andb_true_iff; split; [apply Z.ltb_lt | apply Z.eqb_eq]; lia).
    cbn [bind].
    replace ((m >? 0) && (i >=? m)) with false.
    + replace (c + (c2 + f))%nat with (c2 + (c + f))%nat by lia. exact Hloop.
    + symmetry. apply andb_false_iff.
      destruct Hm as [Hm | Hm]; [left; rewrite Z.gtb_ltb; apply Z.ltb_ge; lia|].
      right. rewrite Z.geb_leb. apply Z.leb_gt. lia.
Qed.

(** [qt_query_ary] on a tree laid out in the buffer. *)
Lemma qt_query_ary_ok (root : TransNode) (m : Z) :
  is_inner root = true -> at_node T 0 (sizeof_Inner * qt_ninners T) root ->
  levels root <= nf -> qt_maxdepth T = nf ->
  Forall count_ok (visit Q (qt_region T) root) ->
  let out := matching Q (visit Q (qt_region T) root) in
  exists fuel, forall f,
    qt_query_ary (fuel + f) T Q m =
    if (0 <? m) && (m <? Z.of_nat (length out))
    then Ok (map Some (firstn (Z.to_nat m + 1) out), m)
    else Err DoubleFree.
Proof.
  intros Hin Hat Hlv Hnf Hcount. cbv zeta.
  destruct (qt_query_itr_ok T Q nf root Hin Hat Hlv Hnf) as [c R].
  destruct R as [[Hnil R] | (items & P & itr0 & Hcons & Hleaf & R)].
  - exists (c + 2)%nat. intros f. rewrite Hnil. cbn [matching map concat length].
    replace ((0 <? m) && (m <? Z.of_nat 0)) with false
      by (symmetry; destruct (Z.ltb_spec 0 m);
          [apply andb_false_iff; right; apply Z.ltb_ge; lia | reflexivity]).
    unfold qt_query_ary. cbv zeta. rewrite <- Nat.add_assoc, R. cbn [bind].
    replace (c + (2 + f))%nat with (S (S (c + f))) by lia. reflexivity.
  - rewrite Hcons in *. apply Forall_cons_iff in Hcount as [Hok HP].
    rewrite <- output_0.
    assert (Hj : 0 <= 0 <= leaf_n items) by (unfold count_ok in Hok; lia).
    destruct ((0 <? m) && (m <? Z.of_nat (length (output Q items 0 P)))) eqn:Hcase.
    + apply andb_true_iff in Hcase as [H0 H1]. apply Z.ltb_lt in H0, H1.
      destruct (query_ary_loop_hits _ items 0 P itr0 [] 32 0 m eq_refl Hleaf Hj Hok HP)
        as (c2 & itr' & Hfree & R2); [reflexivity | lia | lia | lia | lia |].
      exists (c + c2)%nat. intros f. unfold qt_query_ary. cbv zeta.
      rewrite <- Nat.add_assoc, R. cbn [bind].
      replace (c + (c2 + f))%nat with (c2 + (c + f))%nat by lia. rewrite R2. cbn [bind].
      unfold free_itr. rewrite Hfree. cbn [bind app]. rewrite Z.sub_0_r. reflexivity.
    + destruct (query_ary_loop_exhausts _ items 0 P itr0 [] 32 0 m eq_refl Hleaf Hj Hok HP)
        as (c2 & R2); [reflexivity | lia | |].
      { apply andb_false_iff in Hcase as [H0 | H1];
          [apply Z.ltb_ge in H0 | apply Z.ltb_ge in H1]; lia. }
      exists (c + c2)%nat. intros f. unfold qt_query_ary. cbv zeta.
      rewrite <- Nat.add_assoc, R. cbn [bind].
      replace (c + (c2 + f))%nat with (c2 + (c + f))%nat by lia.
      destruct (R2 (c + f)%nat) as (itr' & arr' & i' & -> & Hfree). cbn [bind].
      unfold free_itr. rewrite Hfree. reflexivity.
Qed.

(** *** The loop of [qt_query_ary_fast] *)

Lemma fast_take_unlimited (leaves : list (list Item)) : forall i,
  fast_take Q 0 i leaves = matching Q leaves.
Proof.
  induction leaves as [|l rest IH]; intros i; [reflexivity|].
  cbn [fast_take]. change (negb (0 =? 0) && (i >=? 0)) with false. cbv iota zeta.
  rewrite IH. reflexivity.
Qed.

Lemma fast_take_prefix (m : Z) (leaves : list (list Item)) : forall i,
  exists rest,
    matching Q leaves = fast_take Q m i leaves ++ rest /\
    (rest = [] \/ m <= i + Z.of_nat (length (fast_take Q m i leaves))).
Proof.
  induction leaves as [|l ls IH]; intros i.
  - exists []. split; [reflexivity | left; reflexivity].
  - cbn [fast_take]. destruct (negb (m =? 0) && (i >=? m)) eqn:Hlim.
    + exists (matching Q (l :: ls)). split; [reflexivity|]. right.
      apply andb_true_iff in Hlim as [_ Hge]. apply Z.geb_le in Hge. cbn [length]. lia.
    + cbv zeta. set (taken := List.filter (fun it => in_quadrant it Q) l).
      destruct (IH (i + Z.of_nat (length taken))) as (rest & Hm & Hr).
      exists rest. split.
      * change (matching Q (l :: ls)) with (taken ++ matching Q ls).
        rewrite Hm, app_assoc. reflexivity.
      * destruct Hr as [Hr | Hr]; [left; exact Hr | right].
        rewrite length_app. lia.
Qed.

Lemma fast_take_cons (m i : Z) (l : list Item) (rest : list (list Item)) :
  fast_take Q m i (l :: rest) =
  if negb (m =? 0) && (i >=? m) then []
  else List.filter (fun it => in_quadrant it Q) l
       ++ fast_take Q m (i + Z.of_nat (length (List.filter (fun it => in_quadrant it Q) l)))
            rest.
Proof. reflexivity. Qed.

(** One round of the loop, at a leaf and below the limit. *)
Lemma query_ary_fast_loop_step (fr fr' : Qt_Itr_Frame) rest' pend L (items : list Item)
    arr alloced i m f :
  laid_out T 0 L (TLeaf items 0) ->
  (fr_within_parent fr = true -> Forall (fun it => in_quadrant it Q = true) items) ->
  below_ok T Q nf (fr' :: rest') pend ->
  Z.of_nat (length arr) = i -> negb (m =? 0) && (i >=? m) = false ->
  let taken := List.filter (fun it => in_quadrant it Q) items in
  query_ary_fast_loop (S f) (mkItr (fr :: fr' :: rest') nf (Some L) 0 Q T false)
    arr alloced i m =
  bind (itr_loop f (mkItr (advance (fr' :: rest')) nf (Some L) 0 Q T false))
    (fun itr1 =>
       query_ary_fast_loop f itr1 (arr ++ map Some taken)
         (if i + leaf_n items >? alloced then (i + leaf_n items) * 2 else alloced)
         (i + Z.of_nat (length taken)) m).
Proof.
  intros Hlaid Hflag Hbelow Hlen Hlim. cbv zeta.
  cbn [query_ary_fast_loop itr_lp itr_stack itr_quadtree itr_region].
  rewrite Hlim.
  rewrite (_include_leaf_laid T L Q items arr i alloced (fr_within_parent fr) Hlaid Hlen).
  cbv zeta. cbn [bind].
  change (set_stack (mkItr (fr :: fr' :: rest') nf (Some L) 0 Q T false)
            (next_quadrant fr' :: rest'))
    with (mkItr (advance (fr' :: rest')) nf (Some L) 0 Q T false).
  rewrite (itr_next_recursive_is_loop T Q nf (fr' :: rest') pend (Some L) 0 f Hbelow)
    by discriminate.
  destruct (fr_within_parent fr) eqn:Hw; [|reflexivity].
  rewrite (filter_all _ items (Hflag eq_refl)). reflexivity.
Qed.

Lemma query_ary_fast_loop_ok (pend : list (list Item)) :
  forall items (itr : Qt_Iterator) arr alloced i m,
  at_leaf_flagged T Q nf itr items pend -> Z.of_nat (length arr) = i ->
  exists (c : nat) (itr' : Qt_Iterator),
    itr_freed itr' = false /\
    forall f, query_ary_fast_loop (c + f) itr arr alloced i m =
              Ok (itr', arr ++ map Some (fast_take Q m i (items :: pend)),
                  i + Z.of_nat (length (fast_take Q m i (items :: pend)))).
Proof.
  induction pend as [|items2 P IHP]; intros items itr arr alloced i m Hleaf Hlen;
    destruct Hleaf as (L & fr & rest & -> & Hfr & Hlaid & Hne & Hflag & Hbelow);
    rewrite fast_take_cons;
    (destruct (negb (m =? 0) && (i >=? m)) eqn:Hlim;
     [exists 1%nat, (mkItr (fr :: rest) nf (Some L) 0 Q T false);
      split; [reflexivity|]; intros f; simpl Nat.add; cbn [query_ary_fast_loop itr_lp];
      rewrite Hlim; cbn [map length]; rewrite app_nil_r, Z.add_0_r; reflexivity|]);
    set (taken := List.filter (fun it => in_quadrant it Q) items);
    destruct rest as [|fr' rest']; try congruence;
    pose proof (below_flagged_below T Q nf _ _ Hbelow) as Hb0;
    destruct (itr_loop_unwind_flagged T Q nf (fr' :: rest') _ Hbelow (Some L) 0) as [c1 R1];
    pose proof (fun f => query_ary_fast_loop_step fr fr' rest' _ L items arr alloced i m f
                           Hlaid Hflag Hb0 Hlen Hlim) as Hstep;
    cbv zeta in Hstep; fold taken in Hstep.
  - (* the last leaf *)
    destruct R1 as [[_ R1] | (i2 & P' & itr' & Hcons & _)]; [|discriminate].
    exists (S (c1 + 1)), (mkItr [] nf None 0 Q T false). split; [reflexivity|].
    intros f. simpl Nat.add. rewrite Hstep.
    rewrite <- Nat.add_assoc, R1. cbn [bind].
    replace (c1 + (1 + f))%nat with (S (c1 + f)) by lia.
    cbn [query_ary_fast_loop itr_lp fast_take]. rewrite app_nil_r. reflexivity.
  - (* the next leaf *)
    destruct R1 as [[Hnil _] | (i2 & P' & itr2 & Hcons & Hleaf2 & R1)]; [discriminate|].
    injection Hcons as <- <-.
    destruct (IHP items2 itr2 (arr ++ map Some taken)
                (if i + leaf_n items >? alloced then (i + leaf_n items) * 2 else alloced)
                (i + Z.of_nat (length taken)) m Hleaf2) as (c2 & itr' & Hfree & R2);
      [rewrite length_app, length_map; lia|].
    exists (S (c1 + c2)), itr'. split; [exact Hfree|].
    intros f. simpl Nat.add. rewrite Hstep.
    rewrite <- Nat.add_assoc, R1. cbn [bind].
    replace (c1 + (c2 + f))%nat with (c2 + (c1 + f))%nat by lia. rewrite R2.
    rewrite map_app, length_app, <- app_assoc. f_equal. f_equal. lia.
Qed.

(** [qt_query_ary_fast] on a tree laid out in the buffer. *)
Lemma qt_query_ary_fast_ok (root : TransNode) (m : Z) :
  is_inner root = true -> at_node T 0 (sizeof_Inner * qt_ninners T) root ->
  levels root <= nf -> qt_maxdepth T = nf -> located (qt_region T) root ->
  let taken := fast_take Q m 0 (visit Q (qt_region T) root) in
  exists fuel, forall f,
    qt_query_ary_fast (fuel + f) T Q m = Ok (map Some taken, Z.of_nat (length taken)).
Proof.
  intros Hin Hat Hlv Hnf Hloc. cbv zeta.
  destruct (qt_query_itr_flagged T Q nf root Hin Hat Hlv Hnf Hloc) as [c R].
  destruct R as [[Hnil R] | (items & P & itr0 & Hcons & Hleaf & R)].
  - exists (c + 1)%nat. intros f. rewrite Hnil. cbn [fast_take map length].
    unfold qt_query_ary_fast. cbv zeta. rewrite <- Nat.add_assoc, R. cbn [bind].
    replace (c + (1 + f))%nat with (S (c + f)) by lia. reflexivity.
  - rewrite Hcons.
    destruct (query_ary_fast_loop_ok P items itr0 [] (4096 / 8) 0 m Hleaf eq_refl)
      as (c2 & itr' & Hfree & R2).
    exists (c + c2)%nat. intros f. unfold qt_query_ary_fast. cbv zeta.
    rewrite <- Nat.add_assoc, R. cbn [bind].
    replace (c + (c2 + f))%nat with (c2 + (c + f))%nat by lia. rewrite R2. cbn [bind].
    unfold free_itr. rewrite Hfree. cbn [bind app]. rewrite Z.add_0_l. reflexivity.
Qed.

End Loops.

(** X18: On the finalised tree of a builder that holds at least one item (all
    items inside its region), [qt_query_ary] with a limit [m > 0] returns
    normally exactly when more than [m] items lie in the query region:
    the array then holds the first [m + 1] of them in traversal order and
    [m] is written back.  In every other case, with [m = 0] or at most
    [m] matching items, the iterator is freed twice. *)
Theorem qt_query_ary_on_a_built_tree
    fuel0 region maxfill (items : list Item) (qt : UFQuadTree) (Q : Quadrant) (m : Z) :
  build fuel0 region maxfill items = Ok qt ->
  Forall (fun it => in_quadrant it region = true) items ->
  items <> [] ->
  let matches := List.filter (fun it => in_quadrant it Q) (items_of (uf_root qt)) in
  exists fuel, forall f,
    qt_query_ary (fuel + f) (qt_finalise qt) Q m =
    if (0 <? m) && (m <? Z.of_nat (length matches))
    then Ok (map Some (firstn (Z.to_nat m + 1) matches), m)
    else Err DoubleFree.
Proof.
  intros Hb Hitems Hne. cbv zeta.
  pose proof (build_located _ _ _ _ _ Hb Hitems) as Hloc.
  pose proof (build_leaves_ok _ _ _ _ _ Hb Hne) as Hleaves.
  pose proof (build_region _ _ _ _ _ Hb) as Hreg.
  destruct (insert_all_counters _ _ _ _ Hb (counters_ok_create region maxfill))
    as [Hok Hlv]. specialize (Hlv Hne).
  destruct (qt_finalise_ok qt Hok) as (Hr & Hm & Hi & Hat).
  pose proof Hok as (Hin & _).
  destruct (qt_query_ary_ok (qt_finalise qt) Q (uf_maxdepth qt) (uf_root qt) m
              Hin Hat Hlv Hm) as [fuel R].
  - apply leaves_ok_count. exact Hleaves.
  - exists fuel. intros f. rewrite R, Hr, Hreg.
    rewrite (visit_matching Q (uf_root qt) region Hloc). reflexivity.
Qed.

(** X19: On the finalised tree of a builder that holds at least one item (all
    items inside its region), [qt_query_ary_fast] returns normally: it
    takes the items of the query region leaf by leaf in traversal order,
    whole leaves at a time, and stops before the first leaf at which the
    count has reached the limit; the count written back is the number of
    items in the array.  What it returns is a prefix of the full result,
    the full result when the limit is 0, and when items are left out at
    least [m] items are returned. *)
Theorem qt_query_ary_fast_on_a_built_tree
    fuel0 region maxfill (items : list Item) (qt : UFQuadTree) (Q : Quadrant) (m : Z) :
  build fuel0 region maxfill items = Ok qt ->
  Forall (fun it => in_quadrant it region = true) items ->
  items <> [] ->
  let matches := List.filter (fun it => in_quadrant it Q) (items_of (uf_root qt)) in
  let taken := fast_take Q m 0 (visit Q region (uf_root qt)) in
  (exists fuel, forall f,
     qt_query_ary_fast (fuel + f) (qt_finalise qt) Q m =
     Ok (map Some taken, Z.of_nat (length taken))) /\
  (exists rest, matches = taken ++ rest /\ (rest = [] \/ m <= Z.of_nat (length taken))) /\
  (m = 0 -> taken = matches).
Proof.
  intros Hb Hitems Hne. cbv zeta.
  pose proof (build_located _ _ _ _ _ Hb Hitems) as Hloc.
  pose proof (build_region _ _ _ _ _ Hb) as Hreg.
  destruct (insert_all_counters _ _ _ _ Hb (counters_ok_create region maxfill))
    as [Hok Hlv]. specialize (Hlv Hne).
  destruct (qt_finalise_ok qt Hok) as (Hr & Hm & Hi & Hat).
  pose proof Hok as (Hin & _).
  rewrite <- (visit_matching Q (uf_root qt) region Hloc).
  split; [|split].
  - destruct (qt_query_ary_fast_ok (qt_finalise qt) Q (uf_maxdepth qt) (uf_root qt) m
                Hin Hat Hlv Hm) as [fuel R].
    + rewrite Hr, Hreg. exact Hloc.
    + exists fuel. intros f. rewrite R, Hr, Hreg. reflexivity.
  - destruct (fast_take_prefix Q m (visit Q region (uf_root qt)) 0) as (rest & Hm' & Hr').
    exists rest. split; [exact Hm'|]. rewrite Z.add_0_l in Hr'. exact Hr'.
  - intros ->. apply fast_take_unlimited.
Qed.

End ArrayLoops.

(** ** When an insertion can fail *)

Section NoOverflow.

Context {FLOAT : Type} {Hops : FloatOps FLOAT}.

Abbreviation Item := (Item FLOAT).
Abbreviation Quadrant := (Quadrant FLOAT).
Abbreviation TransNode := (TransNode FLOAT).
Abbreviation UFQuadTree := (UFQuadTree FLOAT).

Variable mf : Z.
Hypothesis Hmf : 1 <= mf < 2 ^ 32.

Lemma any_inner_some (c0 c1 c2 c3 : option TransNode) : some_child c0 c1 c2 c3 = true -> any_inner c0 c1 c2 c3 = true.
Proof. reflexivity. Qed.

Lemma room_ok_fresh : room_ok (@nil Item) mf = true.
Proof.
  unfold room_ok, leaf_n. cbn [length].
  rewrite !andb_true_iff, !Z.leb_le, Z.ltb_lt. lia.
Qed.

Lemma leaf_ok_room (items : list Item) size : leaf_ok items size = true -> room_ok items size = true.
Proof.
  unfold leaf_ok, bucket_ok, room_ok.
  rewrite !andb_true_iff, !Z.leb_le, Z.ltb_lt. lia.
Qed.

Lemma room_ok_push (items : list Item) size size' (item : Item) :
  room_ok items size = true -> leaf_n items < size' ->
  size' = size \/ size' = wrap32 (size * 2) ->
  leaf_ok (items ++ [item]) size' = true.
Proof.
  unfold leaf_ok, bucket_ok, room_ok, leaf_n. rewrite length_app. cbn [length].
  rewrite !andb_true_iff, !Z.leb_le, !Z.ltb_lt. intros ((H1 & H2) & H3) Hlt Hs.
  assert (size' < 2 ^ 32).
  { destruct Hs as [-> | ->]; [exact H3|]. unfold wrap32. apply Z.mod_pos_bound. lia. }
  lia.
Qed.

Lemma bump_maxdepth_maxfill (qt : UFQuadTree) d :
  uf_maxfill (bump_maxdepth qt d) = uf_maxfill qt.
Proof. unfold bump_maxdepth. destruct (d >? uf_maxdepth qt); reflexivity. Qed.

Lemma child_length (node c : TransNode) i :
  child node i = Some c -> (length (items_of c) <= length (items_of node))%nat.
Proof.
  destruct node as [c0 c1 c2 c3 | items size]; [|discriminate].
  unfold child, get4. cbn [items_of q_nw q_ne q_sw q_se]. rewrite !length_app. intros Hc.
  destruct (i =? NW); [simpl in Hc; subst c0; simpl; lia|].
  destruct (i =? NE); [simpl in Hc; subst c1; simpl; lia|].
  destruct (i =? SW); [simpl in Hc; subst c2; simpl; lia|].
  destruct (i =? SE); [simpl in Hc; subst c3; simpl; lia|]. discriminate.
Qed.

Lemma only_fuel_bind {A B} (c : result A) (k : A -> result B) :
  only_fuel c -> (forall a, c = Ok a -> only_fuel (k a)) -> only_fuel (bind c k).
Proof.
  unfold only_fuel. destruct c as [a|e']; cbn [bind]; intros Hc Hk e He.
  - eapply Hk; [reflexivity | exact He].
  - apply Hc. congruence.
Qed.

Lemma only_fuel_Ok {A} (a : A) : only_fuel (Ok a).
Proof. intros e He. discriminate. Qed.

(** What an insertion needs: the bucket size of the builder, a tree
    whose buckets have room, and fewer than [2^31] items below the node. *)
Section Step.

Variable fuel : nat.
Hypothesis IH : forall (qt : UFQuadTree) node item q depth,
  uf_maxfill qt = mf -> shape_pre any_inner leaf_ok room_ok node = true ->
  Z.of_nat (length (items_of node)) < 2 ^ 31 ->
  only_fuel (_qt_insert fuel qt node item q depth).

Lemma insert_inner_only_fuel (qt : UFQuadTree) node item q depth :
  is_inner node = true -> uf_maxfill qt = mf ->
  shape_pre any_inner leaf_ok room_ok node = true ->
  Z.of_nat (length (items_of node)) < 2 ^ 31 ->
  only_fuel (insert_inner (_qt_insert fuel) qt node item q depth).
Proof.
  intros Hin Hq Hpre Hsmall. unfold insert_inner.
  destruct (classify item q) as [quad q2].
  destruct node as [c0 c1 c2 c3|]; [|discriminate]. cbn [shape_pre] in Hpre.
  destruct (child (TInner c0 c1 c2 c3) quad) as [c|] eqn:Hc.
  - apply only_fuel_bind; [|intros [qt' c'] _; apply only_fuel_Ok].
    apply IH; [exact Hq | |].
    + apply (all_nodes_pre any_inner leaf_ok room_ok leaf_ok_room).
      eapply child_all_nodes; eassumption.
    + pose proof (child_length _ _ _ Hc). lia.
  - unfold _init_leaf_node.
    apply only_fuel_bind; [|intros [qt' c'] _; apply only_fuel_Ok].
    apply IH; [exact Hq | rewrite Hq; apply room_ok_fresh | cbn [items_of length]; lia].
Qed.

Lemma reinsert_only_fuel (items : list Item) : forall (qt : UFQuadTree) node q depth,
  uf_maxfill qt = mf -> shape_pre any_inner leaf_ok room_ok node = true ->
  Z.of_nat (length (items_of node)) + Z.of_nat (length items) < 2 ^ 31 ->
  only_fuel (reinsert (_qt_insert fuel) qt node items q depth).
Proof.
  induction items as [|it rest IHr]; intros qt node q depth Hq Hpre Hsmall;
    [apply only_fuel_Ok|].
  cbn [reinsert]. cbn [length] in Hsmall.
  apply only_fuel_bind; [apply IH; [exact Hq | exact Hpre | lia]|].
  intros [qt1 node1] Hins.
  pose proof (Permutation_length (_qt_insert_items _ _ _ _ _ _ _ _ Hins)) as Hlen.
  cbn [length] in Hlen.
  apply (_qt_insert_shape any_inner leaf_ok room_ok mf any_inner_some room_ok_fresh leaf_ok_room
           room_ok_push) in Hins as [Hq1 Hall]; [|exact Hq | exact Hpre].
  apply IHr; [exact Hq1 | apply (all_nodes_pre any_inner leaf_ok room_ok leaf_ok_room), Hall | lia].
Qed.

Lemma insert_restart_only_fuel (qt : UFQuadTree) node item q depth :
  uf_maxfill qt = mf -> shape_pre any_inner leaf_ok room_ok node = true ->
  Z.of_nat (length (items_of node)) < 2 ^ 31 ->
  only_fuel (insert_restart (_qt_insert fuel) qt node item q depth).
Proof.
  intros Hq Hpre Hsmall. unfold insert_restart.
  destruct node as [c0 c1 c2 c3 | items size]; cbn [is_inner].
  { apply insert_inner_only_fuel; auto. }
  cbn [shape_pre items_of] in Hpre, Hsmall. unfold room_ok in Hpre.
  rewrite !andb_true_iff, !Z.leb_le, Z.ltb_lt in Hpre. destruct Hpre as ((H1 & H2) & H3).
  fold (leaf_n items) in Hsmall.
  assert (Hw : wrap32 (leaf_n items + 1) = leaf_n items + 1).
  { unfold wrap32. apply Z.mod_small. unfold leaf_n in *. lia. }
  unfold _ensure_bucket_size. rewrite Hw.
  destruct (Z.gtb_spec (leaf_n items + 1) size) as [Hfull | Hfree].
  - unfold _split_node. destruct (_distinct_items_exist items) eqn:Hd; cbn [negb].
    + cbv zeta.
      set (qt1 := set_counts qt (uf_ninners qt + 1) (uf_nleafs qt - 1)).
      apply only_fuel_bind.
      * apply reinsert_only_fuel; [exact Hq | reflexivity |].
        cbn [items_of opt_list app length]. unfold leaf_n in Hsmall. lia.
      * intros [qt2 node2] Hre.
        assert (Hin2 : is_inner node2 = true)
          by (eapply reinsert_is_inner; [|exact Hre]; reflexivity).
        pose proof (Permutation_length
                      (reinsert_items _ (_qt_insert_items fuel) _ _ _ _ _ _ _ Hre)) as Hlen.
        rewrite length_app in Hlen. cbn [items_of opt_list app length] in Hlen.
        apply (reinsert_shape any_inner leaf_ok room_ok mf room_ok_fresh leaf_ok_room _
                 (_qt_insert_shape any_inner leaf_ok room_ok mf any_inner_some room_ok_fresh
                    leaf_ok_room room_ok_push fuel)) in Hre as [Hq2 Hpre2];
          [|exact Hq | reflexivity].
        destruct node2 as [d0 d1 d2 d3|]; [|discriminate].
        apply insert_inner_only_fuel; [reflexivity | exact Hq2 | exact Hpre2|].
        unfold leaf_n in Hsmall. lia.
    + cbv zeta.
      assert (Hd2 : wrap32 (size * 2) = size * 2) by (unfold wrap32; apply Z.mod_small; lia).
      rewrite Hd2. unfold _realloc, sizeof_Item_ptr.
      replace (size * 2 * 8 =? 0) with false by lia. cbn [bind].
      replace (leaf_n items <? size * 2) with true by lia.
      apply only_fuel_Ok.
  - cbn [bind]. replace (leaf_n items <? size) with true by lia. apply only_fuel_Ok.
Qed.

End Step.

Lemma _qt_insert_only_fuel (fuel : nat) : forall (qt : UFQuadTree) node item q depth,
  uf_maxfill qt = mf -> shape_pre any_inner leaf_ok room_ok node = true ->
  Z.of_nat (length (items_of node)) < 2 ^ 31 ->
  only_fuel (_qt_insert fuel qt node item q depth).
Proof.
  induction fuel as [|fuel IH]; intros qt node item q depth Hq Hpre Hsmall.
  - intros e [= <-]. reflexivity.
  - rewrite _qt_insert_S. apply insert_restart_only_fuel; auto.
    rewrite bump_maxdepth_maxfill. exact Hq.
Qed.

Lemma insert_all_only_fuel (fuel : nat) (items : list Item) : forall qt : UFQuadTree,
  uf_maxfill qt = mf -> is_inner (uf_root qt) = true ->
  shape_pre any_inner leaf_ok room_ok (uf_root qt) = true ->
  Z.of_nat (length (items_of (uf_root qt))) + Z.of_nat (length items) <= 2 ^ 31 ->
  only_fuel (insert_all fuel qt items).
Proof.
  induction items as [|it rest IHr]; intros qt Hq Hin Hpre Hsmall; [apply only_fuel_Ok|].
  cbn [insert_all]. cbn [length] in Hsmall.
  apply only_fuel_bind.
  - unfold qt_insert. cbv zeta.
    apply only_fuel_bind; [|intros [qt' root'] _; apply only_fuel_Ok].
    apply _qt_insert_only_fuel; [exact Hq | exact Hpre | cbn [set_size uf_root]; lia].
  - intros qt1 Hins. unfold qt_insert in Hins. cbv zeta in Hins.
    apply bind_Ok in Hins as ([qt2 root] & Hins & Heq). injection Heq as <-.
    pose proof (Permutation_length (_qt_insert_items _ _ _ _ _ _ _ _ Hins)) as Hlen.
    cbn [length set_size uf_root] in Hlen.
    pose proof (_qt_insert_is_inner _ _ _ _ _ _ _ _ Hin Hins) as Hin'.
    apply (_qt_insert_shape any_inner leaf_ok room_ok mf any_inner_some room_ok_fresh leaf_ok_room
             room_ok_push) in Hins as [Hq1 Hall]; [|exact Hq | exact Hpre].
    apply IHr; cbn [set_root uf_maxfill uf_root];
      [exact Hq1 | exact Hin'
      | apply (all_nodes_pre any_inner leaf_ok room_ok leaf_ok_room), Hall | lia].
Qed.

End NoOverflow.

Section InsertFailures.

Context {FLOAT : Type} {Hops : FloatOps FLOAT}.

Abbreviation Item := (Item FLOAT).
Abbreviation Quadrant := (Quadrant FLOAT).
Abbreviation TransNode := (TransNode FLOAT).
Abbreviation UFQuadTree := (UFQuadTree FLOAT).

(** X20: With a bucket size of at least 1 and at most [2^31] items in all, no
    insertion writes outside a bucket: a sequence of insertions can only
    fail in the model for lack of fuel, that is by not having ended yet. *)
Theorem build_never_overflows_a_bucket
    (fuel : nat) (region : Quadrant) (maxfill : Z) (items : list Item) (e : error) :
  1 <= wrap32 maxfill -> Z.of_nat (length items) <= 2 ^ 31 ->
  build fuel region maxfill items = Err e -> e = OutOfFuel.
Proof.
  intros Hmf Hlen. unfold build.
  apply (insert_all_only_fuel (wrap32 maxfill)); try reflexivity.
  - split; [exact Hmf|]. unfold wrap32. apply Z.mod_pos_bound. lia.
  - cbn [qt_create_quadtree uf_root items_of opt_list app length]. lia.
Qed.

(** X21: A builder created with bucket size 0 cannot take any item: the first
    insertion finds the new bucket full and doubles its capacity to 0,
    and the program ends in [_realloc], which gets [NULL] for the request
    of 0 bytes and calls [exit(1)]. *)
Theorem bucket_size_zero_exits_at_once
    (f : nat) (region : Quadrant) (maxfill : Z) (item : Item) :
  wrap32 maxfill = 0 ->
  qt_insert (S (S f)) (qt_create_quadtree region maxfill) item = Err AllocExit.
Proof.
  intros Hw.
  destruct (classify item region) as [quad q2] eqn:Hc.
  unfold qt_insert. cbv zeta. rewrite _qt_insert_S.
  unfold set_size, qt_create_quadtree, bump_maxdepth.
  cbn [uf_root uf_region uf_size uf_maxdepth uf_maxfill uf_ninners uf_nleafs].
  change (0 + 1 >? 0) with true. cbv iota.
  unfold insert_restart at 1. cbn [is_inner]. unfold insert_inner. rewrite Hc.
  assert (Hch : child (TInner None None None None : TransNode) quad = None).
  { unfold child, get4. cbn [q_nw q_ne q_sw q_se].
    destruct (quad =? NW), (quad =? NE), (quad =? SW), (quad =? SE); reflexivity. }
  rewrite Hch. unfold _init_leaf_node, set_maxdepth, set_counts.
  cbn [uf_root uf_region uf_size uf_maxdepth uf_maxfill uf_ninners uf_nleafs].
  rewrite _qt_insert_S. unfold bump_maxdepth. cbn [uf_maxdepth].
  change (0 + 1 + 1 >? 0 + 1) with true. cbv iota.
  rewrite (insert_restart_coincident _ _ (coords item) [] _ _ _ _ (List.Forall_nil _)).
  rewrite Hw. reflexivity.
Qed.

End InsertFailures.

(** ** The further theorems at work on the example trees *)

Lemma demo_item_in_the_outer_box :
  in_quadrant (pt 1 1 1) (box 0 0 10 10) = true.
Proof.
  refine (CONTAINED_in_quadrant (FLOAT:=Q) (box 0 0 5 5) (box 0 0 10 10) (pt 1 1 1) _ _);
    vm_compute; reflexivity.
Defined.

Lemma demo_boxes_touching_at_a_corner :
  OVERLAP (box 0 0 5 5) (box 5 5 10 10) = OVERLAP (box 5 5 10 10) (box 0 0 5 5).
Proof.
  exact (proj1 (OVERLAP_symmetric_and_complete (FLOAT:=Q) (box 0 0 5 5) (box 5 5 10 10))).
Defined.

Lemma demo_classify_first_item :
  in_quadrant (pt 1 1 1) (snd (classify (pt 1 1 1) (box 0 0 10 10))) = true.
Proof.
  refine (proj1 (classify_keeps_item_inside (FLOAT:=Q) (pt 1 1 1) (box 0 0 10 10) _)).
  vm_compute. reflexivity.
Defined.

Lemma demo_builder_keeps_the_items :
  Permutation (items_of (uf_root demo_builder)) demo_items.
Proof.
  refine (build_keeps_the_items (FLOAT:=Q) 10 (box 0 0 10 10) 2 demo_items demo_builder _).
  vm_compute. reflexivity.
Defined.

Lemma demo_builder_counters :
  uf_region demo_builder = box 0 0 10 10 /\
  uf_maxfill demo_builder = wrap32 2 /\
  uf_size demo_builder = Z.of_nat (length demo_items) /\
  uf_ninners demo_builder = count_inners (uf_root demo_builder) /\
  uf_nleafs demo_builder = count_leafs (uf_root demo_builder).
Proof.
  refine (build_counters_are_exact (FLOAT:=Q) 10 (box 0 0 10 10) 2 demo_items demo_builder _).
  vm_compute. reflexivity.
Defined.

Lemma demo_builder_buckets :
  buckets_ok (uf_root demo_builder) = true.
Proof.
  refine (build_buckets_within_capacity (FLOAT:=Q) 10 (box 0 0 10 10) 2 demo_items
            demo_builder _).
  vm_compute. reflexivity.
Defined.

Lemma demo_builder_maxdepth :
  uf_maxdepth demo_builder = levels (uf_root demo_builder).
Proof.
  refine (build_maxdepth_is_the_height (FLOAT:=Q) 10 (box 0 0 10 10) 2 demo_items
            demo_builder _ _).
  - vm_compute. reflexivity.
  - discriminate.
Defined.

Lemma demo_buffer_is_not_left :
  within_buffer (_mem_size 64 demo_builder - 64) (qt_finalise demo_builder).
Proof.
  refine (qt_finalise_stays_in_the_buffer (FLOAT:=Q) 10 (box 0 0 10 10) 2 demo_items
            demo_builder 64 _).
  vm_compute. reflexivity.
Defined.

Lemma demo_buffer_stores_the_tree :
  stored (qt_finalise demo_builder) MEM_ROOT (uf_root demo_builder).
Proof.
  refine (proj1 (qt_finalise_stores_the_tree (FLOAT:=Q) 10 (box 0 0 10 10) 2 demo_items
                   demo_builder _)).
  vm_compute. reflexivity.
Defined.

(** A query region away from the two items: the iterator has no leaf
    from the start, the first call returns [NULL] and frees it. *)
Lemma far_query_ends_freed :
  qt_query_itr 20 (qt_finalise pair_builder) (box 20 20 30 30) = Ok far_itr /\
  exists itr', qt_itr_next 20 far_itr = Ok (None, itr') /\ free_itr itr' = Err DoubleFree.
Proof.
  split; [vm_compute; reflexivity|].
  eexists. split.
  - vm_compute. reflexivity.
  - refine (proj2 (qt_itr_next_frees_exactly_at_NULL (FLOAT:=Q) 20 far_itr _ None _ _)
              eq_refl);
      vm_compute; reflexivity.
Defined.

Lemma demo_builder_is_located :
  located (box 0 0 10 10) (uf_root demo_builder).
Proof.
  refine (build_items_are_located (FLOAT:=Q) 10 (box 0 0 10 10) 2 demo_items demo_builder
            _ _).
  - vm_compute. reflexivity.
  - repeat constructor.
Defined.

Lemma demo_query_in_leaf_order :
  exists fuel, forall f,
    query_all (fuel + f) (qt_finalise demo_builder) (box 0 0 5 5) =
    Ok [pt 5 3 3; pt 1 1 1; pt 4 2 2].
Proof.
  refine (query_follows_the_order_of_the_leaves (FLOAT:=Q) 10 (box 0 0 10 10) 2 demo_items
            demo_builder (box 0 0 5 5) _ _ _).
  - vm_compute. reflexivity.
  - repeat constructor.
  - discriminate.
Defined.

Lemma demo_query_ary_in_the_array :
  qt_query_ary 30 (qt_finalise demo_builder) (box 0 0 5 5) 1 <> Err ArrayOutOfBounds.
Proof.
  exact (qt_query_ary_stays_in_the_array (FLOAT:=Q) 30 (qt_finalise demo_builder)
           (box 0 0 5 5) 1).
Defined.

Lemma demo_query_ary_fast_in_the_array :
  qt_query_ary_fast 30 (qt_finalise demo_builder) (box 0 0 5 5) 1 <> Err ArrayOutOfBounds.
Proof.
  refine (qt_query_ary_fast_stays_in_the_array (FLOAT:=Q) 30 (qt_finalise demo_builder)
            (box 0 0 5 5) 1 _).
  refine (proj2 (map_Forall_to_list (fun _ n => 0 <= n < 2 ^ 32)
                   (mem_words (qt_finalise demo_builder))) _).
  set (l := map_to_list _). vm_compute in l. subst l.
  repeat constructor; discriminate.
Defined.

(** The leaf of the tree with two items is at offset 32 of the buffer;
    of its items only the first lies in the region (0,0)-(1,1). *)
Lemma pair_leaf_is_included :
  _include_leaf (qt_finalise pair_builder) [] 0 512 32 (box 0 0 1 1) false =
  Ok ([Some (pt 1 1 1)], 1, 512).
Proof.
  refine (_include_leaf_appends_the_leaf (FLOAT:=Q) (qt_finalise pair_builder) 32
            (box 0 0 1 1) [pt 1 1 1; pt 2 2 2] [] 0 512 false _ _ _).
  - split.
    + vm_compute. reflexivity.
    + intros [|[|j]] it Hit; simpl in Hit.
      * injection Hit as <-. vm_compute. reflexivity.
      * injection Hit as <-. vm_compute. reflexivity.
      * destruct j; discriminate.
  - reflexivity.
  - reflexivity.
Defined.

(** Limit 1 and three matching items: two entries are written and 1 is
    returned as the count. *)
Lemma demo_query_ary_limit_1 :
  exists fuel, forall f,
    qt_query_ary (fuel + f) (qt_finalise demo_builder) (box 0 0 5 5) 1 =
    Ok ([Some (pt 5 3 3); Some (pt 1 1 1)], 1).
Proof.
  refine (qt_query_ary_on_a_built_tree (FLOAT:=Q) 10 (box 0 0 10 10) 2 demo_items
            demo_builder (box 0 0 5 5) 1 _ _ _).
  - vm_compute. reflexivity.
  - repeat constructor.
  - discriminate.
Defined.

Lemma demo_query_ary_fast_limit_1 :
  exists fuel, forall f,
    qt_query_ary_fast (fuel + f) (qt_finalise demo_builder) (box 0 0 5 5) 1 =
    Ok ([Some (pt 5 3 3)], 1).
Proof.
  refine (proj1 (qt_query_ary_fast_on_a_built_tree (FLOAT:=Q) 10 (box 0 0 10 10) 2
                   demo_items demo_builder (box 0 0 5 5) 1 _ _ _)).
  - vm_compute. reflexivity.
  - repeat constructor.
  - discriminate.
Defined.

Lemma demo_build_short_of_fuel :
  build 1 (box 0 0 10 10) 2 demo_items = Err OutOfFuel /\ OutOfFuel = OutOfFuel.
Proof.
  split; [vm_compute; reflexivity|].
  refine (build_never_overflows_a_bucket (FLOAT:=Q) 1 (box 0 0 10 10) 2 demo_items
            OutOfFuel _ _ _).
  - vm_compute. discriminate.
  - vm_compute. discriminate.
  - vm_compute. reflexivity.
Defined.

Lemma bucket_size_2_32_exits :
  qt_insert 2 (qt_create_quadtree (box 0 0 10 10) (2 ^ 32)) (pt 1 1 1) = Err AllocExit.
Proof.
  refine (bucket_size_zero_exits_at_once (FLOAT:=Q) 0 (box 0 0 10 10) (2 ^ 32)
            (pt 1 1 1) _).
  vm_compute. reflexivity.
Defined.
